(** * SnapLab: the local pixel-signal analysis engine

    A shallow embedding of the computational core of the repository:

    - [Seam.detectAxis]              src/services/localSplitService.ts
    - [SeamLegacy.detectAxis]        the earlier, gradient-only detector
    - [Flood.floodFill]              src/services/imageProcessing.ts
    - [Mask.filterLargestComponent]  src/services/imageProcessing.ts
    - [Clean.cleanTransparentPixels] src/services/imageProcessing.ts
    - [History], [Zoom], [Segment]   the hooks useImageHistory and useZoomPan,
                                     and applySamMask of ImageEditor.tsx

    Conventions.  Integers of the source (coordinates, indices, byte values,
    labels) are [Z].  The other JavaScript numbers (means, variances, scores,
    thresholds, mask entries) are exact rationals [Q]: the rounding of IEEE
    doubles and of [Float32Array] stores is not modelled.  [Math.sqrt] is a
    parameter of the seam detectors.  A typed array is a [list]: a read
    outside of it gives [undefined] ([None]) and a write outside of it is
    ignored.  A [while] loop runs on fuel, and is proved to end within the
    fuel that its caller gives it. *)

From Stdlib Require Import ZArith QArith Qabs Qminmax Qround Lia List.
From Stdlib Require Import Permutation Sorted.
From Stdlib Require String.
From stdpp Require Import base tactics option list list_numbers sets gmap.

Local Open Scope Z_scope.
#[local] Set Warnings "-clear-no-such-hyp".

(** ** Numbers and arrays *)

Module JS.

(** [a < b] and [a <= b] on numbers, as booleans. *)
Definition Qltb (a b : Q) : bool := negb (Qle_bool b a).
Definition Qleb (a b : Q) : bool := Qle_bool a b.

(** [for (let j = 0; j < stop; j += step)]: the values taken by [j]. *)
Definition stepRange (stop step : Z) : list Z :=
  (fun k => k * step) <$> seqZ 0 ((stop + step - 1) / step).

(** [arr[i]] on a typed array: [None] is JavaScript's [undefined]. *)
Definition rd {A} (arr : list A) (i : Z) : option A :=
  if i <? 0 then None else arr !! Z.to_nat i.

(** [arr[i] = v] on a typed array: ignored outside of the array. *)
Definition wr {A} (arr : list A) (i : Z) (v : A) : list A :=
  if i <? 0 then arr else <[Z.to_nat i := v]> arr.

(** [arr.sort((a, b) => a - b)] on integers. *)
Fixpoint insertAsc (x : Z) (l : list Z) : list Z :=
  match l with
  | [] => [x]
  | y :: l' => if x <=? y then x :: l else y :: insertAsc x l'
  end.

Definition sortAsc (l : list Z) : list Z := foldr insertAsc [] l.

End JS.

Import JS.

(** How a call ends: with a value, with an exception, or (for the model
    only) without having finished within the iterations it was given. *)
Inductive Exception := RangeError.

Inductive Completion (A : Type) :=
| Return (a : A)
| Throw (e : Exception)
| Unfinished.

Arguments Return {A} a.
Arguments Throw {A} e.
Arguments Unfinished {A}.

(** ** The pixel buffer *)

Inductive SplitDirection := HORIZONTAL | VERTICAL.

Record ImageData := mkImageData {
  width : Z;
  height : Z;
  data : list Z
}.

(** What the browser guarantees of an [ImageData]. *)
Definition wellFormed (img : ImageData) : Prop :=
  0 < width img ∧ 0 < height img ∧
  Z.of_nat (length (data img)) = width img * height img * 4.

(** ** The seam detector of localSplitService.ts *)

Module Seam.

Section WithSqrt.

(** [Math.sqrt]. *)
Variable sqrt : Q -> Q.

Definition isHorizontal (d : SplitDirection) : bool :=
  match d with HORIZONTAL => true | VERTICAL => false end.

Definition limitOf (img : ImageData) (d : SplitDirection) : Z :=
  if isHorizontal d then height img else width img.

Definition crossLimitOf (img : ImageData) (d : SplitDirection) : Z :=
  if isHorizontal d then width img else height img.

(** [isHorizontal ? (i * width + j) * 4 : (j * width + i) * 4] *)
Definition pixelIdx (img : ImageData) (d : SplitDirection) (i j : Z) : Z :=
  if isHorizontal d then (i * width img + j) * 4 else (j * width img + i) * 4.

(** [data[idx]] as a number.  Inside the buffer this is the byte.  Outside
    of it JavaScript gives [undefined], and [NaN] in arithmetic, which the
    rationals do not have: the model gives 0 there.  The detector never
    reads outside of the buffer of a well-formed image (lemma
    [reads_in_range]). *)
Definition byteAt (dat : list Z) (idx : Z) : Q :=
  match rd dat idx with Some b => inject_Z b | None => 0%Q end.

(** *** Method 1: gap detection *)

Definition gray (dat : list Z) (idx : Z) : Q :=
  ((byteAt dat idx + byteAt dat (idx + 1) + byteAt dat (idx + 2)) / 3)%Q.

Definition varianceAcc (img : ImageData) (d : SplitDirection) (i : Z)
    (acc : Q * Q * Q) (j : Z) : Q * Q * Q :=
  let '(sum, sumSq, count) := acc in
  let val := gray (data img) (pixelIdx img d i j) in
  ((sum + val)%Q, (sumSq + val * val)%Q, (count + 1)%Q).

(** The variance of line [i].  With an empty cross axis the code divides 0
    by 0 and has [NaN], which is no gap; the rationals give 0 there.  A
    well-formed image has no empty axis. *)
Definition lineVariance (img : ImageData) (d : SplitDirection) (i : Z) : Q :=
  let '(sum, sumSq, count) :=
    foldl (varianceAcc img d i) (0%Q, 0%Q, 0%Q)
          (stepRange (crossLimitOf img d) 4) in
  let mean := (sum / count)%Q in
  ((sumSq / count) - (mean * mean))%Q.

Definition computeVariances (img : ImageData) (d : SplitDirection) : list Q :=
  lineVariance img d <$> seqZ 0 (limitOf img d).

Definition gapThreshold : Q := 100%Q.

Definition pushGap (gaps : list Z) (gapStart gapEnd : Z) : list Z :=
  if 2 <=? gapEnd - gapStart
  then gaps ++ [(gapStart + gapEnd) / 2]
  else gaps.

(** The scan [for (let i = 0; i < limit; i++)] over [variances], from
    line [i] on, followed by the handling of a gap at the very end. *)
Fixpoint gapLoop (variances : list Q) (i : Z)
    (inGap : bool) (gapStart : Z) (gaps : list Z) : list Z :=
  match variances with
  | [] => if inGap then pushGap gaps gapStart (i - 1) else gaps
  | v :: rest =>
      if Qltb v gapThreshold then
        if inGap then gapLoop rest (i + 1) true gapStart gaps
        else gapLoop rest (i + 1) true i gaps
      else
        if inGap then gapLoop rest (i + 1) false gapStart (pushGap gaps gapStart (i - 1))
        else gapLoop rest (i + 1) false gapStart gaps
  end.

Definition findGaps (variances : list Q) : list Z :=
  gapLoop variances 0 false 0 [].

(** *** Method 2: gradient detection *)

Definition absDiff (dat : list Z) (i1 i2 : Z) : Q :=
  Qabs (byteAt dat i1 - byteAt dat i2).

Definition scoreAcc (img : ImageData) (d : SplitDirection) (i : Z)
    (diffSum : Q) (j : Z) : Q :=
  let idx1 := pixelIdx img d i j in
  let idx2 := pixelIdx img d (i - 1) j in
  let rDiff := absDiff (data img) idx1 idx2 in
  let gDiff := absDiff (data img) (idx1 + 1) (idx2 + 1) in
  let bDiff := absDiff (data img) (idx1 + 2) (idx2 + 2) in
  (diffSum + (rDiff + gDiff + bDiff))%Q.

Definition lineScore (img : ImageData) (d : SplitDirection) (i : Z) : Q :=
  let diffSum := foldl (scoreAcc img d i) 0%Q (stepRange (crossLimitOf img d) 2) in
  (diffSum / (inject_Z (crossLimitOf img d) / 2))%Q.

(** [scores] is zero-initialised and written from line 1 on. *)
Definition computeScores (img : ImageData) (d : SplitDirection) : list Q :=
  (fun i => if i <? 1 then 0%Q else lineScore img d i) <$> seqZ 0 (limitOf img d).

(** [scores[i]] as a number (read inside the array by the smoothing loop). *)
Definition numAt (arr : list Q) (i : Z) : Q :=
  match rd arr i with Some v => v | None => 0%Q end.

Definition windowSum (scores : list Q) (w i : Z) : Q :=
  foldl (fun sum k => (sum + numAt scores (i + k))%Q) 0%Q (seqZ (- w) (2 * w + 1)).

(** [smoothedScores] is a fresh [Float32Array(limit)], written on
    [smoothWindow <= i < limit - smoothWindow]. *)
Definition smooth (w : Z) (scores : list Q) : list Q :=
  let limit := Z.of_nat (length scores) in
  foldl (fun sm i => wr sm i (windowSum scores w i / inject_Z (2 * w + 1))%Q)
        (replicate (length scores) 0%Q)
        (seqZ w (limit - w - w)).

Definition smoothWindow : Z := 2.

Definition qsum (l : list Q) : Q := foldl Qplus 0%Q l.

Definition nonZero (smoothed : list Q) : list Q :=
  List.filter (fun s => Qltb 0 s) smoothed.

Definition threshold (nonZeroScores : list Q) : Q :=
  let n := inject_Z (Z.of_nat (length nonZeroScores)) in
  let mean := (qsum nonZeroScores / n)%Q in
  let variance :=
    (foldl (fun a b => a + (b - mean) ^ 2) 0 nonZeroScores / n)%Q in
  let stdDev := sqrt variance in
  (mean + (7 # 2) * stdDev)%Q.

Definition minDistanceOf (limit : Z) : Q := Qmax 50 (inject_Z limit / 15).

Definition isLocalMax (localCheck : Z) (smoothed : list Q) (limit i : Z) : bool :=
  let start := Z.max 0 (i - localCheck) in
  let stop := Z.min limit (i + localCheck) in
  forallb (fun k => negb (Qltb (numAt smoothed i) (numAt smoothed k)))
          (seqZ start (stop - start)).

Definition findPeaks (smoothed : list Q) (thr : Q) (limit : Z) : list Z :=
  List.filter
    (fun i => Qltb thr (numAt smoothed i) && isLocalMax 10 smoothed limit i)
    (seqZ 1 (limit - 2)).

Record Candidate := mkCandidate { idx : Z; score : Q }.

(** [candidates.sort((a, b) => b.score - a.score)]: descending, stable. *)
Fixpoint insertDesc (c : Candidate) (l : list Candidate) : list Candidate :=
  match l with
  | [] => [c]
  | y :: l' => if Qltb (score c) (score y) then y :: insertDesc c l' else c :: l
  end.

Definition sortDesc (l : list Candidate) : list Candidate := foldr insertDesc [] l.

Definition farFrom (minDistance : Q) (best c : Candidate) : bool :=
  Qleb minDistance (Qabs (inject_Z (idx c - idx best))).

(** [while (candidates.length > 0)], at most [fuel] iterations. *)
Fixpoint selectLoop (fuel : nat) (minDistance : Q)
    (candidates : list Candidate) (selected : list Z) : option (list Z) :=
  match candidates with
  | [] => Some selected
  | best :: _ =>
      match fuel with
      | O => None
      | S fuel' =>
          selectLoop fuel' minDistance
            (List.filter (farFrom minDistance best) candidates)
            (selected ++ [idx best])
      end
  end.

(** The block "Filter edges by distance". *)
Definition filterEdges (smoothed : list Q) (minDistance : Q) (edges : list Z)
    : option (list Z) :=
  let candidates := (fun i => mkCandidate i (numAt smoothed i)) <$> edges in
  sortAsc <$> selectLoop (length candidates) minDistance (sortDesc candidates) [].

Definition detectEdges (smoothed : list Q) (limit : Z) : option (list Z) :=
  let nonZeroScores := nonZero smoothed in
  match nonZeroScores with
  | [] => Some []
  | _ =>
      filterEdges smoothed (minDistanceOf limit)
        (findPeaks smoothed (threshold nonZeroScores) limit)
  end.

(** *** Combining the two channels *)

Definition marginOf (limit : Z) : Q := (inject_Z limit * (2 # 100))%Q.

Definition insideMargin (limit x : Z) : bool :=
  Qltb (marginOf limit) (inject_Z x) &&
  Qltb (inject_Z x) (inject_Z limit - marginOf limit).

Definition isDuplicate (finalSplits : list Z) (edge : Z) : bool :=
  existsb (fun split => Qltb (Qabs (inject_Z (split - edge))) 20) finalSplits.

Definition addEdge (limit : Z) (finalSplits : list Z) (edge : Z) : list Z :=
  if Qleb (inject_Z edge) (marginOf limit)
     || Qleb (inject_Z limit - marginOf limit) (inject_Z edge)
  then finalSplits
  else if isDuplicate finalSplits edge then finalSplits
  else finalSplits ++ [edge].

Definition combine (limit : Z) (gaps edges : list Z) : list Z :=
  let finalSplits := List.filter (insideMargin limit) gaps in
  sortAsc (foldl (addEdge limit) finalSplits edges).

(** [new Float32Array(limit)] throws for a negative length.  It also throws
    for a length beyond what the engine can allocate, which is not modelled:
    the axis of an image that exists is shorter than its buffer. *)
Definition detectAxis (img : ImageData) (d : SplitDirection)
    : Completion (list Z) :=
  let limit := limitOf img d in
  if limit <? 0 then Throw RangeError else
  let gaps := findGaps (computeVariances img d) in
  let smoothedScores := smooth smoothWindow (computeScores img d) in
  match detectEdges smoothedScores limit with
  | Some edges => Return (combine limit gaps edges)
  | None => Unfinished
  end.

End WithSqrt.

End Seam.

(** ** The earlier, gradient-only seam detector *)

Module SeamLegacy.

Section WithSqrt.

Variable sqrt : Q -> Q.

(** The gradient loop is the one of [Seam.computeScores]. *)
Definition computeScores := Seam.computeScores.

(** [smoothedScores = [...scores]], then overwritten on
    [smoothWindow <= i < limit - smoothWindow]. *)
Definition smooth (w : Z) (scores : list Q) : list Q :=
  let limit := Z.of_nat (length scores) in
  foldl (fun sm i => wr sm i (Seam.windowSum scores w i / inject_Z (2 * w + 1))%Q)
        scores
        (seqZ w (limit - w - w)).

Definition smoothWindow : Z := 3.

Definition threshold (nonZeroScores : list Q) : Q :=
  let n := inject_Z (Z.of_nat (length nonZeroScores)) in
  let mean := (Seam.qsum nonZeroScores / n)%Q in
  let variance :=
    (foldl (fun a b => a + (b - mean) ^ 2) 0 nonZeroScores / n)%Q in
  let stdDev := sqrt variance in
  (mean + (5 # 2) * stdDev)%Q.

Definition minDistanceOf (limit : Z) : Q := Qmax 40 (inject_Z limit / 20).

(** One iteration of the peak loop; [candidates] grows at its end. *)
Definition peakStep (smoothed : list Q) (thr minDistance : Q) (limit : Z)
    (candidates : list Z) (i : Z) : list Z :=
  if Qltb thr (Seam.numAt smoothed i) && Seam.isLocalMax 5 smoothed limit i then
    match last candidates with
    | Some lastIdx =>
        if Qltb (inject_Z (i - lastIdx)) minDistance then
          if Qltb (Seam.numAt smoothed lastIdx) (Seam.numAt smoothed i)
          then removelast candidates ++ [i]
          else candidates
        else candidates ++ [i]
    | None => candidates ++ [i]
    end
  else candidates.

(** [new Array(limit)] throws for a negative length. *)
Definition detectAxis (img : ImageData) (d : SplitDirection)
    : Completion (list Z) :=
  let limit := Seam.limitOf img d in
  if limit <? 0 then Throw RangeError else
  let smoothedScores := smooth smoothWindow (computeScores img d) in
  let nonZeroScores := Seam.nonZero smoothedScores in
  match nonZeroScores with
  | [] => Return []
  | _ =>
      Return (foldl (peakStep smoothedScores (threshold nonZeroScores)
                              (minDistanceOf limit) limit)
                    [] (seqZ 1 (limit - 2)))
  end.

End WithSqrt.

End SeamLegacy.

Definition uniformImage (w h : Z) (r g b a : Z) : ImageData :=
  mkImageData w h (concat (replicate (Z.to_nat (w * h)) [r; g; b; a])).

(** ** floodFill of imageProcessing.ts *)

Module Flood.

(** [(y * width + x) * 4] *)
Definition getPixelIndex (width x y : Z) : Z := (y * width + x) * 4.

(** [Math.abs(c - start) <= tolerance]; an [undefined] operand makes the
    difference [NaN] and the comparison false. *)
Definition within (tolerance : Z) (c start : option Z) : bool :=
  match c, start with
  | Some c, Some s => Z.abs (c - s) <=? tolerance
  | _, _ => false
  end.

(** [a === 0] *)
Definition isZero (a : option Z) : bool :=
  match a with Some 0 => true | _ => false end.

Definition colorMatch (data : list Z) (startR startG startB : option Z)
    (tolerance : Z) (idx : Z) : bool :=
  let r := rd data idx in
  let g := rd data (idx + 1) in
  let b := rd data (idx + 2) in
  let a := rd data (idx + 3) in
  if isZero a then false
  else within tolerance r startR && within tolerance g startG
       && within tolerance b startB.

(** The neighbours pushed for [(x, y)], in the order in which they will be
    popped: the stack is a list whose head is the top. *)
Definition neighbours (width height x y : Z) : list (Z * Z) :=
  (if y <? height - 1 then [(x, y + 1)] else []) ++
  (if 0 <? y then [(x, y - 1)] else []) ++
  (if x <? width - 1 then [(x + 1, y)] else []) ++
  (if 0 <? x then [(x - 1, y)] else []).

(** [while (stack.length > 0)], at most [fuel] iterations.  The key
    [`${x},${y}`] of the visited set is the pair [(x, y)]. *)
Fixpoint fillLoop (fuel : nat) (width height : Z)
    (startR startG startB : option Z) (tolerance : Z)
    (data : list Z) (stack : list (Z * Z)) (visited : gset (Z * Z))
    : option (list Z) :=
  match stack with
  | [] => Some data
  | (x, y) :: rest =>
      match fuel with
      | O => None
      | S fuel' =>
          if decide ((x, y) ∈ visited) then
            fillLoop fuel' width height startR startG startB tolerance
                     data rest visited
          else
            let visited' := visited ∪ {[ (x, y) ]} in
            let idx := getPixelIndex width x y in
            if colorMatch data startR startG startB tolerance idx then
              fillLoop fuel' width height startR startG startB tolerance
                       (wr data (idx + 3) 0)
                       (neighbours width height x y ++ rest) visited'
            else
              fillLoop fuel' width height startR startG startB tolerance
                       data rest visited'
      end
  end.

(** The coordinates that the traversal can reach lie in the smallest
    rectangle that holds the canvas and the seed. *)
Definition boxX (width startX : Z) : list Z :=
  seqZ (Z.min 0 startX) (Z.max (width - 1) startX - Z.min 0 startX + 1).

Definition boxY (height startY : Z) : list Z :=
  seqZ (Z.min 0 startY) (Z.max (height - 1) startY - Z.min 0 startY + 1).

Definition box (width height startX startY : Z) : list (Z * Z) :=
  list_prod (boxX width startX) (boxY height startY).

(** Enough iterations for the loop to end (lemma [fillLoop_terminates]). *)
Definition fuelFor (width height startX startY : Z) : nat :=
  (4 * length (box width height startX startY) + 2)%nat.

(** [floodFill(ctx, startX, startY, tolerance)] on a canvas of the given
    size and content; the result is the content of the canvas after the
    call. *)
Definition floodFill (width height : Z) (data : list Z)
    (startX startY tolerance : Z) : option (list Z) :=
  let startIdx := getPixelIndex width startX startY in
  let startR := rd data startIdx in
  let startG := rd data (startIdx + 1) in
  let startB := rd data (startIdx + 2) in
  let startA := rd data (startIdx + 3) in
  if isZero startA then Some data
  else fillLoop (fuelFor width height startX startY) width height
                startR startG startB tolerance data [(startX, startY)] ∅.

End Flood.

(** ** filterLargestComponent of imageProcessing.ts *)

Module Mask.

(** An entry of a [Float32Array]: a (finite) number or [NaN]. *)
Inductive float := Num (q : Q) | NaN.

(** [v > 0], where [v] may be [undefined]. *)
Definition positive (v : option float) : bool :=
  match v with
  | Some (Num q) => Qltb 0 q
  | _ => false
  end.

(** [v === 0] on an entry of [visited]. *)
Definition isUnvisited (v : option Z) : bool :=
  match v with Some 0 => true | _ => false end.

(** The background value [-10.0]. *)
Definition sentinel : float := Num (-10).

(** [y * width + x] *)
Definition getIdx (width x y : Z) : Z := y * width + x.

(** The body of [for (const { nx, ny } of neighbors)]. *)
Definition visitNeighbour (maskData : list float) (width height currentLabel : Z)
    (st : list Z * list Z * list Z) (n : Z * Z) : list Z * list Z * list Z :=
  let '(visited, labels, queue) := st in
  let '(nx, ny) := n in
  if (0 <=? nx) && (nx <? width) && (0 <=? ny) && (ny <? height) then
    let nIdx := getIdx width nx ny in
    if positive (rd maskData nIdx) && isUnvisited (rd visited nIdx) then
      (wr visited nIdx 1, wr labels nIdx currentLabel, queue ++ [nIdx])
    else st
  else st.

(** [cx = currIdx % width], [cy = Math.floor(currIdx / width)] and the
    four neighbours. *)
Definition neighbors (width currIdx : Z) : list (Z * Z) :=
  let cx := Z.rem currIdx width in
  let cy := currIdx / width in
  [(cx - 1, cy); (cx + 1, cy); (cx, cy - 1); (cx, cy + 1)].

(** [while (head < queue.length)], at most [fuel] iterations. *)
Fixpoint bfsLoop (fuel : nat) (maskData : list float)
    (width height currentLabel : Z)
    (visited labels queue : list Z) (head : nat) (count : Z)
    : option (list Z * list Z * Z) :=
  match queue !! head with
  | None => Some (visited, labels, count)
  | Some currIdx =>
      match fuel with
      | O => None
      | S fuel' =>
          let '(visited', labels', queue') :=
            foldl (visitNeighbour maskData width height currentLabel)
                  (visited, labels, queue) (neighbors width currIdx) in
          bfsLoop fuel' maskData width height currentLabel
                  visited' labels' queue' (S head) (count + 1)
      end
  end.

(** [componentSizes] is a [Map] read in insertion order; every key it
    receives is new, so that [set] appends. *)
Record Labelling := mkLabelling {
  visited : list Z;
  labels : list Z;
  currentLabel : Z;
  componentSizes : list (Z * Z)
}.

(** The body of the two nested [for] loops, at pixel [idx]. *)
Definition scanPixel (maskData : list float) (width height : Z)
    (st : Labelling) (idx : Z) : option Labelling :=
  if positive (rd maskData idx) && isUnvisited (rd (visited st) idx) then
    match bfsLoop (Z.to_nat (width * height)) maskData width height (currentLabel st)
                  (wr (visited st) idx 1) (wr (labels st) idx (currentLabel st))
                  [idx] 0 0 with
    | Some (visited', labels', count) =>
        Some (mkLabelling visited' labels' (currentLabel st + 1)
                          (componentSizes st ++ [(currentLabel st, count)]))
    | None => None
    end
  else Some st.

(** [for (let y = 0; y < height; y++) for (let x = 0; x < width; x++)]:
    the values taken by [idx]. *)
Definition raster (width height : Z) : list Z :=
  y ← seqZ 0 height; x ← seqZ 0 width; [getIdx width x y].

Fixpoint scan (maskData : list float) (width height : Z)
    (pixels : list Z) (st : Labelling) : option Labelling :=
  match pixels with
  | [] => Some st
  | idx :: rest =>
      match scanPixel maskData width height st idx with
      | Some st' => scan maskData width height rest st'
      | None => None
      end
  end.

(** [componentSizes.forEach(...)], from [maxLabel = -1], [maxSize = -1]. *)
Definition pickLargest (componentSizes : list (Z * Z)) : Z * Z :=
  foldl (fun '(maxLabel, maxSize) '(label, size) =>
           if maxSize <? size then (label, size) else (maxLabel, maxSize))
        (-1, -1) componentSizes.

(** [newMask[i]]; storing [undefined] in a [Float32Array] gives [NaN]. *)
Definition newMaskAt (maskData : list float) (labels : list Z) (maxLabel i : Z)
    : float :=
  if bool_decide (rd labels i = Some maxLabel)
  then match rd maskData i with Some v => v | None => NaN end
  else sentinel.

(** [new Uint8Array(size)] throws for a negative size.  It also throws for
    a size beyond what the engine can allocate, which is not modelled: the
    properties below take [size] no larger than a mask that exists. *)
Definition filterLargestComponent (maskData : list float) (width height : Z)
    : Completion (list float) :=
  let size := width * height in
  if size <? 0 then Throw RangeError else
  let init := mkLabelling (replicate (Z.to_nat size) 0)
                          (replicate (Z.to_nat size) 0) 1 [] in
  match scan maskData width height (raster width height) init with
  | Some st =>
      let maxLabel := (pickLargest (componentSizes st)).1 in
      Return (newMaskAt maskData (labels st) maxLabel <$> seqZ 0 size)
  | None => Unfinished
  end.

(** The [Float32Array]s that are alive around a call, by reference. *)
Definition Arrays : Type := gmap nat (list float).

(** The call [filterLargestComponent(maskData, width, height)] with its
    arrays: [maskData] is a reference to one of the arrays alive before the
    call and is only read; every write of the function goes to an array that
    it allocates itself ([visited], [labels], [queue], [newMask]), and the
    reference returned is that of [newMask], allocated by
    [new Float32Array(size)]. *)
Definition call (arrays : Arrays) (maskData : nat) (width height : Z)
    : Completion (Arrays * nat) :=
  match filterLargestComponent (default [] (arrays !! maskData)) width height with
  | Return newMask =>
      let ref := fresh (dom arrays) in
      Return (<[ref := newMask]> arrays, ref)
  | Throw e => Throw e
  | Unfinished => Unfinished
  end.

End Mask.

(** ** Specification-side notions *)

(** *** Flood fill *)

(** What [getImageData] guarantees of the canvas content. *)
Definition wellFormedCanvas (width height : Z) (data : list Z) : Prop :=
  0 < width ∧ 0 < height ∧ Z.of_nat (length data) = width * height * 4.

Definition inCanvas (width height : Z) (p : Z * Z) : Prop :=
  0 ≤ p.1 < width ∧ 0 ≤ p.2 < height.

(** 4-connectivity. *)
Definition adjacent (p q : Z * Z) : Prop :=
  Z.abs (p.1 - q.1) + Z.abs (p.2 - q.2) = 1.

(** The match predicate, on the buffer as it was before the call: the pixel
    is not transparent and each of R, G, B is within [tolerance] of the
    seed's. *)
Definition matchesSeed (width : Z) (orig : list Z) (startX startY tolerance : Z)
    (p : Z * Z) : bool :=
  let startIdx := Flood.getPixelIndex width startX startY in
  Flood.colorMatch orig (rd orig startIdx) (rd orig (startIdx + 1))
                   (rd orig (startIdx + 2)) tolerance
                   (Flood.getPixelIndex width p.1 p.2).

(** The pixels joined to the seed by a 4-connected path of matching pixels
    of the canvas. *)
Inductive reachable (width height : Z) (orig : list Z)
    (startX startY tolerance : Z) : Z * Z → Prop :=
| reach_seed :
    inCanvas width height (startX, startY) →
    matchesSeed width orig startX startY tolerance (startX, startY) = true →
    reachable width height orig startX startY tolerance (startX, startY)
| reach_step p q :
    reachable width height orig startX startY tolerance p →
    adjacent p q → inCanvas width height q →
    matchesSeed width orig startX startY tolerance q = true →
    reachable width height orig startX startY tolerance q.

(** The number of coordinates of [bx] not yet in the visited set: with the
    height of the stack, what decreases along the traversal. *)
Definition unvisited (bx : list (Z * Z)) (visited : gset (Z * Z)) : nat :=
  length (List.filter (fun p => bool_decide (p ∉ visited)) bx).

(** [data'] is [orig] with the alpha byte set to 0 on the reachable pixels
    and nothing else changed. *)
Definition erasesReachable (width height : Z) (orig : list Z)
    (startX startY tolerance : Z) (data' : list Z) : Prop :=
  length data' = length orig ∧
  (∀ p, reachable width height orig startX startY tolerance p →
        rd data' (Flood.getPixelIndex width p.1 p.2 + 3) = Some 0) ∧
  (∀ p, inCanvas width height p →
        ¬ reachable width height orig startX startY tolerance p →
        rd data' (Flood.getPixelIndex width p.1 p.2 + 3)
        = rd orig (Flood.getPixelIndex width p.1 p.2 + 3)) ∧
  (∀ i : Z, i mod 4 ≠ 3 → rd data' i = rd orig i).

(** The same description on the buffer alone.  Byte [c] (0 red, 1 green,
    2 blue, 3 alpha) of the pixel [p] of an RGBA buffer whose rows have
    [width] pixels. *)
Definition channel (width : Z) (data : list Z) (p : Z * Z) (c : Z) : option Z :=
  data !! Z.to_nat (4 * (p.2 * width + p.1) + c).

(** In the buffer [orig], the pixel [p] is not transparent and each of its
    R, G and B is within [tolerance], inclusive, of that of the seed. *)
Definition similar (width : Z) (orig : list Z) (seed : Z * Z) (tolerance : Z)
    (p : Z * Z) : Prop :=
  (∃ a, channel width orig p 3 = Some a ∧ a ≠ 0) ∧
  ∀ c, 0 ≤ c < 3 →
       ∃ v s, channel width orig p c = Some v ∧
              channel width orig seed c = Some s ∧
              Z.abs (v - s) ≤ tolerance.

(** The pixels joined to the seed by a 4-connected path of pixels of the
    canvas that are similar to the seed in [orig]. *)
Inductive joined (width height : Z) (orig : list Z) (seed : Z * Z)
    (tolerance : Z) : Z * Z → Prop :=
| joined_seed :
    inCanvas width height seed → similar width orig seed tolerance seed →
    joined width height orig seed tolerance seed
| joined_step p q :
    joined width height orig seed tolerance p →
    adjacent p q → inCanvas width height q →
    similar width orig seed tolerance q →
    joined width height orig seed tolerance q.

(** [data'] is [orig] with the alpha byte set to 0 on the joined pixels and
    no other byte changed. *)
Definition fillsRegion (width height : Z) (orig : list Z) (seed : Z * Z)
    (tolerance : Z) (data' : list Z) : Prop :=
  length data' = length orig ∧
  (∀ p, joined width height orig seed tolerance p →
        channel width data' p 3 = Some 0) ∧
  (∀ p, inCanvas width height p → ¬ joined width height orig seed tolerance p →
        channel width data' p 3 = channel width orig p 3) ∧
  (∀ p c, inCanvas width height p → 0 ≤ c < 3 →
          channel width data' p c = channel width orig p c).

(** What holds of the buffer, the stack and the visited set at each turn of
    the traversal started on the canvas content [orig]. *)
Record fillInv (width height : Z) (orig : list Z) (startX startY tolerance : Z)
    (data : list Z) (stack : list (Z * Z)) (visited : gset (Z * Z)) : Prop := {
  inv_length : length data = length orig;
  inv_rgb : ∀ i : Z, i mod 4 ≠ 3 → rd data i = rd orig i;
  inv_alpha : ∀ p, inCanvas width height p →
    rd data (Flood.getPixelIndex width p.1 p.2 + 3)
    = if bool_decide (p ∈ visited) && matchesSeed width orig startX startY tolerance p
      then Some 0
      else rd orig (Flood.getPixelIndex width p.1 p.2 + 3);
  inv_stack : ∀ p, p ∈ stack → inCanvas width height p;
  inv_visited : ∀ p, p ∈ visited → inCanvas width height p;
  inv_sound : ∀ p, p ∈ stack ∨ p ∈ visited →
    matchesSeed width orig startX startY tolerance p = true →
    reachable width height orig startX startY tolerance p;
  inv_seed : (startX, startY) ∈ stack ∨ (startX, startY) ∈ visited;
  inv_closed : ∀ p q, p ∈ visited →
    matchesSeed width orig startX startY tolerance p = true →
    adjacent p q → inCanvas width height q → q ∈ stack ∨ q ∈ visited
}.

(** *** Largest component *)

(** A mask of [width * height] entries. *)
Definition wellFormedMask (mask : list Mask.float) (width height : Z) : Prop :=
  0 ≤ width ∧ 0 ≤ height ∧ Z.of_nat (length mask) = width * height.

Definition inMask (width height i : Z) : Prop := 0 ≤ i < width * height.

(** Foreground: the entry is a number greater than 0. *)
Definition fg (mask : list Mask.float) (i : Z) : Prop :=
  ∃ q, rd mask i = Some (Mask.Num q) ∧ (0 < q)%Q.

(** Column and row of the pixel of index [i]. *)
Definition coords (width i : Z) : Z * Z := (i mod width, i / width).

Definition adjIdx (width i j : Z) : Prop :=
  adjacent (coords width i) (coords width j).

(** [j] is joined to [i] by a 4-connected path of foreground pixels. *)
Inductive connected (mask : list Mask.float) (width height : Z) (i : Z)
    : Z → Prop :=
| conn_refl :
    inMask width height i → fg mask i → connected mask width height i i
| conn_step j k :
    connected mask width height i j →
    adjIdx width j k → inMask width height k → fg mask k →
    connected mask width height i k.

(** [C] lists, without repetition, a 4-connected component of the
    foreground. *)
Definition component (mask : list Mask.float) (width height : Z) (C : list Z)
    : Prop :=
  NoDup C ∧ C ≠ [] ∧
  ∀ i j, i ∈ C → (j ∈ C ↔ connected mask width height i j).

(** [m] is the pixel of [C] that comes first in raster order. *)
Definition firstOf (C : list Z) (m : Z) : Prop :=
  m ∈ C ∧ ∀ j, j ∈ C → m ≤ j.

(** [C] is a component of maximal size and, among those, the one whose
    first pixel comes first in raster order. *)
Definition largestFirst (mask : list Mask.float) (width height : Z) (C : list Z)
    : Prop :=
  component mask width height C ∧
  ∀ C', component mask width height C' →
    (length C' ≤ length C)%nat ∧
    (length C' = length C →
     ∀ m m', firstOf C m → firstOf C' m' → m ≤ m').

(** [out] keeps the entries of [mask] on [C] and is the negative sentinel
    [-10] elsewhere. *)
Definition keepsOnly (mask out : list Mask.float) (width height : Z) (C : list Z)
    : Prop :=
  ∀ i, inMask width height i →
       rd out i = if decide (i ∈ C) then rd mask i else Some (Mask.Num (-10)).

(** What [filterLargestComponent] returns for [mask]. *)
Definition filterPost (mask : list Mask.float) (width height : Z)
    (out : list Mask.float) : Prop :=
  length out = length mask ∧
  ((∃ i, fg mask i) →
   ∃ C, largestFirst mask width height C ∧ keepsOnly mask out width height C) ∧
  ((∀ i, ¬ fg mask i) →
   ∀ i, inMask width height i → rd out i = Some (Mask.Num (-10))).

(** The arguments that the specification calls malformed. *)
Definition malformedMask (mask : list Mask.float) (width height : Z) : Prop :=
  width ≤ 0 ∨ height ≤ 0 ∨ Z.of_nat (length mask) ≠ width * height.

Definition malformedImage (img : ImageData) : Prop :=
  width img ≤ 0 ∨ height img ≤ 0 ∨
  Z.of_nat (length (data img)) ≠ width img * height img * 4.

(** The number of unvisited entries. *)
Definition zeros (visited : list Z) : nat :=
  length (List.filter (Z.eqb 0) visited).

(** The pixels that carry the label [l]. *)
Definition classOf (labels : list Z) (size l : Z) : list Z :=
  List.filter (fun i => bool_decide (rd labels i = Some l)) (seqZ 0 size).

(** What holds during the breadth-first traversal started at pixel [n] with
    label [L], from the arrays [visited0] and [labels0]: [head] entries of
    the queue have been processed. *)
Record bfsInv (mask : list Mask.float) (width height : Z)
    (visited0 labels0 : list Z) (n L : Z)
    (visited labels queue : list Z) (head : nat) : Prop := {
  bi_len_v : length visited = length visited0;
  bi_len_l : length labels = length labels0;
  bi_nodup : NoDup queue;
  bi_conn : ∀ q, q ∈ queue →
    connected mask width height n q ∧ rd labels0 q = Some 0;
  bi_lab : ∀ j, rd labels j = if decide (j ∈ queue) then Some L else rd labels0 j;
  bi_vis : ∀ j, rd visited j = if decide (j ∈ queue) then Some 1 else rd visited0 j;
  bi_seed : n ∈ queue;
  bi_head : (head ≤ length queue)%nat;
  bi_done : ∀ k q, (k < head)%nat → queue !! k = Some q →
    ∀ j, adjIdx width q j → inMask width height j → fg mask j → j ∈ queue
}.

(** What holds of the labelling once the pixels before [n] have been
    scanned. *)
Record scanInv (mask : list Mask.float) (width height : Z) (n : Z)
    (st : Mask.Labelling) : Prop := {
  si_len_v : length (Mask.visited st) = Z.to_nat (width * height);
  si_len_l : length (Mask.labels st) = Z.to_nat (width * height);
  si_vis : ∀ i, rd (Mask.visited st) i = Some 0 ↔ rd (Mask.labels st) i = Some 0;
  si_cur : Mask.currentLabel st = Z.of_nat (length (Mask.componentSizes st)) + 1;
  si_lab : ∀ i l, rd (Mask.labels st) i = Some l → 0 ≤ l < Mask.currentLabel st;
  si_class : ∀ i j l, l ≠ 0 → rd (Mask.labels st) i = Some l →
    (rd (Mask.labels st) j = Some l ↔ connected mask width height i j);
  si_sizes : ∀ k, (k < length (Mask.componentSizes st))%nat →
    Mask.componentSizes st !! k
    = Some (Z.of_nat k + 1,
            Z.of_nat (length (classOf (Mask.labels st) (width * height)
                                      (Z.of_nat k + 1))));
  si_seed : ∀ l, 1 ≤ l < Mask.currentLabel st →
    ∃ m, rd (Mask.labels st) m = Some l ∧ m < n ∧
         ∀ j l', rd (Mask.labels st) j = Some l' → l ≤ l' → m ≤ j;
  si_done : ∀ i, 0 ≤ i < n → fg mask i → rd (Mask.labels st) i ≠ Some 0
}.

(** *** Seam detection *)

(** The mean of the [2w+1] values of [scores] around index [i]. *)
Definition windowMean (scores : list Q) (w i : Z) : Q :=
  (Seam.qsum (take (Z.to_nat (2 * w + 1)) (drop (Z.to_nat (i - w)) scores))
   / inject_Z (2 * w + 1))%Q.

(** [i] is an interior index of a profile of length [limit]. *)
Definition interior (w limit i : Z) : Prop := w ≤ i ∧ i < limit - w.

(** Two buffers agree on every R, G and B byte (the bytes whose offset is
    not 3 modulo 4). *)
Definition rgbAgree (d1 d2 : list Z) : Prop :=
  ∀ k : nat, Z.of_nat k mod 4 ≠ 3 → d1 !! k = d2 !! k.

(** [x] lies strictly between the border margin, 2% of the axis length
    [limit], and its mirror image. *)
Definition strictlyInside (limit x : Z) : Prop :=
  (inject_Z limit * (2 # 100) < inject_Z x)%Q ∧
  (inject_Z x < inject_Z limit - inject_Z limit * (2 # 100))%Q.

(** The length of the axis that a direction splits: the height for row
    splits, the width for column splits. *)
Definition axisLength (img : ImageData) (d : SplitDirection) : Z :=
  match d with HORIZONTAL => height img | VERTICAL => width img end.

(** Adjacent entries of [l] are at least [minDistance] apart. *)
Definition spaced (minDistance : Q) (l : list Z) : Prop :=
  ∀ (k : nat) (a b : Z),
    l !! k = Some a → l !! S k = Some b → (minDistance <= inject_Z (b - a))%Q.

(** [b] is a candidate of [edges] whose smoothed score no candidate exceeds. *)
Definition strongest (smoothed : list Q) (edges : list Z) (b : Z) : Prop :=
  b ∈ edges ∧
  ∀ e, e ∈ edges → (Seam.numAt smoothed e <= Seam.numAt smoothed b)%Q.

(** Two positions are at least [minDistance] apart. *)
Definition apart (minDistance : Q) (a b : Z) : Prop :=
  (minDistance <= inject_Z (Z.abs (a - b)))%Q.

(** The order of [candidates.sort((a, b) => b.score - a.score)]. *)
Definition notBelow (a b : Seam.Candidate) : Prop :=
  (Seam.score b <= Seam.score a)%Q.

(** The gray level of a pixel of colour [(r, g, b)]. *)
Definition grayOf (r g b : Z) : Q := ((inject_Z r + inject_Z g + inject_Z b) / 3)%Q.

(** ** Sample inputs *)

(** A 3x2 canvas: two pixels of colour 5 next to the seed, one of colour 9,
    and on the second row a transparent pixel, a near match and a match. *)
Definition sampleCanvas : list Z :=
  [5; 5; 5; 255;  5; 5; 5; 255;  9; 9; 9; 255;
   5; 5; 5; 0;    5; 5; 6; 255;  5; 5; 5; 255].

(** A 4x3 mask with three components, of sizes 2, 3 and 1. *)
Definition sampleMask : list Mask.float :=
  [Mask.Num 1;       Mask.Num (1 # 2); Mask.Num 0;       Mask.Num (-3);
   Mask.Num 0;       Mask.Num 0;       Mask.Num 0;       Mask.Num 2;
   Mask.Num (7 # 2); Mask.NaN;         Mask.Num 2;       Mask.Num 2].

(** An 8x40 image: ten black rows, twenty rows that are half black and half
    white, ten black rows. *)
Definition bandedImage : ImageData :=
  mkImageData 8 40
    (concat (replicate 80 [0; 0; 0; 255]) ++
     concat (replicate 20 (concat (replicate 4 [0; 0; 0; 255]) ++
                           concat (replicate 4 [255; 255; 255; 255]))) ++
     concat (replicate 80 [0; 0; 0; 255])).

(** A uniform 1x3 image whose buffer has one pixel too many. *)
Definition paddedImage : ImageData :=
  mkImageData 1 3 [7; 7; 7; 255;  7; 7; 7; 255;  7; 7; 7; 255;  1; 2; 3; 4].

(** A 1x6 image whose second row differs from the first. *)
Definition stripeImage : ImageData :=
  mkImageData 1 6 [0; 0; 0; 255;  9; 9; 9; 255;  9; 9; 9; 255;
                   9; 9; 9; 255;  9; 9; 9; 255;  9; 9; 9; 255].

(* ================================================================== *)
(** * The rest of the engine and its callers *)

(** ** cleanTransparentPixels of imageProcessing.ts *)

Module Clean.

(** The body of [for (let i = 0; i < data.length; i += 4)]. *)
Definition cleanStep (data : list Z) (i : Z) : list Z :=
  if Flood.isZero (rd data (i + 3))
  then wr (wr (wr data i 0) (i + 1) 0) (i + 2) 0
  else data.

(** The pixel loop of [cleanTransparentPixels], on the content of the
    canvas. *)
Definition cleanTransparentPixels (data : list Z) : list Z :=
  foldl cleanStep data (stepRange (Z.of_nat (length data)) 4).

End Clean.

(** ** The editing history: the hook useImageHistory and ImageEditor.tsx *)

Module History.

Record State := mkState {
  history : list String.string;
  currentStep : Z
}.

(** What [onHistoryChange] receives, when it is called. *)
Definition Notice : Type := option (option String.string * Z).

(** [useState([initialSrc])], [useState(0)] *)
Definition init (initialSrc : String.string) : State := mkState [initialSrc] 0.

(** [history[currentStep]] *)
Definition currentSrc (st : State) : option String.string :=
  rd (history st) (currentStep st).

(** [arr.slice(0, stop)]: a negative [stop] counts from the end. *)
Definition slice0 {A} (arr : list A) (stop : Z) : list A :=
  if stop <? 0
  then take (Z.to_nat (Z.of_nat (length arr) + stop)) arr
  else take (Z.to_nat stop) arr.

(** Each callback is run on the state that it was created for. *)
Definition pushToHistory (st : State) (newSrc : String.string) : State * Notice :=
  let newHistory := slice0 (history st) (currentStep st + 1) ++ [newSrc] in
  let newStep := currentStep st + 1 in
  (mkState newHistory newStep, Some (Some newSrc, newStep)).

Definition handleUndo (st : State) : State * Notice :=
  if 0 <? currentStep st then
    let newStep := currentStep st - 1 in
    (mkState (history st) newStep, Some (rd (history st) newStep, newStep))
  else (st, None).

Definition handleRedo (st : State) : State * Notice :=
  if currentStep st <? Z.of_nat (length (history st)) - 1 then
    let newStep := currentStep st + 1 in
    (mkState (history st) newStep, Some (rd (history st) newStep, newStep))
  else (st, None).

Definition resetHistory (newSrc : String.string) : State * Notice :=
  (mkState [newSrc] 0, Some (Some newSrc, 0)).

Definition canUndo (st : State) : bool := 0 <? currentStep st.

Definition canRedo (st : State) : bool :=
  currentStep st <? Z.of_nat (length (history st)) - 1.

(** The history helpers written out in ImageEditor.tsx. *)
Definition editorPush (st : State) (newSrc : String.string) : State :=
  let newHistory := slice0 (history st) (currentStep st + 1) ++ [newSrc] in
  mkState newHistory (Z.of_nat (length newHistory) - 1).

Definition editorUndo (st : State) : State :=
  if 0 <? currentStep st then mkState (history st) (currentStep st - 1) else st.

(** The calls of a session. *)
Inductive Op :=
| Push (newSrc : String.string)
| Undo
| Redo
| Reset (newSrc : String.string).

(** A call made on the state of the render that created the callback,
    followed by a render: what a click does. *)
Definition step (st : State) (op : Op) : State :=
  match op with
  | Push newSrc => (pushToHistory st newSrc).1
  | Undo => (handleUndo st).1
  | Redo => (handleRedo st).1
  | Reset newSrc => (resetHistory newSrc).1
  end.

(** The hook between two renders.  React holds the state [live].  The
    callbacks in use were created by the last render: where their body
    names [currentStep] or [history], it reads them as they were at that
    render ([rendered]), whereas the updater functions given to
    [setHistory] and [setCurrentStep] receive the live state. *)
Record Hook := mkHook {
  live : State;
  rendered : State
}.

Definition mount (initialSrc : String.string) : Hook :=
  mkHook (init initialSrc) (init initialSrc).

(** A render creates the callbacks again, on the live state. *)
Definition render (h : Hook) : Hook := mkHook (live h) (live h).

Definition call (h : Hook) (op : Op) : Hook * Notice :=
  match op with
  | Push newSrc =>
      let newHistory :=
        slice0 (history (live h)) (currentStep (rendered h) + 1) ++ [newSrc] in
      let newStep := currentStep (live h) + 1 in
      (mkHook (mkState newHistory newStep) (rendered h),
       Some (Some newSrc, newStep))
  | Undo =>
      if 0 <? currentStep (rendered h) then
        let newStep := currentStep (rendered h) - 1 in
        (mkHook (mkState (history (live h)) newStep) (rendered h),
         Some (rd (history (rendered h)) newStep, newStep))
      else (h, None)
  | Redo =>
      if currentStep (rendered h) <? Z.of_nat (length (history (rendered h))) - 1
      then
        let newStep := currentStep (rendered h) + 1 in
        (mkHook (mkState (history (live h)) newStep) (rendered h),
         Some (rd (history (rendered h)) newStep, newStep))
      else (h, None)
  | Reset newSrc =>
      (mkHook (mkState [newSrc] 0) (rendered h), Some (Some newSrc, 0))
  end.

(** A session in which React renders after each call, as it does between
    two clicks. *)
Definition session (initialSrc : String.string) (ops : list Op) : Hook :=
  foldl (fun h op => render (call h op).1) (mount initialSrc) ops.

End History.

(** ** Zooming: the hook useZoomPan *)

Module Zoom.

Section WithOptions.

(** The options [minZoom], [maxZoom] and [zoomStep]. *)
Variables minZoom maxZoom zoomStep : Q.

(** [Math.min(maxZoom, z + zoomStep)] *)
Definition zoomIn (z : Q) : Q := Qmin maxZoom (z + zoomStep).

(** [Math.max(minZoom, z - zoomStep)] *)
Definition zoomOut (z : Q) : Q := Qmax minZoom (z - zoomStep).

(** The new zoom of a wheel event with Ctrl or Meta held, [delta = -deltaY]. *)
Definition wheelZoom (deltaY : Q) (currentZoom : Q) : Q :=
  let delta := (- deltaY)%Q in
  Qmax minZoom
       (Qmin maxZoom
             (currentZoom + (if Qltb 0 delta then zoomStep else - zoomStep))).

Inductive Op := ZoomIn | ZoomOut | Wheel (deltaY : Q).

Definition step (z : Q) (op : Op) : Q :=
  match op with
  | ZoomIn => zoomIn z
  | ZoomOut => zoomOut z
  | Wheel deltaY => wheelZoom deltaY z
  end.

End WithOptions.

End Zoom.

(** ** applySamMask of ImageEditor.tsx *)

Module Segment.

(** [v <= 0.0] on an entry of the filtered mask. *)
Definition notForeground (v : option Mask.float) : bool :=
  match v with
  | Some (Mask.Num q) => Qleb q 0
  | _ => false
  end.

(** The body of [for (let i = 0; i < filteredMaskData.length; i++)]. *)
Definition eraseStep (filtered : list Mask.float) (acc : list Z * Z) (i : Z)
    : list Z * Z :=
  let '(data, transparentCount) := acc in
  if notForeground (rd filtered i)
  then (wr data (i * 4 + 3) 0, transparentCount + 1)
  else (data, transparentCount).

(** How [applySamMask] ends: with the buffer that it gives to
    [putImageData] and the count that it logs (the canvas is then encoded by
    [toDataURL] and that image is pushed to the history), or with the return
    on "Mask dimensions mismatch!". *)
Inductive Applied :=
| Written (data : list Z) (transparentCount : Z)
| Mismatch.

(** [applySamMask], from the buffer [data] that [getImageData] returns for
    the canvas on which the image is drawn, and the mask of the model. *)
Definition applySamMask (data : list Z) (maskData : list Mask.float)
    (maskWidth maskHeight : Z) : Completion Applied :=
  match Mask.filterLargestComponent maskData maskWidth maskHeight with
  | Return filtered =>
      if bool_decide (Z.of_nat (length filtered) * 4 = Z.of_nat (length data))
      then
        let '(data', transparentCount) :=
          foldl (eraseStep filtered) (data, 0)
                (seqZ 0 (Z.of_nat (length filtered))) in
        Return (Written data' transparentCount)
      else Return Mismatch
  | Throw e => Throw e
  | Unfinished => Unfinished
  end.

End Segment.

(** ** Notions for the properties of this part *)

(** Line [i] of the variance profile is below the gap threshold, 100. *)
Definition lowAt (variances : list Q) (i : Z) : Prop :=
  ∃ v, rd variances i = Some v ∧ (v < 100)%Q.

(** [s..e] is a maximal run of lines below the gap threshold. *)
Definition maximalLowRun (variances : list Q) (s e : Z) : Prop :=
  s ≤ e ∧ (∀ i, s ≤ i ≤ e → lowAt variances i) ∧
  ¬ lowAt variances (s - 1) ∧ ¬ lowAt variances (e + 1).

(** The state of the gap scan at line [i] agrees with the profile [all]. *)
Definition gapInv (all : list Q) (i : Z) (inGap : bool) (gapStart : Z)
    (gaps : list Z) : Prop :=
  let b := if inGap then gapStart else i in
  0 ≤ b ≤ i ∧
  (inGap = true → gapStart < i ∧ ∀ k, gapStart ≤ k < i → lowAt all k) ∧
  ¬ lowAt all (b - 1) ∧
  ∀ g, g ∈ gaps ↔
       ∃ s e, maximalLowRun all s e ∧ 2 ≤ e - s ∧ g = (s + e) / 2 ∧ e < b.

(** Two splits are both gaps, or at least 20 lines apart. *)
Definition gapsOrApart (gaps : list Z) (a b : Z) : Prop :=
  (a ∈ gaps ∧ b ∈ gaps) ∨ 20 ≤ Z.abs (a - b).

(** What holds of the candidates of the earlier detector before line
    [bound] is examined. *)
Definition legacyPeaks (smoothed : list Q) (thr minDistance : Q)
    (limit bound : Z) (candidates : list Z) : Prop :=
  StronglySorted Z.lt candidates ∧
  Forall (fun c => 1 ≤ c < bound ∧ (thr < Seam.numAt smoothed c)%Q ∧
                   Seam.isLocalMax 5 smoothed limit c = true) candidates ∧
  spaced minDistance candidates.

(** The history state can show an image. *)
Definition historyOk (st : History.State) : Prop :=
  0 ≤ History.currentStep st < Z.of_nat (length (History.history st)).

(** The zoom is between the two bounds. *)
Definition zoomInRange (minZoom maxZoom z : Q) : Prop :=
  (minZoom <= z)%Q ∧ (z <= maxZoom)%Q.

(** Four image sources and a history on which one step can be undone and
    one redone. *)
Module Samples.
Import String.
Definition imgA : string := "a"%string.
Definition imgB : string := "b"%string.
Definition imgC : string := "c"%string.
Definition imgD : string := "d"%string.
End Samples.

Definition sampleHistory : History.State :=
  History.mkState [Samples.imgA; Samples.imgB; Samples.imgC] 1.

(** A 2x2 canvas for the 2x2 mask [[1; 1; 0; 1]] of the examples. *)
Definition smallCanvas : list Z :=
  [10; 20; 30; 255;  40; 50; 60; 255;  70; 80; 90; 200;  1; 2; 3; 0].

(** The 2x2 mask of [smallCanvas]: three foreground entries, of which the
    first two are adjacent. *)
Definition smallMask : list Mask.float :=
  [Mask.Num 1; Mask.Num 1; Mask.Num 0; Mask.Num 1].

(** A 2x2 canvas of one opaque colour. *)
Definition plainCanvas : list Z :=
  [7; 7; 7; 255;  7; 7; 7; 255;  7; 7; 7; 255;  7; 7; 7; 255].

(* ================================================================== *)
(** * Properties *)

(** ** Typed arrays *)

Lemma rd_Some_range {A} (arr : list A) i v :
  rd arr i = Some v → 0 ≤ i < Z.of_nat (length arr).
Proof.
  unfold rd. destruct (Z.ltb_spec i 0) as [Hneg|Hpos]; [done|].
  intros Hl%lookup_lt_Some. lia.
Qed.

Lemma rd_in_range {A} (arr : list A) i :
  0 ≤ i < Z.of_nat (length arr) → is_Some (rd arr i).
Proof.
  intros [H0 H1]. unfold rd. destruct (Z.ltb_spec i 0) as [Hneg|Hpos]; [lia|].
  apply lookup_lt_is_Some. lia.
Qed.

Lemma rd_out_of_range {A} (arr : list A) i :
  ¬ (0 ≤ i < Z.of_nat (length arr)) → rd arr i = None.
Proof.
  intros H. destruct (rd arr i) eqn:E; [|done].
  apply rd_Some_range in E. lia.
Qed.

Lemma length_wr {A} (arr : list A) i v : length (wr arr i v) = length arr.
Proof. unfold wr. destruct (i <? 0); [done|]. apply length_insert. Qed.

Lemma rd_wr {A} (arr : list A) i v k :
  rd (wr arr i v) k = if decide (k = i) then (fun _ => v) <$> rd arr k else rd arr k.
Proof.
  unfold rd, wr. destruct (Z.ltb_spec k 0), (Z.ltb_spec i 0);
    case_decide; subst; try done; try lia.
  - destruct (arr !! Z.to_nat i) eqn:E.
    + rewrite list_lookup_insert_eq; [done|]. by eapply lookup_lt_Some.
    + apply lookup_ge_None in E. rewrite list_insert_ge by lia.
      simpl. by apply lookup_ge_None.
  - apply list_lookup_insert_ne. lia.
Qed.

(** An array filled by a loop of independent writes [arr[i] = f(i)]. *)
Lemma rd_foldl_wr {A} (f : Z → A) (js : list Z) (init : list A) k :
  rd (foldl (fun sm i => wr sm i (f i)) init js) k
  = if decide (k ∈ js) then (fun _ => f k) <$> rd init k else rd init k.
Proof.
  revert init. induction js as [|i js IH]; intros init; simpl.
  - done.
  - rewrite IH, rd_wr.
    destruct (decide (k = i)) as [->|Hne].
    + rewrite (decide_True (P := i ∈ i :: js)) by apply list_elem_of_here.
      case_decide; by destruct (rd init i).
    + case_decide.
      * rewrite decide_True; [done|]. by apply list_elem_of_further.
      * rewrite decide_False; [done|].
        intros [?|?]%elem_of_cons; done.
Qed.

Lemma length_foldl_wr {A} (f : Z → A) (js : list Z) (init : list A) :
  length (foldl (fun sm i => wr sm i (f i)) init js) = length init.
Proof.
  revert init. induction js as [|i js IH]; intros init; simpl; [done|].
  by rewrite IH, length_wr.
Qed.

(** ** Smoothing *)

Lemma windowSum_window (scores : list Q) (w i : Z) :
  0 ≤ w → interior w (Z.of_nat (length scores)) i →
  (Seam.windowSum scores w i / inject_Z (2 * w + 1))%Q = windowMean scores w i.
Proof.
  intros Hw [Hlo Hhi]. unfold windowMean, Seam.windowSum, Seam.qsum. f_equal.
  assert (take (Z.to_nat (2 * w + 1)) (drop (Z.to_nat (i - w)) scores)
          = (fun k => Seam.numAt scores (i + k)) <$> seqZ (- w) (2 * w + 1)) as ->.
  { apply list_eq. intros n. rewrite list_lookup_fmap.
    destruct (decide (Z.of_nat n < 2 * w + 1)) as [Hn|Hn].
    - rewrite lookup_take_lt by lia. rewrite lookup_drop.
      rewrite lookup_seqZ_lt by lia. simpl.
      unfold Seam.numAt, rd. destruct (Z.ltb_spec (i + (- w + Z.of_nat n)) 0); [lia|].
      replace (Z.to_nat (i + (- w + Z.of_nat n))) with (Z.to_nat (i - w) + n)%nat by lia.
      destruct (lookup_lt_is_Some_2 scores (Z.to_nat (i - w) + n)) as [v Hv]; [lia|].
      by rewrite Hv.
    - rewrite lookup_take_ge by lia. by rewrite lookup_seqZ_ge by lia. }
  by rewrite foldl_fmap.
Qed.

Lemma rd_smooth (w : Z) (scores : list Q) (i : Z) :
  0 ≤ i < Z.of_nat (length scores) →
  rd (Seam.smooth w scores) i
  = if decide (interior w (Z.of_nat (length scores)) i)
    then Some (Seam.windowSum scores w i / inject_Z (2 * w + 1))%Q
    else Some 0%Q.
Proof.
  intros Hi. unfold Seam.smooth. rewrite rd_foldl_wr.
  assert (rd (replicate (length scores) 0%Q) i = Some 0%Q) as ->.
  { unfold rd. destruct (Z.ltb_spec i 0); [lia|].
    apply lookup_replicate_2. lia. }
  unfold interior.
  destruct (decide (i ∈ seqZ w (Z.of_nat (length scores) - w - w))) as [Hin|Hin];
    rewrite elem_of_seqZ in Hin; case_decide; try done; lia.
Qed.

Lemma rd_smooth_legacy (w : Z) (scores : list Q) (i : Z) :
  0 ≤ i < Z.of_nat (length scores) →
  rd (SeamLegacy.smooth w scores) i
  = if decide (interior w (Z.of_nat (length scores)) i)
    then Some (Seam.windowSum scores w i / inject_Z (2 * w + 1))%Q
    else rd scores i.
Proof.
  intros Hi. unfold SeamLegacy.smooth. rewrite rd_foldl_wr.
  destruct (rd_in_range scores i Hi) as [v ->].
  unfold interior.
  destruct (decide (i ∈ seqZ w (Z.of_nat (length scores) - w - w))) as [Hin|Hin];
    rewrite elem_of_seqZ in Hin; case_decide; try done; lia.
Qed.

Lemma length_smooth w scores : length (Seam.smooth w scores) = length scores.
Proof. unfold Seam.smooth. by rewrite length_foldl_wr, length_replicate. Qed.

Lemma length_smooth_legacy w scores :
  length (SeamLegacy.smooth w scores) = length scores.
Proof. unfold SeamLegacy.smooth. by rewrite length_foldl_wr. Qed.

(** C8 (as amended).  Both smoothing loops give the mean of the [2w+1]
    surrounding input values on the interior [w <= i < limit - w]; outside
    of it the earlier detector keeps the input value, and the detector of
    localSplitService.ts leaves the zero of the freshly allocated array. *)
Theorem smooth_mean_and_borders (w : Z) (scores : list Q) (i : Z) :
  0 ≤ w →
  0 ≤ i < Z.of_nat (length scores) →
  length (Seam.smooth w scores) = length scores ∧
  length (SeamLegacy.smooth w scores) = length scores ∧
  (interior w (Z.of_nat (length scores)) i →
     rd (Seam.smooth w scores) i = Some (windowMean scores w i) ∧
     rd (SeamLegacy.smooth w scores) i = Some (windowMean scores w i)) ∧
  (¬ interior w (Z.of_nat (length scores)) i →
     rd (Seam.smooth w scores) i = Some 0%Q ∧
     rd (SeamLegacy.smooth w scores) i = rd scores i).
Proof.
  intros Hw Hi. split; [apply length_smooth|]. split; [apply length_smooth_legacy|].
  rewrite rd_smooth, rd_smooth_legacy by done. split; intros Hint.
  - rewrite !decide_True by done. by rewrite windowSum_window.
  - by rewrite !decide_False.
Qed.

Lemma smooth_mean_and_borders_witness :
  rd (Seam.smooth 2 [1; 2; 3; 4; 5; 6]%Q) 2 = Some (windowMean [1; 2; 3; 4; 5; 6]%Q 2 2) ∧
  rd (Seam.smooth 2 [1; 2; 3; 4; 5; 6]%Q) 1 = Some 0%Q ∧
  rd (SeamLegacy.smooth 2 [1; 2; 3; 4; 5; 6]%Q) 1 = Some 2%Q.
Proof.
  destruct (smooth_mean_and_borders 2 [1; 2; 3; 4; 5; 6]%Q 2) as (_ & _ & Hin & _);
    [lia | simpl; lia |].
  destruct (smooth_mean_and_borders 2 [1; 2; 3; 4; 5; 6]%Q 1) as (_ & _ & _ & Hout);
    [lia | simpl; lia |].
  split; [apply Hin; unfold interior; simpl; lia|].
  destruct Hout as [H1 H2]; [unfold interior; simpl; lia|].
  split; [exact H1 | exact H2].
Defined.

(** C8 (as stated) fails: in localSplitService.ts the border line 1 of this
    image has gradient score 54, and its smoothed score is 0. *)
Lemma smooth_border_not_identity :
  rd (Seam.computeScores stripeImage HORIZONTAL) 1 = Some 54%Q ∧
  rd (Seam.smooth Seam.smoothWindow (Seam.computeScores stripeImage HORIZONTAL)) 1
  ≠ rd (Seam.computeScores stripeImage HORIZONTAL) 1.
Proof. split; [reflexivity | vm_compute; discriminate]. Qed.

(** ** The alpha channel is not read *)

Lemma foldl_ext {A B} (f g : A → B → A) (l : list B) (a : A) :
  (∀ a x, f a x = g a x) → foldl f a l = foldl g a l.
Proof.
  intros Hfg. revert a. induction l as [|x l IH]; intros a; simpl; [done|].
  by rewrite Hfg, IH.
Qed.

Lemma byteAt_agree (d1 d2 : list Z) (m c : Z) :
  rgbAgree d1 d2 → 0 ≤ c < 3 →
  Seam.byteAt d1 (m * 4 + c) = Seam.byteAt d2 (m * 4 + c).
Proof.
  intros Hag Hc. unfold Seam.byteAt, rd.
  destruct (Z.ltb_spec (m * 4 + c) 0) as [Hneg|Hpos]; [done|].
  rewrite (Hag (Z.to_nat (m * 4 + c))); [done|].
  rewrite Z2Nat.id by done.
  rewrite Z.add_comm, Z.mod_add by done. rewrite Z.mod_small by lia. lia.
Qed.

Section Agree.

Variables img1 img2 : ImageData.
Hypothesis Hwidth : width img1 = width img2.
Hypothesis Hheight : height img1 = height img2.
Hypothesis Hrgb : rgbAgree (data img1) (data img2).

Lemma pixelIdx_agree d i j :
  Seam.pixelIdx img1 d i j = Seam.pixelIdx img2 d i j.
Proof. unfold Seam.pixelIdx. by rewrite Hwidth. Qed.

Lemma pixelIdx_mul4 img d i j : ∃ m, Seam.pixelIdx img d i j = m * 4.
Proof. unfold Seam.pixelIdx. destruct (Seam.isHorizontal d); eauto. Qed.

Lemma limitOf_agree d : Seam.limitOf img1 d = Seam.limitOf img2 d.
Proof. unfold Seam.limitOf. by rewrite Hwidth, Hheight. Qed.

Lemma crossLimitOf_agree d : Seam.crossLimitOf img1 d = Seam.crossLimitOf img2 d.
Proof. unfold Seam.crossLimitOf. by rewrite Hwidth, Hheight. Qed.

Lemma byteAt_pixel_agree d i j c :
  0 ≤ c < 3 →
  Seam.byteAt (data img1) (Seam.pixelIdx img1 d i j + c)
  = Seam.byteAt (data img2) (Seam.pixelIdx img2 d i j + c).
Proof.
  intros Hc. rewrite <- pixelIdx_agree.
  destruct (pixelIdx_mul4 img1 d i j) as [m ->]. by apply byteAt_agree.
Qed.

Lemma byteAt_pixel_agree0 d i j :
  Seam.byteAt (data img1) (Seam.pixelIdx img1 d i j)
  = Seam.byteAt (data img2) (Seam.pixelIdx img2 d i j).
Proof.
  pose proof (byteAt_pixel_agree d i j 0) as H. rewrite !Z.add_0_r in H.
  apply H. lia.
Qed.

Lemma lineVariance_agree d i :
  Seam.lineVariance img1 d i = Seam.lineVariance img2 d i.
Proof.
  unfold Seam.lineVariance. rewrite crossLimitOf_agree.
  rewrite (foldl_ext (Seam.varianceAcc img1 d i) (Seam.varianceAcc img2 d i)); [done|].
  intros [[sum sumSq] count] j. unfold Seam.varianceAcc, Seam.gray.
  by rewrite byteAt_pixel_agree0, !byteAt_pixel_agree by lia.
Qed.

Lemma lineScore_agree d i :
  Seam.lineScore img1 d i = Seam.lineScore img2 d i.
Proof.
  unfold Seam.lineScore. rewrite crossLimitOf_agree.
  rewrite (foldl_ext (Seam.scoreAcc img1 d i) (Seam.scoreAcc img2 d i)); [done|].
  intros diffSum j. unfold Seam.scoreAcc, Seam.absDiff.
  by rewrite !byteAt_pixel_agree0, !byteAt_pixel_agree by lia.
Qed.

Lemma computeVariances_agree d :
  Seam.computeVariances img1 d = Seam.computeVariances img2 d.
Proof.
  unfold Seam.computeVariances. rewrite limitOf_agree.
  apply list_fmap_ext. intros _ i _. apply lineVariance_agree.
Qed.

Lemma computeScores_agree d :
  Seam.computeScores img1 d = Seam.computeScores img2 d.
Proof.
  unfold Seam.computeScores. rewrite limitOf_agree.
  apply list_fmap_ext. intros _ i _. by rewrite lineScore_agree.
Qed.

End Agree.

(** C9.  Two images of the same width and height that agree on every R, G
    and B byte have the same split list on each axis, whatever their alpha
    bytes are. *)
Theorem detectAxis_ignores_alpha (sqrt : Q → Q) (img1 img2 : ImageData)
    (d : SplitDirection) :
  width img1 = width img2 →
  height img1 = height img2 →
  rgbAgree (data img1) (data img2) →
  Seam.detectAxis sqrt img1 d = Seam.detectAxis sqrt img2 d.
Proof.
  intros Hw Hh Hrgb. unfold Seam.detectAxis.
  rewrite (limitOf_agree img1 img2 Hw Hh).
  rewrite (computeVariances_agree img1 img2 Hw Hh Hrgb).
  by rewrite (computeScores_agree img1 img2 Hw Hh Hrgb).
Qed.

Lemma detectAxis_ignores_alpha_witness :
  Seam.detectAxis (fun x => x) stripeImage HORIZONTAL
  = Seam.detectAxis (fun x => x)
      (mkImageData 1 6 [0; 0; 0; 0;  9; 9; 9; 1;  9; 9; 9; 2;
                        9; 9; 9; 3;  9; 9; 9; 4;  9; 9; 9; 5]) HORIZONTAL.
Proof.
  apply detectAxis_ignores_alpha; [reflexivity | reflexivity |].
  intros k Hk. do 24 (destruct k as [|k]; [first [reflexivity | by vm_compute in Hk] |]).
  reflexivity.
Defined.

(** ** Sorting *)

Lemma insertAsc_perm x l : insertAsc x l ≡ₚ x :: l.
Proof.
  induction l as [|y l IH]; simpl; [done|].
  destruct (x <=? y); [done|]. rewrite IH. apply perm_swap.
Qed.

Lemma sortAsc_perm l : sortAsc l ≡ₚ l.
Proof.
  induction l as [|x l IH]; simpl; [done|].
  unfold sortAsc in *. simpl. by rewrite insertAsc_perm, IH.
Qed.

Lemma insertAsc_sorted x l :
  StronglySorted Z.le l → StronglySorted Z.le (insertAsc x l).
Proof.
  induction 1 as [|y l Hs IH Hy]; simpl.
  - repeat constructor.
  - destruct (Z.leb_spec x y) as [Hxy|Hxy].
    + constructor; [by constructor|]. constructor; [done|].
      eapply Forall_impl; [exact Hy|]. intros z Hz. simpl in Hz. lia.
    + constructor; [done|]. rewrite insertAsc_perm.
      constructor; [lia|done].
Qed.

Lemma sortAsc_sorted l : StronglySorted Z.le (sortAsc l).
Proof.
  induction l as [|x l IH]; [constructor|].
  unfold sortAsc in *. simpl. by apply insertAsc_sorted.
Qed.

Lemma sorted_NoDup_lt l :
  StronglySorted Z.le l → NoDup l → StronglySorted Z.lt l.
Proof.
  induction 1 as [|y l Hs IH Hy]; intros Hnd; [constructor|].
  apply NoDup_cons in Hnd as [Hnotin Hnd].
  constructor; [by apply IH|].
  apply Forall_forall. intros z Hz.
  rewrite Forall_forall in Hy. specialize (Hy z Hz).
  assert (y ≠ z) by (intros ->; done). lia.
Qed.

Lemma sorted_snoc {A} (R : A → A → Prop) l x :
  StronglySorted R l → Forall (fun y => R y x) l → StronglySorted R (l ++ [x]).
Proof.
  induction 1 as [|y l Hs IH Hy]; intros Hall; simpl.
  - repeat constructor.
  - apply Forall_cons in Hall as [Hyx Hall].
    constructor; [by apply IH|].
    apply Forall_app. split; [done|]. by constructor.
Qed.

(** ** Gap detection *)

Lemma pushGap_sorted gaps gapStart gapEnd bound :
  StronglySorted Z.lt gaps →
  Forall (fun g => g < gapStart) gaps →
  gapStart ≤ gapEnd < bound →
  StronglySorted Z.lt (Seam.pushGap gaps gapStart gapEnd) ∧
  Forall (fun g => g < bound) (Seam.pushGap gaps gapStart gapEnd).
Proof.
  intros Hs Hlt Hb. unfold Seam.pushGap.
  destruct (Z.leb_spec 2 (gapEnd - gapStart)) as [Hwide|Hnarrow].
  - assert (gapStart ≤ (gapStart + gapEnd) / 2 ≤ gapEnd) as Hmid.
    { split; [apply Z.div_le_lower_bound | apply Z.div_le_upper_bound]; lia. }
    split.
    + apply sorted_snoc; [done|].
      eapply Forall_impl; [exact Hlt|]. intros g Hg. simpl in Hg. lia.
    + apply Forall_app. split.
      * eapply Forall_impl; [exact Hlt|]. intros g Hg. simpl in Hg. lia.
      * constructor; [lia|constructor].
  - split; [done|].
    eapply Forall_impl; [exact Hlt|]. intros g Hg. simpl in Hg. lia.
Qed.

Lemma gapLoop_sorted (variances : list Q) (i : Z) (inGap : bool)
    (gapStart : Z) (gaps : list Z) :
  StronglySorted Z.lt gaps →
  (if inGap return Prop then gapStart < i ∧ Forall (fun g => g < gapStart) gaps
   else Forall (fun g => g < i) gaps) →
  StronglySorted Z.lt (Seam.gapLoop variances i inGap gapStart gaps).
Proof.
  revert i inGap gapStart gaps.
  induction variances as [|v rest IH]; intros i inGap gapStart gaps Hs Hinv; simpl.
  - destruct inGap; [|done].
    destruct Hinv as [Hlt Hall].
    by apply (pushGap_sorted gaps gapStart (i - 1) i); [| |lia].
  - destruct (Qltb v Seam.gapThreshold), inGap.
    + destruct Hinv as [Hlt Hall]. apply IH; [done|]. split; [lia|done].
    + apply IH; [done|]. split; [lia|done].
    + destruct Hinv as [Hlt Hall].
      destruct (pushGap_sorted gaps gapStart (i - 1) (i + 1)) as [Hs' Hall'];
        [done|done|lia|].
      by apply IH.
    + apply IH; [done|].
      eapply Forall_impl; [exact Hinv|]. intros g Hg. simpl in Hg. lia.
Qed.

Lemma findGaps_sorted variances : StronglySorted Z.lt (Seam.findGaps variances).
Proof. apply gapLoop_sorted; constructor. Qed.

(** ** The greedy spacing filter terminates *)

Lemma Qltb_lt a b : Qltb a b = true ↔ (a < b)%Q.
Proof.
  unfold Qltb. rewrite negb_true_iff.
  destruct (Qle_bool b a) eqn:E.
  - apply Qle_bool_iff in E. split; [done|]. intros H%Qlt_not_le. done.
  - split; [|done]. intros _. apply Qnot_le_lt. intros H%Qle_bool_iff. congruence.
Qed.

Lemma Qltb_ge a b : Qltb a b = false ↔ (b <= a)%Q.
Proof.
  unfold Qltb. rewrite negb_false_iff. apply Qle_bool_iff.
Qed.

Lemma Qleb_le a b : Qleb a b = true ↔ (a <= b)%Q.
Proof. apply Qle_bool_iff. Qed.

Lemma Qleb_gt a b : Qleb a b = false ↔ (b < a)%Q.
Proof.
  unfold Qleb. destruct (Qle_bool a b) eqn:E.
  - apply Qle_bool_iff in E. split; [done|]. intros H%Qlt_not_le. done.
  - split; [|done]. intros _. apply Qnot_le_lt. intros H%Qle_bool_iff. congruence.
Qed.

Lemma farFrom_self minDistance best :
  (0 < minDistance)%Q → Seam.farFrom minDistance best best = false.
Proof.
  intros Hpos. unfold Seam.farFrom. rewrite Z.sub_diag. simpl.
  by apply Qleb_gt.
Qed.

Lemma selectLoop_terminates fuel minDistance candidates selected :
  (0 < minDistance)%Q → (length candidates ≤ fuel)%nat →
  is_Some (Seam.selectLoop fuel minDistance candidates selected).
Proof.
  intros Hpos. revert candidates selected.
  induction fuel as [|fuel IH]; intros [|best rest] selected Hlen; simpl in *;
    try done; try lia.
  apply IH. rewrite farFrom_self by done.
  pose proof (List.filter_length_le (Seam.farFrom minDistance best) rest). lia.
Qed.

Lemma length_insertDesc c l : length (Seam.insertDesc c l) = S (length l).
Proof.
  induction l as [|y l IH]; simpl; [done|].
  destruct (Qltb _ _); simpl; by rewrite ?IH.
Qed.

Lemma length_sortDesc l : length (Seam.sortDesc l) = length l.
Proof.
  induction l as [|c l IH]; [done|].
  unfold Seam.sortDesc in *. simpl. by rewrite length_insertDesc, IH.
Qed.

Lemma filterEdges_terminates smoothed minDistance edges :
  (0 < minDistance)%Q → is_Some (Seam.filterEdges smoothed minDistance edges).
Proof.
  intros Hpos. unfold Seam.filterEdges.
  destruct (selectLoop_terminates
              (length ((fun i => Seam.mkCandidate i (Seam.numAt smoothed i)) <$> edges))
              minDistance
              (Seam.sortDesc ((fun i => Seam.mkCandidate i (Seam.numAt smoothed i)) <$> edges))
              []) as [r Hr]; [done| by rewrite length_sortDesc |].
  rewrite Hr. by eexists.
Qed.

Lemma minDistanceOf_pos limit : (0 < Seam.minDistanceOf limit)%Q.
Proof.
  unfold Seam.minDistanceOf.
  eapply Qlt_le_trans; [|apply Q.le_max_l]. done.
Qed.

Lemma detectEdges_terminates sqrt smoothed limit :
  is_Some (Seam.detectEdges sqrt smoothed limit).
Proof.
  unfold Seam.detectEdges. destruct (Seam.nonZero smoothed); [by eexists|].
  apply filterEdges_terminates, minDistanceOf_pos.
Qed.

(** ** Combining the channels *)

Lemma insideMargin_true limit x :
  Seam.insideMargin limit x = true ↔ strictlyInside limit x.
Proof.
  unfold Seam.insideMargin, strictlyInside, Seam.marginOf.
  by rewrite andb_true_iff, !Qltb_lt.
Qed.

Lemma isDuplicate_false_notin finalSplits edge :
  Seam.isDuplicate finalSplits edge = false → edge ∉ finalSplits.
Proof.
  intros Hdup Hin. unfold Seam.isDuplicate in Hdup.
  assert (existsb (fun split => Qltb (Qabs (inject_Z (split - edge))) 20) finalSplits
          = true) as Htrue; [|congruence].
  apply existsb_exists. exists edge. split; [by apply list_elem_of_In|].
  rewrite Z.sub_diag. by apply Qltb_lt.
Qed.

Lemma addEdge_inv limit finalSplits edge :
  NoDup finalSplits → Forall (strictlyInside limit) finalSplits →
  NoDup (Seam.addEdge limit finalSplits edge) ∧
  Forall (strictlyInside limit) (Seam.addEdge limit finalSplits edge).
Proof.
  intros Hnd Hall. unfold Seam.addEdge.
  destruct (Qleb (inject_Z edge) (Seam.marginOf limit)) eqn:E1; [done|].
  destruct (Qleb (inject_Z limit - Seam.marginOf limit) (inject_Z edge)) eqn:E2; [done|].
  simpl. destruct (Seam.isDuplicate finalSplits edge) eqn:E3; [done|].
  apply Qleb_gt in E1, E2. apply isDuplicate_false_notin in E3. split.
  - apply NoDup_app. split; [done|]. split; [|apply NoDup_singleton].
    intros x Hx ->%list_elem_of_singleton. done.
  - apply Forall_app. split; [done|]. by repeat constructor.
Qed.

Lemma foldl_addEdge_inv limit edges finalSplits :
  NoDup finalSplits → Forall (strictlyInside limit) finalSplits →
  NoDup (foldl (Seam.addEdge limit) finalSplits edges) ∧
  Forall (strictlyInside limit) (foldl (Seam.addEdge limit) finalSplits edges).
Proof.
  revert finalSplits.
  induction edges as [|e edges IH]; intros finalSplits Hnd Hall; simpl; [done|].
  destruct (addEdge_inv limit finalSplits e Hnd Hall). by apply IH.
Qed.

Lemma sorted_lt_NoDup l : StronglySorted Z.lt l → NoDup l.
Proof.
  induction 1 as [|y l Hs IH Hy]; [constructor|].
  constructor; [|done]. intros Hin.
  rewrite Forall_forall in Hy. specialize (Hy y Hin). lia.
Qed.

Lemma filter_NoDup {A} (f : A → bool) l : NoDup l → NoDup (List.filter f l).
Proof.
  induction 1 as [|x l Hx Hnd IH]; simpl; [constructor|].
  destruct (f x); [|done]. constructor; [|done].
  intros Hin%list_elem_of_In%filter_In. apply Hx, list_elem_of_In. tauto.
Qed.

Lemma combine_spec limit gaps edges :
  StronglySorted Z.lt gaps →
  StronglySorted Z.lt (Seam.combine limit gaps edges) ∧
  Forall (strictlyInside limit) (Seam.combine limit gaps edges).
Proof.
  intros Hgaps. unfold Seam.combine.
  destruct (foldl_addEdge_inv limit edges (List.filter (Seam.insideMargin limit) gaps))
    as [Hnd Hall].
  { by apply filter_NoDup, sorted_lt_NoDup. }
  { apply Forall_forall. intros x Hx%list_elem_of_In%filter_In.
    apply insideMargin_true. tauto. }
  split.
  - apply sorted_NoDup_lt; [apply sortAsc_sorted|]. by rewrite sortAsc_perm.
  - by rewrite sortAsc_perm.
Qed.

Lemma strictlyInside_bounds limit x :
  0 ≤ limit → strictlyInside limit x → 0 < x < limit.
Proof.
  intros Hl [Hlo Hhi].
  unfold Qlt, Qminus, Qplus, Qopp, Qmult, inject_Z in *. simpl in *. lia.
Qed.

(** C4.  On a well-formed image, each axis yields a strictly increasing
    split list whose values lie strictly inside [(margin, limit - margin)],
    where [limit] is the length of the axis (the height for row splits, the
    width for column splits) and [margin] is 2% of it, hence strictly
    between 0 and the axis length. *)
Theorem detectAxis_strictly_increasing_inside (sqrt : Q → Q) (img : ImageData)
    (d : SplitDirection) :
  wellFormed img →
  ∃ splits,
    Seam.detectAxis sqrt img d = Return splits ∧
    StronglySorted Z.lt splits ∧
    Forall (fun x => strictlyInside (axisLength img d) x ∧
                     0 < x < axisLength img d) splits.
Proof.
  intros (Hw & Hh & _).
  replace (axisLength img d) with (Seam.limitOf img d) by (by destruct d).
  assert (0 < Seam.limitOf img d) as Hlimit.
  { unfold Seam.limitOf. by destruct (Seam.isHorizontal d). }
  unfold Seam.detectAxis.
  destruct (Z.ltb_spec (Seam.limitOf img d) 0) as [Hneg|_]; [lia|].
  destruct (detectEdges_terminates sqrt
              (Seam.smooth Seam.smoothWindow (Seam.computeScores img d))
              (Seam.limitOf img d)) as [edges ->].
  eexists. split; [done|].
  destruct (combine_spec (Seam.limitOf img d)
              (Seam.findGaps (Seam.computeVariances img d)) edges) as [Hs Hall].
  { apply findGaps_sorted. }
  split; [done|].
  eapply Forall_impl; [exact Hall|]. intros x Hx. simpl. split; [done|].
  apply strictlyInside_bounds; [lia|done].
Qed.

(** ** The greedy strongest-first spacing filter *)

Lemma apart_sym minDistance a b : apart minDistance a b → apart minDistance b a.
Proof. unfold apart. by replace (Z.abs (a - b)) with (Z.abs (b - a)) by lia. Qed.

Lemma farFrom_apart minDistance best c :
  Seam.farFrom minDistance best c = true ↔ apart minDistance (Seam.idx best) (Seam.idx c).
Proof.
  unfold Seam.farFrom. rewrite Qleb_le. split; intros H.
  - apply apart_sym. exact H.
  - apply apart_sym in H. exact H.
Qed.

Lemma FOP_snoc {A} (R : A → A → Prop) l x :
  ForallOrdPairs R l → Forall (fun y => R y x) l → ForallOrdPairs R (l ++ [x]).
Proof.
  induction 1 as [|y l Hy Hl IH]; intros Hall; simpl.
  - repeat constructor.
  - apply Forall_cons in Hall as [Hyx Hall].
    constructor; [|by apply IH].
    apply Forall_app. split; [done|]. by constructor.
Qed.

Lemma FOP_perm {A} (R : A → A → Prop) l l' :
  (∀ a b, R a b → R b a) → l ≡ₚ l' → ForallOrdPairs R l → ForallOrdPairs R l'.
Proof.
  intros Hsym. induction 1 as [|x l l' Hp IH|x y l|l l' l'' Hp1 IH1 Hp2 IH2];
    intros Hfop.
  - done.
  - inversion Hfop as [|? ? Hx Hl]; subst.
    constructor; [by rewrite <- Hp | by apply IH].
  - inversion Hfop as [|? ? Hy Hl]; subst.
    inversion Hl as [|? ? Hx Hl']; subst.
    apply Forall_cons in Hy as [Hyx Hy].
    constructor; [constructor; [by apply Hsym|done]|]. by constructor.
  - by apply IH2, IH1.
Qed.

Lemma sorted_FOP_spaced minDistance l :
  StronglySorted Z.le l → ForallOrdPairs (apart minDistance) l → spaced minDistance l.
Proof.
  induction 1 as [|x l Hs IH Hx]; intros Hfop k a b Ha Hb; [done|].
  inversion Hfop as [|? ? Hax Hl]; subst.
  destruct k as [|k]; simpl in *.
  - injection Ha as <-.
    assert (b ∈ l) as Hin by (by eapply list_elem_of_lookup_2).
    rewrite Forall_forall in Hx, Hax.
    specialize (Hx b Hin). specialize (Hax b Hin).
    unfold apart in Hax. by replace (Z.abs (x - b)) with (b - x) in Hax by lia.
  - by eapply IH.
Qed.

Lemma selectLoop_spec fuel minDistance candidates selected accepted :
  Seam.selectLoop fuel minDistance candidates selected = Some accepted →
  ForallOrdPairs (apart minDistance) selected →
  (∀ c, c ∈ candidates →
        Forall (fun s => apart minDistance s (Seam.idx c)) selected) →
  ForallOrdPairs (apart minDistance) accepted ∧
  (∃ extra, accepted = selected ++ extra ∧
            ∀ x, x ∈ extra → ∃ c, c ∈ candidates ∧ Seam.idx c = x) ∧
  (∀ best rest, candidates = best :: rest → Seam.idx best ∈ accepted).
Proof.
  revert candidates selected.
  induction fuel as [|fuel IH]; intros [|best rest] selected Hrun Hfop Hfar;
    cbn [Seam.selectLoop] in Hrun; try done.
  - injection Hrun as <-. split; [done|]. split; [|done].
    exists []. split; [by rewrite app_nil_r|]. intros x Hx. by apply elem_of_nil in Hx.
  - injection Hrun as <-. split; [done|]. split; [|done].
    exists []. split; [by rewrite app_nil_r|]. intros x Hx. by apply elem_of_nil in Hx.
  - apply IH in Hrun as (Hacc & (extra & -> & Hextra) & _).
    + split; [done|]. split.
      * exists (Seam.idx best :: extra).
        split; [by rewrite <- app_assoc|].
        intros x [->|Hx]%elem_of_cons.
        -- exists best. split; [apply list_elem_of_here|done].
        -- destruct (Hextra x Hx) as (c & Hc & <-). exists c. split; [|done].
           apply list_elem_of_In, filter_In in Hc as [Hc _].
           by apply list_elem_of_In.
      * intros b r [= <- <-]. rewrite <- app_assoc. simpl.
        apply elem_of_app. right. apply list_elem_of_here.
    + apply FOP_snoc; [done|]. apply Hfar, list_elem_of_here.
    + intros c Hc. apply list_elem_of_In, filter_In in Hc as [Hc Hfc].
      apply Forall_app. split; [by apply Hfar, list_elem_of_In|].
      constructor; [|constructor]. by apply farFrom_apart.
Qed.

Lemma insertDesc_perm c l : Seam.insertDesc c l ≡ₚ c :: l.
Proof.
  induction l as [|y l IH]; simpl; [done|].
  destruct (Qltb _ _); [|done]. rewrite IH. apply perm_swap.
Qed.

Lemma sortDesc_perm l : Seam.sortDesc l ≡ₚ l.
Proof.
  induction l as [|c l IH]; [done|].
  unfold Seam.sortDesc in *. simpl. by rewrite insertDesc_perm, IH.
Qed.

Lemma insertDesc_sorted c l :
  StronglySorted notBelow l → StronglySorted notBelow (Seam.insertDesc c l).
Proof.
  induction 1 as [|y l Hs IH Hy]; simpl.
  - repeat constructor.
  - destruct (Qltb (Seam.score c) (Seam.score y)) eqn:E.
    + apply Qltb_lt in E. constructor; [done|]. rewrite insertDesc_perm.
      constructor; [|done]. unfold notBelow. by apply Qlt_le_weak.
    + apply Qltb_ge in E. constructor; [by constructor|].
      constructor; [done|].
      eapply Forall_impl; [exact Hy|]. intros z Hz. unfold notBelow in *.
      by eapply Qle_trans.
Qed.

Lemma sortDesc_sorted l : StronglySorted notBelow (Seam.sortDesc l).
Proof.
  induction l as [|c l IH]; [constructor|].
  unfold Seam.sortDesc in *. simpl. by apply insertDesc_sorted.
Qed.

Lemma sortDesc_head_max l best rest c :
  Seam.sortDesc l = best :: rest → c ∈ l → (Seam.score c <= Seam.score best)%Q.
Proof.
  intros Hsort Hc. pose proof (sortDesc_sorted l) as Hs.
  rewrite <- (sortDesc_perm l), Hsort in Hc. rewrite Hsort in Hs.
  inversion Hs as [|? ? _ Hall]; subst.
  apply elem_of_cons in Hc as [->|Hc]; [apply Qle_refl|].
  rewrite Forall_forall in Hall. by apply Hall.
Qed.

(** C5.  Whatever the smoothed profile and [minDistance], the edge list that
    the strongest-first filter returns is sorted by position, has adjacent
    entries at least [minDistance] apart, consists of candidates, and keeps a
    candidate of globally highest smoothed score (the candidate of highest
    score, when only one attains it).  It does return whenever
    [minDistance] is positive, as [Math.max(50, limit / 15)] is. *)
Theorem filterEdges_spaced_keeps_strongest (smoothed : list Q) (minDistance : Q)
    (edges : list Z) :
  ((0 < minDistance)%Q → is_Some (Seam.filterEdges smoothed minDistance edges)) ∧
  ∀ accepted,
    Seam.filterEdges smoothed minDistance edges = Some accepted →
    StronglySorted Z.le accepted ∧
    spaced minDistance accepted ∧
    (∀ a, a ∈ accepted → a ∈ edges) ∧
    (edges ≠ [] → ∃ b, strongest smoothed edges b ∧ b ∈ accepted) ∧
    (∀ b, b ∈ edges →
          (∀ e, e ∈ edges → e ≠ b →
                (Seam.numAt smoothed e < Seam.numAt smoothed b)%Q) →
          b ∈ accepted).
Proof.
  split; [apply filterEdges_terminates|].
  intros accepted. unfold Seam.filterEdges.
  set (mk := fun i => Seam.mkCandidate i (Seam.numAt smoothed i)).
  destruct (Seam.selectLoop (length (mk <$> edges)) minDistance
              (Seam.sortDesc (mk <$> edges)) []) as [chosen|] eqn:Hrun; [|done].
  simpl. intros [= <-].
  apply selectLoop_spec in Hrun as (Hfop & (extra & Hchosen & Hextra) & Hhead);
    [|constructor|by intros; constructor].
  simpl in Hchosen. subst extra.
  assert (∀ c, c ∈ Seam.sortDesc (mk <$> edges) →
               Seam.idx c ∈ edges ∧ Seam.score c = Seam.numAt smoothed (Seam.idx c))
    as Hcand.
  { intros c Hc. rewrite sortDesc_perm in Hc.
    apply list_elem_of_fmap in Hc as (i & -> & Hi). done. }
  assert (edges ≠ [] → ∃ b, strongest smoothed edges b ∧ b ∈ sortAsc chosen) as Hbest.
  { intros Hne.
    destruct (Seam.sortDesc (mk <$> edges)) as [|best rest] eqn:Hsort.
    { apply (f_equal length) in Hsort.
      rewrite length_sortDesc, length_fmap in Hsort. by destruct edges. }
    exists (Seam.idx best). split; [|rewrite sortAsc_perm; by eapply Hhead].
    destruct (Hcand best) as [Hin Hscore]; [apply list_elem_of_here|].
    split; [done|]. intros e He. rewrite <- Hscore.
    apply (sortDesc_head_max (mk <$> edges) best rest (mk e) Hsort).
    apply list_elem_of_fmap. by exists e. }
  split; [apply sortAsc_sorted|]. split.
  { apply sorted_FOP_spaced; [apply sortAsc_sorted|].
    eapply FOP_perm; [apply apart_sym | symmetry; apply sortAsc_perm | done]. }
  split.
  { intros a Ha. rewrite sortAsc_perm in Ha.
    destruct (Hextra a Ha) as (c & Hc & <-). by apply Hcand. }
  split; [done|].
  intros b Hb Hstrict.
  destruct Hbest as (b' & [Hb' Hmax] & Hacc); [by intros ->; apply elem_of_nil in Hb|].
  destruct (decide (b' = b)) as [->|Hne]; [done|].
  specialize (Hstrict b' Hb' Hne). specialize (Hmax b Hb).
  exfalso. by eapply Qlt_not_le.
Qed.

Lemma filterEdges_spaced_keeps_strongest_witness :
  Seam.filterEdges [0; 3; 9; 4; 0; 8; 0]%Q 2 [1; 2; 3; 5] = Some [2; 5] ∧
  spaced 2 [2; 5] ∧ 2 ∈ [2; 5].
Proof.
  destruct (filterEdges_spaced_keeps_strongest [0; 3; 9; 4; 0; 8; 0]%Q 2 [1; 2; 3; 5])
    as [_ Hspec].
  destruct (Hspec [2; 5]) as (_ & Hspaced & _ & _ & Hmax); [reflexivity|].
  split; [reflexivity|]. split; [exact Hspaced|].
  apply Hmax; [apply list_elem_of_further, list_elem_of_here|].
  intros e He Hne.
  repeat (apply elem_of_cons in He as [->|He]; [first [done | by vm_compute] |]).
  by apply elem_of_nil in He.
Defined.

(** ** Uniform images *)

Lemma lookup_uniform (px : list Z) (n p c : nat) :
  (p < n)%nat → (c < length px)%nat →
  concat (replicate n px) !! (length px * p + c)%nat = px !! c.
Proof.
  revert n. induction p as [|p IH]; intros [|n] Hp Hc; try lia; simpl.
  - rewrite Nat.mul_0_r. simpl. by apply lookup_app_l.
  - replace (length px * S p + c)%nat with (length px + (length px * p + c))%nat by lia.
    rewrite lookup_app_r by lia.
    replace (length px + (length px * p + c) - length px)%nat
      with (length px * p + c)%nat by lia.
    apply IH; lia.
Qed.

Lemma elem_of_stepRange stop step j :
  0 < step → j ∈ stepRange stop step → 0 ≤ j < stop.
Proof.
  intros Hstep. unfold stepRange.
  intros (k & -> & Hk)%list_elem_of_fmap. apply elem_of_seqZ in Hk.
  assert (step * ((stop + step - 1) / step) ≤ stop + step - 1)
    by (apply Z.mul_div_le; lia).
  nia.
Qed.

Lemma inject_Z_of_nat_S n :
  (inject_Z (Z.of_nat (S n)) == inject_Z (Z.of_nat n) + 1)%Q.
Proof. rewrite Nat2Z.inj_succ. unfold Z.succ. by rewrite inject_Z_plus. Qed.

Lemma Qabs_diag (x : Q) : (Qabs (x - x) == 0)%Q.
Proof. unfold Qminus. by rewrite Qplus_opp_r. Qed.

Section Uniform.

Variables w h r g b a : Z.
Hypothesis Hw : 0 < w.
Hypothesis Hh : 0 < h.

Local Abbreviation img := (uniformImage w h r g b a).

Lemma uniform_wellFormed : wellFormed img.
Proof.
  unfold wellFormed, uniformImage. simpl. split; [done|]. split; [done|].
  rewrite length_concat, fmap_replicate. simpl.
  rewrite sum_list_replicate. nia.
Qed.

Lemma uniform_rd (p c : Z) :
  0 ≤ p < w * h → 0 ≤ c < 4 →
  rd (data img) (p * 4 + c) = [r; g; b; a] !! Z.to_nat c.
Proof.
  intros Hp Hc. unfold rd, uniformImage. simpl data.
  destruct (Z.ltb_spec (p * 4 + c) 0) as [Hneg|_]; [lia|].
  replace (Z.to_nat (p * 4 + c))
    with (length [r; g; b; a] * Z.to_nat p + Z.to_nat c)%nat by (simpl; lia).
  apply lookup_uniform; simpl; lia.
Qed.

Lemma uniform_pixel (d : SplitDirection) (i j : Z) :
  0 ≤ i < Seam.limitOf img d → 0 ≤ j < Seam.crossLimitOf img d →
  ∃ p, Seam.pixelIdx img d i j = p * 4 ∧ 0 ≤ p < w * h.
Proof.
  unfold Seam.limitOf, Seam.crossLimitOf, Seam.pixelIdx. simpl.
  destruct (Seam.isHorizontal d); intros Hi Hj; eexists; (split; [done|]); nia.
Qed.

Lemma uniform_byteAt (d : SplitDirection) (i j c : Z) :
  0 ≤ i < Seam.limitOf img d → 0 ≤ j < Seam.crossLimitOf img d → 0 ≤ c < 4 →
  Seam.byteAt (data img) (Seam.pixelIdx img d i j + c)
  = inject_Z (default 0 ([r; g; b; a] !! Z.to_nat c)).
Proof.
  intros Hi Hj Hc. destruct (uniform_pixel d i j Hi Hj) as (p & -> & Hp).
  unfold Seam.byteAt. rewrite uniform_rd by done.
  by destruct (Z.to_nat c) as [|[|[|[|n]]]].
Qed.

Lemma uniform_gray (d : SplitDirection) (i j : Z) :
  0 ≤ i < Seam.limitOf img d → 0 ≤ j < Seam.crossLimitOf img d →
  Seam.gray (data img) (Seam.pixelIdx img d i j) = grayOf r g b.
Proof.
  intros Hi Hj. unfold Seam.gray, grayOf.
  pose proof (uniform_byteAt d i j 0 Hi Hj) as H0. rewrite Z.add_0_r in H0.
  rewrite H0, !uniform_byteAt by lia. done.
Qed.

Lemma uniform_varianceAcc (d : SplitDirection) (i : Z) (js : list Z) (acc : Q * Q * Q) :
  0 ≤ i < Seam.limitOf img d →
  Forall (fun j => 0 ≤ j < Seam.crossLimitOf img d) js →
  let n := inject_Z (Z.of_nat (length js)) in
  let res := foldl (Seam.varianceAcc img d i) acc js in
  (res.1.1 == acc.1.1 + n * grayOf r g b)%Q ∧
  (res.1.2 == acc.1.2 + n * (grayOf r g b * grayOf r g b))%Q ∧
  (res.2 == acc.2 + n)%Q.
Proof.
  intros Hi Hjs. revert acc.
  induction Hjs as [|j js Hj Hjs IH]; intros [[sum sumSq] count]; simpl.
  - repeat split; ring.
  - unfold Seam.varianceAcc at 2. rewrite uniform_gray by done.
    destruct (IH ((sum + grayOf r g b)%Q, (sumSq + grayOf r g b * grayOf r g b)%Q,
                  (count + 1)%Q)) as (H1 & H2 & H3).
    simpl in H1, H2, H3. rewrite H1, H2, H3.
    rewrite (inject_Z_of_nat_S (length js)).
    repeat split; ring.
Qed.

Lemma uniform_lineVariance (d : SplitDirection) (i : Z) :
  0 ≤ i < Seam.limitOf img d → (Seam.lineVariance img d i == 0)%Q.
Proof.
  intros Hi. unfold Seam.lineVariance.
  assert (Forall (fun j => 0 ≤ j < Seam.crossLimitOf img d)
                 (stepRange (Seam.crossLimitOf img d) 4)) as Hjs.
  { apply Forall_forall. intros j Hj. eapply elem_of_stepRange; [|done]. lia. }
  pose proof (uniform_varianceAcc d i (stepRange (Seam.crossLimitOf img d) 4)
                (0%Q, 0%Q, 0%Q) Hi Hjs) as Hacc.
  destruct (foldl _ _ _) as [[sum sumSq] count].
  destruct Hacc as (H1 & H2 & H3).
  simpl in H1, H2, H3. rewrite H1, H2, H3.
  set (n := inject_Z _).
  destruct (Qeq_dec n 0) as [Hn|Hn].
  - rewrite Hn. unfold Qdiv.
    assert (/ (0 + 0) == 0)%Q as -> by reflexivity. ring.
  - field. intros Hz. apply Hn. rewrite <- Hz. ring.
Qed.

Lemma uniform_scoreAcc (d : SplitDirection) (i : Z) (js : list Z) (acc : Q) :
  1 ≤ i < Seam.limitOf img d →
  Forall (fun j => 0 ≤ j < Seam.crossLimitOf img d) js →
  (foldl (Seam.scoreAcc img d i) acc js == acc)%Q.
Proof.
  intros Hi Hjs. revert acc.
  induction Hjs as [|j js Hj Hjs IH]; intros acc; simpl; [done|].
  rewrite IH. unfold Seam.scoreAcc, Seam.absDiff.
  pose proof (uniform_byteAt d i j 0) as H0.
  pose proof (uniform_byteAt d (i - 1) j 0) as H1.
  rewrite Z.add_0_r in H0, H1.
  rewrite H0, H1, !uniform_byteAt by lia.
  rewrite !Qabs_diag. ring.
Qed.

Lemma uniform_lineScore (d : SplitDirection) (i : Z) :
  1 ≤ i < Seam.limitOf img d → (Seam.lineScore img d i == 0)%Q.
Proof.
  intros Hi. unfold Seam.lineScore. rewrite uniform_scoreAcc; [|done|].
  - unfold Qdiv. ring.
  - apply Forall_forall. intros j Hj. eapply elem_of_stepRange; [|done]. lia.
Qed.

End Uniform.

Lemma gapLoop_low_inGap (variances : list Q) (i gapStart : Z) (gaps : list Z) :
  Forall (fun v => Qltb v Seam.gapThreshold = true) variances →
  Seam.gapLoop variances i true gapStart gaps
  = Seam.pushGap gaps gapStart (i + Z.of_nat (length variances) - 1).
Proof.
  intros Hlow. revert i.
  induction Hlow as [|v rest Hv Hrest IH]; intros i; simpl.
  - f_equal. lia.
  - rewrite Hv, IH. f_equal. lia.
Qed.

Lemma findGaps_all_low (variances : list Q) :
  Forall (fun v => Qltb v Seam.gapThreshold = true) variances →
  Seam.findGaps variances
  = Seam.pushGap [] 0 (Z.of_nat (length variances) - 1).
Proof.
  intros Hlow. unfold Seam.findGaps.
  destruct Hlow as [|v rest Hv Hrest]; simpl; [done|].
  rewrite Hv, gapLoop_low_inGap by done. f_equal. lia.
Qed.

Lemma numAt_zero (scores : list Q) (i : Z) :
  Forall (fun s => s == 0)%Q scores → (Seam.numAt scores i == 0)%Q.
Proof.
  intros Hz. unfold Seam.numAt, rd.
  destruct (i <? 0); [done|].
  destruct (scores !! Z.to_nat i) as [v|] eqn:E; [|done].
  rewrite Forall_lookup in Hz. by eapply Hz.
Qed.

Lemma windowSum_zero (scores : list Q) (w i : Z) :
  Forall (fun s => s == 0)%Q scores → (Seam.windowSum scores w i == 0)%Q.
Proof.
  intros Hz. unfold Seam.windowSum.
  generalize (seqZ (- w) (2 * w + 1)). intros ks.
  assert (∀ acc, (acc == 0)%Q →
            (foldl (fun sum k => sum + Seam.numAt scores (i + k)) acc ks == 0)%Q)
    as Hfold; [|by apply Hfold].
  induction ks as [|k ks IH]; intros acc Hacc; simpl; [done|].
  apply IH. rewrite Hacc, numAt_zero by done. done.
Qed.

Lemma rd_of_nat {A} (arr : list A) (k : nat) : rd arr (Z.of_nat k) = arr !! k.
Proof.
  unfold rd. destruct (Z.ltb_spec (Z.of_nat k) 0) as [Hneg|_]; [lia|].
  by rewrite Nat2Z.id.
Qed.

Lemma smooth_zero (w : Z) (scores : list Q) :
  Forall (fun s => s == 0)%Q scores →
  Forall (fun s => s == 0)%Q (Seam.smooth w scores).
Proof.
  intros Hz. apply Forall_lookup. intros k v Hk.
  assert (k < length scores)%nat as Hlen.
  { rewrite <- (length_smooth w). by eapply lookup_lt_Some. }
  rewrite <- rd_of_nat, rd_smooth in Hk by lia.
  case_decide; injection Hk as <-; [|done].
  rewrite windowSum_zero by done. unfold Qdiv. ring.
Qed.

Lemma smooth_legacy_zero (w : Z) (scores : list Q) :
  Forall (fun s => s == 0)%Q scores →
  Forall (fun s => s == 0)%Q (SeamLegacy.smooth w scores).
Proof.
  intros Hz. apply Forall_lookup. intros k v Hk.
  assert (k < length scores)%nat as Hlen.
  { rewrite <- (length_smooth_legacy w). by eapply lookup_lt_Some. }
  rewrite <- rd_of_nat, rd_smooth_legacy in Hk by lia.
  case_decide.
  - injection Hk as <-. rewrite windowSum_zero by done. unfold Qdiv. ring.
  - rewrite rd_of_nat in Hk. rewrite Forall_lookup in Hz. by eapply Hz.
Qed.

Lemma nonZero_zero (smoothed : list Q) :
  Forall (fun s => s == 0)%Q smoothed → Seam.nonZero smoothed = [].
Proof.
  induction 1 as [|s l Hs Hl IH]; simpl; [done|].
  assert (Qltb 0 s = false) as ->; [|done].
  apply Qltb_ge. rewrite Hs. apply Qle_refl.
Qed.

Lemma insideMargin_middle (limit : Z) :
  3 ≤ limit → Seam.insideMargin limit ((limit - 1) / 2) = true.
Proof.
  intros Hl. apply insideMargin_true.
  pose proof (Z.div_mod (limit - 1) 2 ltac:(lia)) as Hdiv.
  pose proof (Z.mod_pos_bound (limit - 1) 2 ltac:(lia)) as Hmod.
  unfold strictlyInside.
  unfold Qlt, Qminus, Qplus, Qopp, Qmult, inject_Z. simpl. lia.
Qed.

Section UniformResult.

Variables w h r g b a : Z.
Hypothesis Hw : 0 < w.
Hypothesis Hh : 0 < h.

Local Abbreviation img := (uniformImage w h r g b a).

Lemma uniform_variances_low (d : SplitDirection) :
  Forall (fun v => Qltb v Seam.gapThreshold = true) (Seam.computeVariances img d).
Proof.
  unfold Seam.computeVariances. apply Forall_fmap, Forall_seqZ.
  intros i Hi. simpl. apply Qltb_lt.
  rewrite (uniform_lineVariance w h r g b a Hw Hh d i) by lia.
  done.
Qed.

Lemma uniform_scores_zero (d : SplitDirection) :
  Forall (fun s => s == 0)%Q (Seam.computeScores img d).
Proof.
  unfold Seam.computeScores. apply Forall_fmap, Forall_seqZ.
  intros i Hi. simpl. destruct (Z.ltb_spec i 1) as [Hlt|Hge]; [done|].
  apply (uniform_lineScore w h r g b a Hw Hh d i). lia.
Qed.

Lemma uniform_limit_pos (d : SplitDirection) : 0 < Seam.limitOf img d.
Proof. unfold Seam.limitOf. simpl. by destruct (Seam.isHorizontal d). Qed.

Lemma uniform_detectAxis (sqrt : Q → Q) (d : SplitDirection) :
  Seam.detectAxis sqrt img d
  = Return (if Seam.limitOf img d <? 3 then []
            else [(Seam.limitOf img d - 1) / 2]).
Proof.
  pose proof (uniform_limit_pos d) as Hlimit.
  unfold Seam.detectAxis, Seam.detectEdges.
  destruct (Z.ltb_spec (Seam.limitOf img d) 0) as [Hneg|_]; [lia|].
  rewrite (nonZero_zero _ (smooth_zero _ _ (uniform_scores_zero d))).
  rewrite (findGaps_all_low _ (uniform_variances_low d)).
  unfold Seam.computeVariances. rewrite length_fmap, length_seqZ.
  rewrite Z2Nat.id by lia. f_equal.
  unfold Seam.combine, Seam.pushGap. simpl foldl.
  destruct (Z.ltb_spec (Seam.limitOf img d) 3) as [Hsmall|Hlarge].
  - destruct (Z.leb_spec 2 (Seam.limitOf img d - 1 - 0)) as [Hge|_]; [lia|done].
  - destruct (Z.leb_spec 2 (Seam.limitOf img d - 1 - 0)) as [_|Hlt]; [|lia].
    simpl. rewrite insideMargin_middle by done. done.
Qed.

Lemma uniform_detectAxis_legacy (sqrt : Q → Q) (d : SplitDirection) :
  SeamLegacy.detectAxis sqrt img d = Return [].
Proof.
  pose proof (uniform_limit_pos d) as Hlimit.
  unfold SeamLegacy.detectAxis.
  destruct (Z.ltb_spec (Seam.limitOf img d) 0) as [Hneg|_]; [lia|].
  by rewrite (nonZero_zero _ (smooth_legacy_zero _ _ (uniform_scores_zero d))).
Qed.

End UniformResult.

(** C2 (as amended).  On a uniform image the gradient channel yields no
    candidate, and the whole axis is one low-variance band: the detector of
    localSplitService.ts returns the middle line of every axis of length 3
    or more, and no split for a shorter axis.  The earlier gradient-only
    detector returns no split at all. *)
Theorem uniform_image_splits (sqrt : Q → Q) (w h r g b a : Z) (d : SplitDirection) :
  0 < w → 0 < h →
  let img := uniformImage w h r g b a in
  Seam.detectAxis sqrt img d
  = Return (if Seam.limitOf img d <? 3 then [] else [(Seam.limitOf img d - 1) / 2]) ∧
  SeamLegacy.detectAxis sqrt img d = Return [].
Proof.
  intros Hw Hh img. split.
  - by apply uniform_detectAxis.
  - by apply uniform_detectAxis_legacy.
Qed.

Lemma uniform_image_splits_witness :
  Seam.detectAxis (fun x => x) (uniformImage 5 2 7 7 7 255) VERTICAL = Return [2] ∧
  Seam.detectAxis (fun x => x) (uniformImage 5 2 7 7 7 255) HORIZONTAL = Return [] ∧
  SeamLegacy.detectAxis (fun x => x) (uniformImage 5 2 7 7 7 255) VERTICAL = Return [].
Proof.
  destruct (uniform_image_splits (fun x => x) 5 2 7 7 7 255 VERTICAL) as [Hv Hl];
    [lia | lia |].
  destruct (uniform_image_splits (fun x => x) 5 2 7 7 7 255 HORIZONTAL) as [Hh _];
    [lia | lia |].
  split; [exact Hv|]. split; [exact Hh | exact Hl].
Defined.

(** C2 (as stated) fails: a uniform 3x3 image is split at line 1 on both
    axes. *)
Lemma uniform_image_is_split :
  Seam.detectAxis (fun x => x) (uniformImage 3 3 7 7 7 255) HORIZONTAL = Return [1] ∧
  Seam.detectAxis (fun x => x) (uniformImage 3 3 7 7 7 255) VERTICAL = Return [1].
Proof. split; reflexivity. Qed.

(** ** Flood fill: the traversal ends *)

Lemma unvisited_mono (bx : list (Z * Z)) (visited : gset (Z * Z)) (p : Z * Z) :
  (unvisited bx (visited ∪ {[p]}) ≤ unvisited bx visited)%nat.
Proof.
  unfold unvisited. induction bx as [|q bx IH]; simpl; [done|].
  destruct (bool_decide_reflect (q ∉ visited ∪ {[p]})) as [Hq|Hq].
  - rewrite bool_decide_eq_true_2 by set_solver. simpl. lia.
  - destruct (bool_decide (q ∉ visited)); simpl; lia.
Qed.

Lemma unvisited_lt (bx : list (Z * Z)) (visited : gset (Z * Z)) (p : Z * Z) :
  p ∈ bx → p ∉ visited →
  (unvisited bx (visited ∪ {[p]}) < unvisited bx visited)%nat.
Proof.
  intros Hin Hnew. induction Hin as [p bx|p q bx Hin IH].
  - pose proof (unvisited_mono bx visited p) as Hmono. unfold unvisited in *. simpl.
    rewrite (bool_decide_eq_false_2 (p ∉ visited ∪ {[p]})) by set_solver.
    rewrite bool_decide_eq_true_2 by done. simpl. lia.
  - specialize (IH Hnew). unfold unvisited in *. simpl.
    destruct (bool_decide_reflect (q ∉ visited ∪ {[p]})) as [Hq|Hq].
    + rewrite bool_decide_eq_true_2 by set_solver. simpl. lia.
    + destruct (bool_decide (q ∉ visited)); simpl; lia.
Qed.

Lemma elem_of_box width height startX startY x y :
  (x, y) ∈ Flood.box width height startX startY ↔
  (Z.min 0 startX ≤ x ≤ Z.max (width - 1) startX) ∧
  (Z.min 0 startY ≤ y ≤ Z.max (height - 1) startY).
Proof.
  unfold Flood.box, Flood.boxX, Flood.boxY.
  rewrite list_elem_of_In, in_prod_iff, <- !list_elem_of_In, !elem_of_seqZ. lia.
Qed.

Lemma elem_of_neighbours width height x y q :
  q ∈ Flood.neighbours width height x y ↔
  (q = (x, y + 1) ∧ y < height - 1) ∨ (q = (x, y - 1) ∧ 0 < y) ∨
  (q = (x + 1, y) ∧ x < width - 1) ∨ (q = (x - 1, y) ∧ 0 < x).
Proof.
  unfold Flood.neighbours. rewrite !elem_of_app.
  destruct (Z.ltb_spec y (height - 1)), (Z.ltb_spec 0 y),
    (Z.ltb_spec x (width - 1)), (Z.ltb_spec 0 x);
    rewrite ?list_elem_of_singleton, ?elem_of_nil; intuition lia.
Qed.

Lemma length_neighbours width height x y :
  (length (Flood.neighbours width height x y) ≤ 4)%nat.
Proof.
  unfold Flood.neighbours. rewrite !length_app.
  destruct (y <? height - 1), (0 <? y), (x <? width - 1), (0 <? x); simpl; lia.
Qed.

Lemma neighbours_in_box width height startX startY x y :
  (x, y) ∈ Flood.box width height startX startY →
  Forall (fun q => q ∈ Flood.box width height startX startY)
         (Flood.neighbours width height x y).
Proof.
  intros Hin%elem_of_box. apply Forall_forall. intros [qx qy] Hq.
  apply elem_of_box.
  apply elem_of_neighbours in Hq as [[[= -> ->] ?]|[[[= -> ->] ?]|[[[= -> ->] ?]|[[= -> ->] ?]]]];
    lia.
Qed.

Lemma fillLoop_terminates fuel width height startX startY sR sG sB tolerance
    data stack visited :
  Forall (fun q => q ∈ Flood.box width height startX startY) stack →
  (4 * unvisited (Flood.box width height startX startY) visited + length stack < fuel)%nat →
  is_Some (Flood.fillLoop fuel width height sR sG sB tolerance data stack visited).
Proof.
  revert data stack visited.
  induction fuel as [|fuel IH]; intros data [|[x y] rest] visited Hbox Hfuel;
    simpl in *; try done; try lia.
  apply Forall_cons in Hbox as [Hxy Hrest].
  destruct (decide ((x, y) ∈ visited)) as [Hvis|Hnew].
  - apply IH; [done|lia].
  - pose proof (unvisited_lt _ visited (x, y) Hxy Hnew) as Hlt.
    destruct (Flood.colorMatch _ _ _ _ _ _).
    + apply IH.
      * apply Forall_app. split; [by eapply neighbours_in_box|done].
      * rewrite length_app. pose proof (length_neighbours width height x y). lia.
    + apply IH; [done|lia].
Qed.

Lemma seed_in_box width height startX startY :
  (startX, startY) ∈ Flood.box width height startX startY.
Proof. apply elem_of_box. lia. Qed.

Lemma floodFill_terminates width height data startX startY tolerance :
  is_Some (Flood.floodFill width height data startX startY tolerance).
Proof.
  unfold Flood.floodFill. destruct (Flood.isZero _); [by eexists|].
  eapply fillLoop_terminates.
  - constructor; [apply seed_in_box|constructor].
  - unfold Flood.fuelFor, unvisited.
    change (length [(startX, startY)]) with 1%nat.
    match goal with
    | |- context [length (List.filter ?f ?l)] =>
        pose proof (List.filter_length_le f l)
    end. lia.
Qed.

(** ** Flood fill: applying it twice *)

Lemma fillLoop_keeps_zero fuel width height sR sG sB tolerance data stack visited data' :
  Flood.fillLoop fuel width height sR sG sB tolerance data stack visited = Some data' →
  ∀ i, rd data i = Some 0 → rd data' i = Some 0.
Proof.
  revert data stack visited.
  induction fuel as [|fuel IH]; intros data [|[x y] rest] visited Hrun i Hi;
    simpl in Hrun; try done; try congruence.
  destruct (decide ((x, y) ∈ visited)); [by eapply IH|].
  destruct (Flood.colorMatch _ _ _ _ _ _); [|by eapply IH].
  eapply IH; [exact Hrun|]. rewrite rd_wr. case_decide; by rewrite Hi.
Qed.

Lemma colorMatch_in_range data sR sG sB tolerance idx :
  Flood.colorMatch data sR sG sB tolerance idx = true →
  0 ≤ idx < Z.of_nat (length data).
Proof.
  unfold Flood.colorMatch. destruct (Flood.isZero _); [done|].
  rewrite !andb_true_iff. intros [[Hr _] _]. unfold Flood.within in Hr.
  destruct (rd data idx) as [r|] eqn:E; [|done]. by eapply rd_Some_range.
Qed.

(** C7.  On the content of a canvas (four bytes a pixel), for every seed,
    inside the canvas or not, and every tolerance, [floodFill] returns, and a
    second call with the same seed and tolerance leaves its result as it
    is. *)
Theorem floodFill_idempotent (width height : Z) (data : list Z)
    (startX startY tolerance : Z) :
  Z.of_nat (length data) = width * height * 4 →
  ∃ data',
    Flood.floodFill width height data startX startY tolerance = Some data' ∧
    Flood.floodFill width height data' startX startY tolerance = Some data'.
Proof.
  intros Hlen.
  destruct (floodFill_terminates width height data startX startY tolerance)
    as [data' Hrun].
  exists data'. split; [done|].
  unfold Flood.floodFill in Hrun |- *.
  destruct (Flood.isZero (rd data (Flood.getPixelIndex width startX startY + 3)))
    eqn:Hzero.
  { injection Hrun as <-. by rewrite Hzero. }
  unfold Flood.fuelFor in Hrun.
  replace (4 * length (Flood.box width height startX startY) + 2)%nat
    with (S (4 * length (Flood.box width height startX startY) + 1)) in Hrun by lia.
  cbn [Flood.fillLoop] in Hrun.
  rewrite decide_False in Hrun by set_solver.
  destruct (Flood.colorMatch data _ _ _ _ _) eqn:Hmatch.
  - pose proof (colorMatch_in_range _ _ _ _ _ _ Hmatch) as Hrange.
    assert (rd data' (Flood.getPixelIndex width startX startY + 3) = Some 0) as ->; [|done].
    eapply fillLoop_keeps_zero; [exact Hrun|].
    rewrite rd_wr, decide_True by done.
    destruct (rd_in_range data (Flood.getPixelIndex width startX startY + 3)) as [v ->];
      [|done].
    unfold Flood.getPixelIndex in *. lia.
  - destruct (4 * length (Flood.box width height startX startY) + 1)%nat;
      simpl in Hrun; injection Hrun as <-.
    + rewrite Hzero.
      replace (Flood.fuelFor width height startX startY)
        with (S (4 * length (Flood.box width height startX startY) + 1))
        by (unfold Flood.fuelFor; lia).
      cbn [Flood.fillLoop]. rewrite decide_False by set_solver.
      rewrite Hmatch. by destruct (4 * _ + 1)%nat.
    + rewrite Hzero.
      replace (Flood.fuelFor width height startX startY)
        with (S (4 * length (Flood.box width height startX startY) + 1))
        by (unfold Flood.fuelFor; lia).
      cbn [Flood.fillLoop]. rewrite decide_False by set_solver.
      rewrite Hmatch. by destruct (4 * _ + 1)%nat.
Qed.

(** ** Flood fill: what is erased *)

Section FloodSpec.

Variables (width height : Z) (orig : list Z) (startX startY tolerance : Z).
Hypothesis Hcanvas : wellFormedCanvas width height orig.
Hypothesis Hseed : inCanvas width height (startX, startY).

Local Abbreviation idxOf := (fun p : Z * Z => Flood.getPixelIndex width p.1 p.2).
Local Abbreviation matches := (matchesSeed width orig startX startY tolerance).
Local Abbreviation reach := (reachable width height orig startX startY tolerance).
Local Abbreviation inv := (fillInv width height orig startX startY tolerance).
Local Abbreviation sR := (rd orig (Flood.getPixelIndex width startX startY)).
Local Abbreviation sG := (rd orig (Flood.getPixelIndex width startX startY + 1)).
Local Abbreviation sB := (rd orig (Flood.getPixelIndex width startX startY + 2)).

Lemma idxOf_range p :
  inCanvas width height p → 0 ≤ idxOf p ∧ idxOf p + 3 < Z.of_nat (length orig).
Proof.
  destruct Hcanvas as (Hw & Hh & Hlen). destruct p as [x y].
  unfold inCanvas, Flood.getPixelIndex. simpl. intros [Hx Hy]. nia.
Qed.

Lemma idxOf_inj p q :
  inCanvas width height p → inCanvas width height q → idxOf p = idxOf q → p = q.
Proof.
  destruct p as [x y], q as [x' y'].
  unfold inCanvas, Flood.getPixelIndex. simpl. intros [Hx Hy] [Hx' Hy'] Heq.
  assert (y = y') as -> by nia. f_equal. lia.
Qed.

Lemma inv_init : inv orig [(startX, startY)] ∅.
Proof.
  split.
  - done.
  - done.
  - intros p Hp. by rewrite bool_decide_eq_false_2 by set_solver.
  - intros p ->%list_elem_of_singleton. done.
  - intros p Hp. set_solver.
  - intros p [->%list_elem_of_singleton|Hp] Hm; [by constructor|set_solver].
  - left. apply list_elem_of_here.
  - intros p q Hp. set_solver.
Qed.

Lemma inv_colorMatch data stack visited p :
  inv data stack visited → inCanvas width height p → p ∉ visited →
  Flood.colorMatch data sR sG sB tolerance (idxOf p) = matches p.
Proof.
  intros Hinv Hp Hnew. unfold matchesSeed, Flood.colorMatch.
  rewrite (inv_alpha _ _ _ _ _ _ _ _ _ Hinv p Hp).
  rewrite bool_decide_eq_false_2 by done. simpl.
  assert (∀ c, 0 ≤ c < 3 → rd data (idxOf p + c) = rd orig (idxOf p + c)) as Hrgb.
  { intros c Hc. apply (inv_rgb _ _ _ _ _ _ _ _ _ Hinv).
    unfold Flood.getPixelIndex. rewrite Z.add_comm, Z.mod_add by done.
    rewrite Z.mod_small; lia. }
  pose proof (Hrgb 0) as H0. rewrite Z.add_0_r in H0.
  by rewrite H0, !Hrgb by lia.
Qed.

Lemma inv_step_visited data p rest visited :
  inv data (p :: rest) visited → p ∈ visited → inv data rest visited.
Proof.
  intros [Hlen Hrgb Halpha Hstack Hvis Hsound Hs Hclosed] Hp.
  split.
  - done.
  - done.
  - done.
  - intros q Hq. apply Hstack. by apply list_elem_of_further.
  - done.
  - intros q [Hq|Hq]; apply Hsound; [left; by apply list_elem_of_further|by right].
  - destruct Hs as [[->|Hs]%elem_of_cons|Hs]; [by right|by left|by right].
  - intros q q' Hq Hm Hadj Hin.
    destruct (Hclosed q q' Hq Hm Hadj Hin) as [[->|Hq']%elem_of_cons|Hq'];
      [by right|by left|by right].
Qed.

Lemma inv_step_nomatch data p rest visited :
  inv data (p :: rest) visited → p ∉ visited → matches p = false →
  inv data rest (visited ∪ {[p]}).
Proof.
  intros [Hlen Hrgb Halpha Hstack Hvis Hsound Hs Hclosed] Hp Hm.
  split.
  - done.
  - done.
  - intros q Hq. rewrite Halpha by done.
    destruct (decide (q = p)) as [->|Hne].
    + rewrite Hm, !andb_false_r. done.
    + by rewrite (bool_decide_ext (q ∈ visited ∪ {[p]}) (q ∈ visited)) by set_solver.
  - intros q Hq. apply Hstack. by apply list_elem_of_further.
  - intros q [Hq| ->%elem_of_singleton]%elem_of_union; [by apply Hvis|].
    apply Hstack, list_elem_of_here.
  - intros q [Hq|[Hq| ->%elem_of_singleton]%elem_of_union] Hmq.
    + apply Hsound; [left; by apply list_elem_of_further|done].
    + apply Hsound; [by right|done].
    + congruence.
  - destruct Hs as [[->|Hs]%elem_of_cons|Hs]; [right|by left|right]; set_solver.
  - intros q q' [Hq| ->%elem_of_singleton]%elem_of_union Hmq Hadj Hin; [|congruence].
    destruct (Hclosed q q' Hq Hmq Hadj Hin) as [[->|Hq']%elem_of_cons|Hq'];
      [right|by left|right]; set_solver.
Qed.

Lemma neighbours_adjacent x y q :
  inCanvas width height (x, y) →
  q ∈ Flood.neighbours width height x y ↔ adjacent (x, y) q ∧ inCanvas width height q.
Proof.
  intros [Hx Hy]. simpl in Hx, Hy. rewrite elem_of_neighbours.
  destruct q as [qx qy]. unfold adjacent, inCanvas. simpl. split.
  - intros [[[= -> ->] ?]|[[[= -> ->] ?]|[[[= -> ->] ?]|[[= -> ->] ?]]]]; lia.
  - intros [Hadj [Hqx Hqy]].
    assert ((qx = x ∧ qy = y + 1) ∨ (qx = x ∧ qy = y - 1) ∨
            (qx = x + 1 ∧ qy = y) ∨ (qx = x - 1 ∧ qy = y))
      as [[-> ->]|[[-> ->]|[[-> ->]|[-> ->]]]] by lia.
    + left. split; [done|lia].
    + right; left. split; [done|lia].
    + right; right; left. split; [done|lia].
    + right; right; right. split; [done|lia].
Qed.

Lemma inv_step_match data p rest visited :
  inv data (p :: rest) visited → p ∉ visited → matches p = true →
  inv (wr data (idxOf p + 3) 0)
      (Flood.neighbours width height p.1 p.2 ++ rest) (visited ∪ {[p]}).
Proof.
  intros [Hlen Hrgb Halpha Hstack Hvis Hsound Hs Hclosed] Hp Hm.
  assert (inCanvas width height p) as Hpin by apply Hstack, list_elem_of_here.
  assert (reach p) as Hreach by (apply Hsound; [left; apply list_elem_of_here|done]).
  split.
  - by rewrite length_wr.
  - intros i Hi. rewrite rd_wr, decide_False; [by apply Hrgb|].
    intros ->. apply Hi. unfold Flood.getPixelIndex.
    rewrite Z.add_comm, Z.mod_add by done. done.
  - intros q Hq. rewrite rd_wr.
    destruct (decide (q = p)) as [->|Hne].
    + rewrite decide_True by done. rewrite Hm, bool_decide_eq_true_2 by set_solver.
      destruct (rd_in_range data (idxOf p + 3)) as [v ->]; [|done].
      rewrite Hlen. pose proof (idxOf_range p Hpin). lia.
    + rewrite decide_False.
      * rewrite Halpha by done.
        by rewrite (bool_decide_ext (q ∈ visited ∪ {[p]}) (q ∈ visited)) by set_solver.
      * intros Heq. apply Hne, idxOf_inj; [done|done|lia].
  - intros q [Hq|Hq]%elem_of_app.
    + destruct p as [x y]. by apply neighbours_adjacent in Hq as [_ Hq].
    + apply Hstack. by apply list_elem_of_further.
  - intros q [Hq| ->%elem_of_singleton]%elem_of_union; [by apply Hvis|done].
  - intros q [[Hq|Hq]%elem_of_app|[Hq| ->%elem_of_singleton]%elem_of_union] Hmq.
    + destruct p as [x y]. apply neighbours_adjacent in Hq as [Hadj Hq]; [|done].
      by eapply reach_step.
    + apply Hsound; [left; by apply list_elem_of_further|done].
    + apply Hsound; [by right|done].
    + done.
  - destruct Hs as [[->|Hs]%elem_of_cons|Hs].
    + right. set_solver.
    + left. apply elem_of_app. by right.
    + right. set_solver.
  - intros q q' [Hq| ->%elem_of_singleton]%elem_of_union Hmq Hadj Hin.
    + destruct (Hclosed q q' Hq Hmq Hadj Hin) as [[->|Hq']%elem_of_cons|Hq'].
      * right. set_solver.
      * left. apply elem_of_app. by right.
      * right. set_solver.
    + left. apply elem_of_app. left. destruct p as [x y].
      by apply neighbours_adjacent.
Qed.

Lemma fillLoop_inv fuel data stack visited data' :
  Flood.fillLoop fuel width height sR sG sB tolerance data stack visited = Some data' →
  inv data stack visited →
  ∃ visited', inv data' [] visited'.
Proof.
  revert data stack visited.
  induction fuel as [|fuel IH]; intros data [|[x y] rest] visited Hrun Hinv;
    simpl in Hrun; try done.
  - injection Hrun as <-. by exists visited.
  - injection Hrun as <-. by exists visited.
  - destruct (decide ((x, y) ∈ visited)) as [Hvis|Hnew].
    { eapply IH; [exact Hrun|]. by eapply inv_step_visited. }
    assert (inCanvas width height (x, y)) as Hin.
    { apply (inv_stack _ _ _ _ _ _ _ _ _ Hinv), list_elem_of_here. }
    pose proof (inv_colorMatch data _ visited (x, y) Hinv Hin Hnew) as Hcm.
    simpl in Hcm. rewrite Hcm in Hrun.
    destruct (matches (x, y)) eqn:Hm.
    + eapply IH; [exact Hrun|].
      by apply (inv_step_match data (x, y) rest visited).
    + eapply IH; [exact Hrun|]. by apply inv_step_nomatch.
Qed.

Lemma inv_final data visited p :
  inv data [] visited → reach p ↔ p ∈ visited ∧ matches p = true.
Proof.
  intros [Hlen Hrgb Halpha Hstack Hvis Hsound Hs Hclosed]. split.
  - induction 1 as [Hin Hm|q q' Hq IH Hadj Hin Hm].
    + destruct Hs as [Hs|Hs]; [by apply elem_of_nil in Hs|done].
    + destruct IH as [Hqv Hqm]. split; [|done].
      destruct (Hclosed q q' Hqv Hqm Hadj Hin) as [Hn|Hn];
        [by apply elem_of_nil in Hn|done].
  - intros [Hp Hm]. apply Hsound; [by right|done].
Qed.

Lemma reach_inCanvas p : reach p → inCanvas width height p.
Proof. by destruct 1. Qed.

Lemma reach_matches p : reach p → matches p = true.
Proof. by destruct 1. Qed.

(** The traversal either does not start (transparent seed, nothing is
    reachable) or ends with the invariant on an empty stack. *)
Lemma floodFill_run :
  ∃ data',
    Flood.floodFill width height orig startX startY tolerance = Some data' ∧
    ((rd orig (idxOf (startX, startY) + 3) = Some 0 ∧ data' = orig ∧
      ∀ p, ¬ reach p) ∨
     (rd orig (idxOf (startX, startY) + 3) ≠ Some 0 ∧
      ∃ visited, inv data' [] visited)).
Proof.
  destruct (floodFill_terminates width height orig startX startY tolerance)
    as [data' Hrun].
  exists data'. split; [done|]. unfold Flood.floodFill in Hrun.
  destruct (Flood.isZero (rd orig (Flood.getPixelIndex width startX startY + 3)))
    eqn:Hzero.
  - left. injection Hrun as <-. split; [|split; [done|]].
    + simpl. by destruct (rd orig _) as [[| |]|].
    + intros p Hp. assert (reach (startX, startY)) as Hs.
      { clear -Hp. induction Hp; [by constructor|done]. }
      apply reach_matches in Hs. unfold matchesSeed, Flood.colorMatch in Hs.
      simpl in Hs. by rewrite Hzero in Hs.
  - right. split.
    + simpl. intros Ha. by rewrite Ha in Hzero.
    + apply fillLoop_inv in Hrun as [visited Hinv]; [|apply inv_init].
      by exists visited.
Qed.

Lemma reach_decidable p : reach p ∨ ¬ reach p.
Proof.
  destruct floodFill_run as (data' & _ & [(_ & _ & Hnone)|(_ & visited & Hinv)]).
  - right. apply Hnone.
  - destruct (decide (p ∈ visited)) as [Hv|Hv], (matches p) eqn:Hm.
    + left. by apply (inv_final data' visited p Hinv).
    + right. intros [_ ?]%(inv_final data' visited p Hinv). congruence.
    + right. by intros [? _]%(inv_final data' visited p Hinv).
    + right. by intros [? _]%(inv_final data' visited p Hinv).
Qed.

Lemma floodFill_spec :
  ∃ data',
    Flood.floodFill width height orig startX startY tolerance = Some data' ∧
    erasesReachable width height orig startX startY tolerance data' ∧
    (rd orig (idxOf (startX, startY) + 3) = Some 0 → data' = orig).
Proof.
  destruct floodFill_run as (data' & Hrun & [(Ha & -> & Hnone)|(Ha & visited & Hinv)]).
  - exists orig. split; [done|]. split; [|done].
    split; [done|]. split; [|split; [done|done]].
    intros p Hp. by apply Hnone in Hp.
  - exists data'. split; [done|]. split; [|done].
    pose proof Hinv as [Hlen Hrgb Halpha _ _ _ _ _].
    split; [done|]. split; [|split; [|done]].
    + intros p Hp. rewrite Halpha by by apply reach_inCanvas.
      apply (inv_final data' visited p Hinv) in Hp as [Hv Hm].
      by rewrite Hm, bool_decide_eq_true_2.
    + intros p Hin Hp. rewrite Halpha by done.
      destruct (bool_decide_reflect (p ∈ visited)) as [Hv|Hv]; [|done].
      destruct (matches p) eqn:Hm; [|done].
      exfalso. apply Hp. by apply (inv_final data' visited p Hinv).
Qed.

(** The description fixes the result. *)
Lemma erasesReachable_unique d1 d2 :
  erasesReachable width height orig startX startY tolerance d1 →
  erasesReachable width height orig startX startY tolerance d2 →
  d1 = d2.
Proof.
  intros (Hl1 & Hr1 & Hn1 & Hc1) (Hl2 & Hr2 & Hn2 & Hc2).
  destruct Hcanvas as (Hw & Hh & Hlen).
  apply list_eq. intros k.
  destruct (decide (k < length orig)%nat) as [Hk|Hk].
  2:{ rewrite !lookup_ge_None_2; [done|lia|lia]. }
  rewrite <- !rd_of_nat. set (i := Z.of_nat k).
  destruct (decide (i mod 4 = 3)) as [Hmod|Hmod].
  2:{ by rewrite Hc1, Hc2. }
  set (m := i / 4).
  assert (i = m * 4 + 3) as Hi.
  { pose proof (Z.div_mod i 4 ltac:(lia)). unfold m. lia. }
  assert (0 ≤ m < width * height) as Hm by (unfold i in *; lia).
  set (q := (m mod width, m / width)).
  assert (inCanvas width height q) as Hq.
  { unfold inCanvas, q. simpl.
    pose proof (Z.mod_pos_bound m width Hw).
    split; [done|]. split; [apply Z.div_pos; lia|].
    apply Z.div_lt_upper_bound; lia. }
  assert (i = idxOf q + 3) as Hidx.
  { unfold q, Flood.getPixelIndex. simpl.
    pose proof (Z.div_mod m width ltac:(lia)). lia. }
  rewrite Hidx.
  destruct (reach_decidable q) as [Hreach|Hnot].
  - by rewrite Hr1, Hr2.
  - by rewrite Hn1, Hn2.
Qed.

End FloodSpec.

(** ** Flood fill: the description on the buffer alone *)

Lemma getPixelIndex_mod width x y c :
  0 ≤ c < 4 → (Flood.getPixelIndex width x y + c) mod 4 = c.
Proof.
  intros Hc. unfold Flood.getPixelIndex.
  rewrite Z.add_comm, Z.mod_add by lia. by apply Z.mod_small.
Qed.

Section FloodDescription.

Variables (width height : Z) (orig : list Z) (startX startY tolerance : Z).
Hypothesis Hcanvas : wellFormedCanvas width height orig.
Hypothesis Hseed : inCanvas width height (startX, startY).

Lemma pixel_index_range p c :
  inCanvas width height p → 0 ≤ c < 4 →
  0 ≤ 4 * (p.2 * width + p.1) + c < width * height * 4.
Proof.
  destruct Hcanvas as (Hw & Hh & _). intros [Hx Hy] Hc. nia.
Qed.

Lemma channel_rd data p c :
  inCanvas width height p → 0 ≤ c < 4 →
  channel width data p c = rd data (Flood.getPixelIndex width p.1 p.2 + c).
Proof.
  intros Hp Hc. pose proof (pixel_index_range p c Hp Hc) as Hr.
  unfold channel, rd, Flood.getPixelIndex.
  replace ((p.2 * width + p.1) * 4 + c) with (4 * (p.2 * width + p.1) + c) by lia.
  by destruct (Z.ltb_spec (4 * (p.2 * width + p.1) + c) 0) as [?|_]; [lia|].
Qed.

Lemma channel_Some p c :
  inCanvas width height p → 0 ≤ c < 4 → is_Some (channel width orig p c).
Proof.
  intros Hp Hc. rewrite channel_rd by done. apply rd_in_range.
  pose proof (pixel_index_range p c Hp Hc) as Hr.
  destruct Hcanvas as (_ & _ & Hlen). unfold Flood.getPixelIndex. lia.
Qed.

(** The comparison of the code is the one of the description. *)
Lemma matchesSeed_similar p :
  inCanvas width height p →
  matchesSeed width orig startX startY tolerance p = true
  ↔ similar width orig (startX, startY) tolerance p.
Proof.
  intros Hp. unfold matchesSeed, Flood.colorMatch, similar.
  pose proof (channel_rd orig p 0 Hp ltac:(lia)) as Hr.
  pose proof (channel_rd orig p 1 Hp ltac:(lia)) as Hg.
  pose proof (channel_rd orig p 2 Hp ltac:(lia)) as Hb.
  pose proof (channel_rd orig p 3 Hp ltac:(lia)) as Ha.
  pose proof (channel_rd orig (startX, startY) 0 Hseed ltac:(lia)) as Hsr.
  pose proof (channel_rd orig (startX, startY) 1 Hseed ltac:(lia)) as Hsg.
  pose proof (channel_rd orig (startX, startY) 2 Hseed ltac:(lia)) as Hsb.
  simpl in Hsr, Hsg, Hsb. rewrite Z.add_0_r in Hr, Hsr.
  rewrite <- Hr, <- Hg, <- Hb, <- Ha, <- Hsr, <- Hsg, <- Hsb.
  destruct (channel_Some p 0 Hp ltac:(lia)) as [r Er].
  destruct (channel_Some p 1 Hp ltac:(lia)) as [g Eg].
  destruct (channel_Some p 2 Hp ltac:(lia)) as [b Eb].
  destruct (channel_Some p 3 Hp ltac:(lia)) as [a Ea].
  destruct (channel_Some (startX, startY) 0 Hseed ltac:(lia)) as [sr Esr].
  destruct (channel_Some (startX, startY) 1 Hseed ltac:(lia)) as [sg Esg].
  destruct (channel_Some (startX, startY) 2 Hseed ltac:(lia)) as [sb Esb].
  rewrite Er, Eg, Eb, Ea, Esr, Esg, Esb. unfold Flood.within. split.
  - intros Hm. destruct (decide (a = 0)) as [->|Hnz]; [done|].
    assert (Flood.isZero (Some a) = false) as Hz by (by destruct a).
    rewrite Hz in Hm. rewrite !andb_true_iff, !Z.leb_le in Hm.
    destruct Hm as [[Hmr Hmg] Hmb].
    split; [by exists a|]. intros c Hc.
    assert (c = 0 ∨ c = 1 ∨ c = 2) as [->|[->| ->]] by lia.
    + exists r, sr. by rewrite Er, Esr.
    + exists g, sg. by rewrite Eg, Esg.
    + exists b, sb. by rewrite Eb, Esb.
  - intros [(a' & [= <-] & Hnz) Hall].
    assert (Flood.isZero (Some a) = false) as Hz by (by destruct a).
    rewrite Hz, !andb_true_iff, !Z.leb_le.
    destruct (Hall 0 ltac:(lia)) as (v0 & s0 & E0 & F0 & H0).
    destruct (Hall 1 ltac:(lia)) as (v1 & s1 & E1 & F1 & H1).
    destruct (Hall 2 ltac:(lia)) as (v2 & s2 & E2 & F2 & H2).
    rewrite Er in E0. rewrite Esr in F0. rewrite Eg in E1. rewrite Esg in F1.
    rewrite Eb in E2. rewrite Esb in F2.
    injection E0 as <-. injection F0 as <-. injection E1 as <-.
    injection F1 as <-. injection E2 as <-. injection F2 as <-. done.
Qed.

Lemma reachable_joined p :
  reachable width height orig startX startY tolerance p
  ↔ joined width height orig (startX, startY) tolerance p.
Proof.
  split.
  - induction 1 as [Hin Hm|q q' Hq IH Hadj Hin Hm].
    + apply joined_seed; [done|]. by apply matchesSeed_similar.
    + eapply joined_step; [exact IH|done|done|]. by apply matchesSeed_similar.
  - induction 1 as [Hin Hm|q q' Hq IH Hadj Hin Hm].
    + apply reach_seed; [done|]. by apply matchesSeed_similar.
    + eapply reach_step; [exact IH|done|done|]. by apply matchesSeed_similar.
Qed.

Lemma erasesReachable_fillsRegion data' :
  erasesReachable width height orig startX startY tolerance data'
  ↔ fillsRegion width height orig (startX, startY) tolerance data'.
Proof.
  split.
  - intros (Hlen & Hreach & Hrest & Hrgb). split; [done|]. split; [|split].
    + intros p Hp. apply reachable_joined in Hp.
      rewrite channel_rd; [by apply Hreach| |lia].
      by eapply reach_inCanvas.
    + intros p Hin Hp. rewrite !channel_rd by (done || lia).
      apply Hrest; [done|]. by rewrite reachable_joined.
    + intros p c Hin Hc. rewrite !channel_rd by (done || lia).
      apply Hrgb. rewrite getPixelIndex_mod by lia. lia.
  - intros (Hlen & Hjoin & Hrest & Hrgb). split; [done|]. split; [|split].
    + intros p Hp. pose proof (reach_inCanvas _ _ _ _ _ _ _ Hp) as Hin.
      rewrite <- channel_rd by (done || lia). by apply Hjoin, reachable_joined.
    + intros p Hin Hp. rewrite <- !channel_rd by (done || lia).
      apply Hrest; [done|]. by rewrite <- reachable_joined.
    + intros i Hmod. destruct Hcanvas as (Hw & Hh & Hl).
      destruct (decide (0 ≤ i < Z.of_nat (length orig))) as [Hi|Hi].
      2:{ rewrite !rd_out_of_range; [done|lia|lia]. }
      pose proof (Z.div_mod i 4 ltac:(lia)) as Hdiv.
      pose proof (Z.mod_pos_bound i 4 ltac:(lia)) as Hbound.
      set (m := i / 4) in *. set (c := i mod 4) in *.
      assert (0 ≤ m < width * height) as Hm by lia.
      set (q := (m mod width, m / width)).
      assert (inCanvas width height q) as Hq.
      { unfold inCanvas, q. simpl.
        pose proof (Z.mod_pos_bound m width Hw).
        split; [done|]. split; [apply Z.div_pos; lia|].
        apply Z.div_lt_upper_bound; lia. }
      assert (i = Flood.getPixelIndex width q.1 q.2 + c) as Hidx.
      { unfold q, Flood.getPixelIndex. simpl.
        pose proof (Z.div_mod m width ltac:(lia)). lia. }
      rewrite Hidx, <- !channel_rd by (done || lia).
      apply Hrgb; [done|lia].
Qed.

End FloodDescription.

(** C1.  On the content of a canvas and a seed inside it, [floodFill]
    returns a buffer of the same length in which the alpha byte is 0 at
    every pixel joined to the seed by a 4-connected path of pixels that, in
    the buffer as it was before the call, are not transparent and have each
    of R, G and B within the tolerance, inclusive, of that of the seed, while
    the alpha byte of every other pixel and every R, G and B byte are as
    before; nothing changes when the seed is transparent.  No other buffer
    fits this description: the result is fixed by the buffer, the seed and
    the tolerance, whatever the order of the traversal. *)
Theorem floodFill_erases_reachable (width height : Z) (data : list Z)
    (startX startY tolerance : Z) :
  wellFormedCanvas width height data →
  inCanvas width height (startX, startY) →
  ∃ data',
    Flood.floodFill width height data startX startY tolerance = Some data' ∧
    length data' = length data ∧
    (∀ p, joined width height data (startX, startY) tolerance p →
          channel width data' p 3 = Some 0) ∧
    (∀ p, inCanvas width height p →
          ¬ joined width height data (startX, startY) tolerance p →
          channel width data' p 3 = channel width data p 3) ∧
    (∀ p c, inCanvas width height p → 0 ≤ c < 3 →
            channel width data' p c = channel width data p c) ∧
    (channel width data (startX, startY) 3 = Some 0 → data' = data) ∧
    (∀ other,
       fillsRegion width height data (startX, startY) tolerance other →
       other = data').
Proof.
  intros Hcanvas Hseed.
  destruct (floodFill_spec width height data startX startY tolerance Hcanvas Hseed)
    as (data' & Hrun & Herases & Hzero).
  exists data'. split; [done|].
  pose proof (proj1 (erasesReachable_fillsRegion width height data startX startY
                       tolerance Hcanvas Hseed data') Herases)
    as (Hlen & Hjoin & Hrest & Hrgb).
  repeat (split; [done|]). split.
  - intros Ha. apply Hzero.
    by rewrite <- (channel_rd width height data Hcanvas data (startX, startY) 3).
  - intros other Hother.
    apply (erasesReachable_unique width height data startX startY tolerance
             Hcanvas Hseed); [|done].
    by apply erasesReachable_fillsRegion.
Qed.

Lemma floodFill_erases_reachable_witness :
  ∃ data',
    Flood.floodFill 3 2 sampleCanvas 0 0 0 = Some data' ∧
    channel 3 data' (1, 0) 3 = Some 0.
Proof.
  destruct (floodFill_erases_reachable 3 2 sampleCanvas 0 0 0)
    as (data' & Hrun & _ & Hjoin & _).
  - unfold wellFormedCanvas. simpl. lia.
  - unfold inCanvas. simpl. lia.
  - exists data'. split; [exact Hrun|].
    apply (Hjoin (1, 0)).
    assert (∀ p, p = (0, 0) ∨ p = (1, 0) → similar 3 sampleCanvas (0, 0) 0 p)
      as Hsim.
    { intros p Hp. split.
      - exists 255. destruct Hp as [-> | ->]; split; [reflexivity|lia|reflexivity|lia].
      - intros c Hc. exists 5, 5.
        assert (c = 0 ∨ c = 1 ∨ c = 2) as [-> | [-> | ->]] by lia;
          destruct Hp as [-> | ->];
          (split; [reflexivity|split; [reflexivity|simpl; lia]]). }
    apply (joined_step 3 2 sampleCanvas (0, 0) 0 (0, 0) (1, 0)).
    + apply joined_seed; [unfold inCanvas; simpl; lia|]. apply Hsim. by left.
    + reflexivity.
    + unfold inCanvas. simpl. lia.
    + apply Hsim. by right.
Defined.

Lemma floodFill_idempotent_witness :
  ∃ data',
    Flood.floodFill 3 2 sampleCanvas 0 0 1 = Some data' ∧
    Flood.floodFill 3 2 data' 0 0 1 = Some data'.
Proof. apply floodFill_idempotent. reflexivity. Defined.

Lemma detectAxis_strictly_increasing_inside_witness :
  ∃ splits,
    Seam.detectAxis (fun x => x) bandedImage HORIZONTAL = Return splits ∧
    StronglySorted Z.lt splits ∧
    Forall (fun x => strictlyInside 40 x ∧ 0 < x < 40) splits.
Proof.
  apply (detectAxis_strictly_increasing_inside (fun x => x) bandedImage HORIZONTAL).
  unfold wellFormed. simpl. lia.
Defined.

(** ** Largest component: the filter returns *)

Lemma zeros_insert (visited : list Z) (i : nat) :
  visited !! i = Some 0 → S (zeros (<[i := 1]> visited)) = zeros visited.
Proof.
  unfold zeros. revert i. induction visited as [|v visited IH]; intros [|i] Hi;
    simpl in *; try done.
  - injection Hi as ->. done.
  - destruct v; simpl; by rewrite IH.
Qed.

Lemma zeros_wr (visited : list Z) (i : Z) :
  rd visited i = Some 0 → S (zeros (wr visited i 1)) = zeros visited.
Proof.
  unfold rd, wr. destruct (i <? 0); [done|]. apply zeros_insert.
Qed.

Lemma zeros_le_length (visited : list Z) : (zeros visited ≤ length visited)%nat.
Proof. apply List.filter_length_le. Qed.

Lemma isUnvisited_true v : Mask.isUnvisited v = true ↔ v = Some 0.
Proof. destruct v as [[| |]|]; simpl; split; congruence. Qed.

Lemma visitNeighbour_measure mask width height L visited labels queue n
    visited' labels' queue' :
  Mask.visitNeighbour mask width height L (visited, labels, queue) n
  = (visited', labels', queue') →
  length visited' = length visited ∧ length labels' = length labels ∧
  (zeros visited' + length queue' = zeros visited + length queue)%nat.
Proof.
  unfold Mask.visitNeighbour. destruct n as [nx ny].
  destruct (_ && _ && _ && _); [|by intros [= <- <- <-]].
  destruct (Mask.positive _); simpl; [|by intros [= <- <- <-]].
  destruct (Mask.isUnvisited _) eqn:E; [|by intros [= <- <- <-]].
  apply isUnvisited_true in E. intros [= <- <- <-].
  rewrite !length_wr, length_app. simpl.
  pose proof (zeros_wr visited _ E). lia.
Qed.

Lemma foldl_visitNeighbour_measure mask width height L ns visited labels queue
    visited' labels' queue' :
  foldl (Mask.visitNeighbour mask width height L) (visited, labels, queue) ns
  = (visited', labels', queue') →
  length visited' = length visited ∧ length labels' = length labels ∧
  (zeros visited' + length queue' = zeros visited + length queue)%nat.
Proof.
  revert visited labels queue.
  induction ns as [|n ns IH]; intros visited labels queue; cbn [foldl].
  - by intros [= <- <- <-].
  - destruct (Mask.visitNeighbour mask width height L (visited, labels, queue) n)
      as [[v1 l1] q1] eqn:E1.
    apply visitNeighbour_measure in E1 as (Hv & Hl & Hz).
    intros (Hv' & Hl' & Hz')%IH. lia.
Qed.

Lemma bfsLoop_terminates fuel mask width height L visited labels queue head count :
  (zeros visited + length queue ≤ fuel + head)%nat →
  ∃ visited' labels' count',
    Mask.bfsLoop fuel mask width height L visited labels queue head count
    = Some (visited', labels', count') ∧
    length visited' = length visited ∧ length labels' = length labels.
Proof.
  revert visited labels queue head count.
  induction fuel as [|fuel IH]; intros visited labels queue head count Hfuel;
    cbn [Mask.bfsLoop].
  - destruct (queue !! head) as [q|] eqn:E; [|by eauto 6].
    apply lookup_lt_Some in E. lia.
  - destruct (queue !! head) as [q|] eqn:E; [|by eauto 6].
    destruct (foldl (Mask.visitNeighbour mask width height L)
                (visited, labels, queue) (Mask.neighbors width q))
      as [[v1 l1] q1] eqn:E1.
    apply foldl_visitNeighbour_measure in E1 as (Hv & Hl & Hz).
    destruct (IH v1 l1 q1 (S head) (count + 1)) as (v' & l' & c' & Hrun & Hv' & Hl');
      [lia|].
    exists v', l', c'. split; [done|]. split; congruence.
Qed.

Lemma scanPixel_terminates mask width height st idx :
  length (Mask.visited st) = Z.to_nat (width * height) →
  ∃ st', Mask.scanPixel mask width height st idx = Some st' ∧
         length (Mask.visited st') = Z.to_nat (width * height) ∧
         length (Mask.labels st') = length (Mask.labels st).
Proof.
  intros Hlen. unfold Mask.scanPixel.
  destruct (Mask.positive _); simpl; [|by eauto].
  destruct (Mask.isUnvisited _) eqn:E; [|by eauto].
  apply isUnvisited_true in E.
  destruct (bfsLoop_terminates (Z.to_nat (width * height)) mask width height
              (Mask.currentLabel st) (wr (Mask.visited st) idx 1)
              (wr (Mask.labels st) idx (Mask.currentLabel st)) [idx] 0 0)
    as (v' & l' & c' & -> & Hv' & Hl').
  { pose proof (zeros_wr _ _ E). pose proof (zeros_le_length (Mask.visited st)).
    simpl. lia. }
  eexists. split; [done|]. simpl. rewrite length_wr in Hv', Hl'. split; congruence.
Qed.

Lemma scan_terminates mask width height pixels st :
  length (Mask.visited st) = Z.to_nat (width * height) →
  ∃ st', Mask.scan mask width height pixels st = Some st' ∧
         length (Mask.labels st') = length (Mask.labels st).
Proof.
  revert st. induction pixels as [|idx pixels IH]; intros st Hlen; simpl.
  - by eauto.
  - destruct (scanPixel_terminates mask width height st idx Hlen)
      as (st1 & -> & Hv1 & Hl1).
    destruct (IH st1 Hv1) as (st' & -> & Hl'). exists st'. split; [done|]. congruence.
Qed.

Lemma filterLargestComponent_returns mask width height :
  0 ≤ width * height →
  ∃ st,
    Mask.scan mask width height (Mask.raster width height)
      (Mask.mkLabelling (replicate (Z.to_nat (width * height)) 0)
                        (replicate (Z.to_nat (width * height)) 0) 1 []) = Some st ∧
    length (Mask.labels st) = Z.to_nat (width * height) ∧
    Mask.filterLargestComponent mask width height
    = Return (Mask.newMaskAt mask (Mask.labels st)
                (Mask.pickLargest (Mask.componentSizes st)).1
              <$> seqZ 0 (width * height)).
Proof.
  intros Hsize. unfold Mask.filterLargestComponent.
  destruct (Z.ltb_spec (width * height) 0) as [Hneg|_]; [lia|].
  destruct (scan_terminates mask width height (Mask.raster width height)
              (Mask.mkLabelling (replicate (Z.to_nat (width * height)) 0)
                                (replicate (Z.to_nat (width * height)) 0) 1 []))
    as (st & Hrun & Hl).
  { simpl. apply length_replicate. }
  exists st. rewrite Hrun. simpl in Hl. rewrite length_replicate in Hl. done.
Qed.

(** ** Largest component: connectivity *)

Lemma adjacent_sym p q : adjacent p q → adjacent q p.
Proof. unfold adjacent. lia. Qed.

Lemma adjIdx_sym width i j : adjIdx width i j → adjIdx width j i.
Proof. apply adjacent_sym. Qed.

(** The foreground test of the code, [maskData[idx] > 0]. *)
Lemma fg_positive (mask : list Mask.float) (i : Z) :
  fg mask i ↔ Mask.positive (rd mask i) = true.
Proof.
  unfold fg, Mask.positive. destruct (rd mask i) as [[q|]|].
  - rewrite Qltb_lt. split; [by intros (? & [= <-] & ?)|]. intros ?. by exists q.
  - split; [by intros (? & ? & ?)|done].
  - split; [by intros (? & ? & ?)|done].
Qed.

Section MaskSpec.

Variables (mask : list Mask.float) (width height : Z).
Hypothesis Hw : 0 < width.
Hypothesis Hh : 0 ≤ height.
Hypothesis Hlen : Z.of_nat (length mask) = width * height.

Local Abbreviation conn := (connected mask width height).
Local Abbreviation size := (width * height).

Lemma fg_inMask i : fg mask i → inMask width height i.
Proof.
  intros (q & E & _). unfold inMask.
  apply rd_Some_range in E. lia.
Qed.

Lemma conn_left i j : conn i j → inMask width height i ∧ fg mask i.
Proof. induction 1; auto. Qed.

Lemma conn_right i j : conn i j → inMask width height j ∧ fg mask j.
Proof. destruct 1; auto. Qed.

Lemma conn_trans i j k : conn i j → conn j k → conn i k.
Proof.
  intros Hij Hjk. induction Hjk as [|k k' Hjk IH Hadj Hin Hfg]; [done|].
  by eapply conn_step.
Qed.

Lemma conn_sym i j : conn i j → conn j i.
Proof.
  induction 1 as [|j k Hij IH Hadj Hin Hfg]; [by constructor|].
  destruct (conn_right _ _ Hij) as [Hjin Hjfg].
  eapply conn_trans; [|exact IH].
  eapply conn_step; [by constructor| |done|done]. by apply adjIdx_sym.
Qed.

Lemma conn_adj i j :
  fg mask i → fg mask j → adjIdx width i j → conn i j.
Proof.
  intros Hi Hj Hadj.
  eapply conn_step; [constructor; [by apply fg_inMask|done]|done| |done].
  by apply fg_inMask.
Qed.

Lemma coords_range i :
  inMask width height i →
  0 ≤ i mod width < width ∧ 0 ≤ i / width < height.
Proof.
  unfold inMask. intros Hi.
  pose proof (Z.mod_pos_bound i width Hw).
  pose proof (Z.div_mod i width ltac:(lia)).
  split; [done|]. split; [apply Z.div_pos; lia|].
  apply Z.div_lt_upper_bound; lia.
Qed.

Lemma coords_getIdx nx ny :
  0 ≤ nx < width → coords width (Mask.getIdx width nx ny) = (nx, ny).
Proof.
  intros Hnx. unfold coords, Mask.getIdx. f_equal.
  - rewrite Z.add_comm, Z.mod_add by lia. by apply Z.mod_small.
  - rewrite Z.add_comm, Z.div_add by lia. rewrite (Z.div_small nx) by done. lia.
Qed.

Lemma getIdx_coords i : Mask.getIdx width (i mod width) (i / width) = i.
Proof.
  unfold Mask.getIdx. pose proof (Z.div_mod i width ltac:(lia)). lia.
Qed.

Lemma getIdx_inMask nx ny :
  0 ≤ nx < width → 0 ≤ ny < height → inMask width height (Mask.getIdx width nx ny).
Proof. unfold inMask, Mask.getIdx. intros Hnx Hny. nia. Qed.

Lemma neighbors_coords q :
  0 ≤ q →
  Mask.neighbors width q
  = [(q mod width - 1, q / width); (q mod width + 1, q / width);
     (q mod width, q / width - 1); (q mod width, q / width + 1)].
Proof.
  intros Hq. unfold Mask.neighbors. by rewrite Z.rem_mod_nonneg by lia.
Qed.

Lemma neighbors_sound q nx ny :
  inMask width height q → (nx, ny) ∈ Mask.neighbors width q →
  0 ≤ nx < width → 0 ≤ ny < height →
  adjIdx width q (Mask.getIdx width nx ny) ∧
  inMask width height (Mask.getIdx width nx ny).
Proof.
  intros Hq Hn Hnx Hny. split; [|by apply getIdx_inMask].
  unfold adjIdx. rewrite coords_getIdx by done.
  rewrite neighbors_coords in Hn by (unfold inMask in Hq; lia).
  unfold adjacent, coords. simpl.
  repeat (apply elem_of_cons in Hn as [[= -> ->]|Hn]; [lia|]).
  by apply elem_of_nil in Hn.
Qed.

Lemma neighbors_complete q j :
  inMask width height q → inMask width height j → adjIdx width q j →
  ∃ nx ny, (nx, ny) ∈ Mask.neighbors width q ∧
           0 ≤ nx < width ∧ 0 ≤ ny < height ∧ Mask.getIdx width nx ny = j.
Proof.
  intros Hq Hj Hadj. exists (j mod width), (j / width).
  destruct (coords_range j Hj) as [Hx Hy].
  split; [|by rewrite getIdx_coords].
  rewrite neighbors_coords by (unfold inMask in Hq; lia).
  unfold adjIdx, adjacent, coords in Hadj. simpl in Hadj.
  assert ((j mod width = q mod width - 1 ∧ j / width = q / width) ∨
          (j mod width = q mod width + 1 ∧ j / width = q / width) ∨
          (j mod width = q mod width ∧ j / width = q / width - 1) ∨
          (j mod width = q mod width ∧ j / width = q / width + 1))
    as [[-> ->]|[[-> ->]|[[-> ->]|[-> ->]]]] by lia.
  - apply list_elem_of_here.
  - apply list_elem_of_further, list_elem_of_here.
  - do 2 apply list_elem_of_further. apply list_elem_of_here.
  - do 3 apply list_elem_of_further. apply list_elem_of_here.
Qed.

(** *** The breadth-first traversal of one component *)

Section BFS.

Variables (visited0 labels0 : list Z) (n L : Z).
Hypothesis Hpre_len : length labels0 = Z.to_nat (width * height).
Hypothesis Hpre_vis : ∀ i, rd visited0 i = Some 0 ↔ rd labels0 i = Some 0.
Hypothesis Hpre_class : ∀ i j l, l ≠ 0 → rd labels0 i = Some l →
  (rd labels0 j = Some l ↔ conn i j).
Hypothesis Hn_fg : fg mask n.
Hypothesis Hn_new : rd labels0 n = Some 0.

Local Abbreviation binv := (bfsInv mask width height visited0 labels0 n L).

Lemma bfs_init : binv (wr visited0 n 1) (wr labels0 n L) [n] 0.
Proof.
  split.
  - apply length_wr.
  - apply length_wr.
  - apply NoDup_singleton.
  - intros q ->%list_elem_of_singleton. split; [|done].
    constructor; [by apply fg_inMask|done].
  - intros j. rewrite rd_wr. destruct (decide (j = n)) as [->|Hne].
    + rewrite decide_True by apply list_elem_of_here. by rewrite Hn_new.
    + rewrite decide_False; [done|]. by intros ?%list_elem_of_singleton.
  - intros j. rewrite rd_wr. destruct (decide (j = n)) as [->|Hne].
    + rewrite decide_True by apply list_elem_of_here.
      apply Hpre_vis in Hn_new. by rewrite Hn_new.
    + rewrite decide_False; [done|]. by intros ?%list_elem_of_singleton.
  - apply list_elem_of_here.
  - simpl. lia.
  - intros k q Hk. lia.
Qed.

Lemma labelled_in_range i : inMask width height i → is_Some (rd labels0 i).
Proof. intros Hi. apply rd_in_range. unfold inMask in Hi. lia. Qed.

(** A foreground neighbour of a queued pixel that is already visited is in
    the queue: it cannot belong to a component labelled earlier. *)
Lemma visited_neighbour_queued visited labels queue head q0 j :
  binv visited labels queue head → q0 ∈ queue →
  adjIdx width q0 j → inMask width height j → fg mask j →
  rd visited j ≠ Some 0 → j ∈ queue.
Proof.
  intros Hinv Hq0 Hadj Hin Hfg Hvis.
  destruct (decide (j ∈ queue)) as [|Hnot]; [done|]. exfalso.
  rewrite (bi_vis _ _ _ _ _ _ _ _ _ _ _ Hinv), decide_False in Hvis by done.
  destruct (labelled_in_range j Hin) as [l Hl].
  assert (l ≠ 0) as Hl0.
  { intros ->. by apply Hvis, Hpre_vis. }
  destruct (bi_conn _ _ _ _ _ _ _ _ _ _ _ Hinv q0 Hq0) as [Hconn Hq0new].
  destruct (conn_right _ _ Hconn) as [_ Hq0fg].
  assert (rd labels0 q0 = Some l) as Hq0l.
  { apply (Hpre_class j q0 l Hl0 Hl). apply conn_adj; [done|done|].
    by apply adjIdx_sym. }
  congruence.
Qed.

Lemma visitNeighbour_inv visited labels queue head q0 nx ny :
  binv visited labels queue head → q0 ∈ queue →
  (nx, ny) ∈ Mask.neighbors width q0 →
  ∃ visited' labels' queue',
    Mask.visitNeighbour mask width height L (visited, labels, queue) (nx, ny)
    = (visited', labels', queue') ∧
    binv visited' labels' queue' head ∧
    (∀ j, j ∈ queue → j ∈ queue') ∧
    (∀ k, (k < length queue)%nat → queue' !! k = queue !! k) ∧
    (0 ≤ nx < width → 0 ≤ ny < height → fg mask (Mask.getIdx width nx ny) →
     Mask.getIdx width nx ny ∈ queue').
Proof.
  intros Hinv Hq0 Hnb. unfold Mask.visitNeighbour.
  destruct (bi_conn _ _ _ _ _ _ _ _ _ _ _ Hinv q0 Hq0) as [Hconn Hq0new].
  destruct (conn_right _ _ Hconn) as [Hq0in Hq0fg].
  destruct ((0 <=? nx) && (nx <? width) && (0 <=? ny) && (ny <? height)) eqn:Hb.
  2:{ exists visited, labels, queue. repeat split; try done.
      - by destruct Hinv.
      - by destruct Hinv.
      - by destruct Hinv.
      - by apply (bi_conn _ _ _ _ _ _ _ _ _ _ _ Hinv).
      - by apply (bi_conn _ _ _ _ _ _ _ _ _ _ _ Hinv).
      - by destruct Hinv.
      - by destruct Hinv.
      - by destruct Hinv.
      - by destruct Hinv.
      - by destruct Hinv.
      - intros Hnx Hny. exfalso.
        rewrite !andb_false_iff in Hb.
        destruct Hb as [[[Hb|Hb]|Hb]|Hb]; [apply Z.leb_gt in Hb | apply Z.ltb_ge in Hb
          | apply Z.leb_gt in Hb | apply Z.ltb_ge in Hb]; lia. }
  rewrite !andb_true_iff in Hb. destruct Hb as [[[Hb1 Hb2] Hb3] Hb4].
  apply Z.leb_le in Hb1, Hb3. apply Z.ltb_lt in Hb2, Hb4.
  destruct (neighbors_sound q0 nx ny Hq0in Hnb) as [Hadj Hin]; [lia|lia|].
  set (nIdx := Mask.getIdx width nx ny) in *.
  destruct (Mask.positive (rd mask nIdx)) eqn:Hpos; simpl.
  2:{ exists visited, labels, queue. split; [done|]. split; [done|].
      split; [done|]. split; [done|]. intros _ _ Hfg.
      apply fg_positive in Hfg. congruence. }
  pose proof (proj2 (fg_positive mask nIdx) Hpos) as Hfgn.
  destruct (Mask.isUnvisited (rd visited nIdx)) eqn:Hun.
  2:{ exists visited, labels, queue. split; [done|]. split; [done|].
      split; [done|]. split; [done|]. intros _ _ Hfg.
      eapply visited_neighbour_queued; try done.
      intros Hz. apply isUnvisited_true in Hz. congruence. }
  apply isUnvisited_true in Hun.
  assert (nIdx ∉ queue) as Hnotin.
  { intros Hq. rewrite (bi_vis _ _ _ _ _ _ _ _ _ _ _ Hinv), decide_True in Hun by done.
    done. }
  assert (rd labels0 nIdx = Some 0) as Hnew.
  { apply Hpre_vis.
    by rewrite (bi_vis _ _ _ _ _ _ _ _ _ _ _ Hinv), decide_False in Hun. }
  exists (wr visited nIdx 1), (wr labels nIdx L), (queue ++ [nIdx]).
  split; [done|]. split; [|split; [|split]].
  - destruct Hinv as [Hlv Hll Hnd Hc Hlab Hvis Hseed Hhead Hdone]. split.
    + by rewrite length_wr.
    + by rewrite length_wr.
    + apply NoDup_app. split; [done|]. split; [|apply NoDup_singleton].
      intros x Hx ->%list_elem_of_singleton. done.
    + intros q [Hq| ->%list_elem_of_singleton]%elem_of_app; [by apply Hc|].
      split; [|done]. by eapply conn_step.
    + intros j. rewrite rd_wr. destruct (decide (j = nIdx)) as [->|Hne].
      * rewrite decide_True by (apply elem_of_app; right; apply list_elem_of_here).
        by rewrite Hlab, decide_False, Hnew.
      * rewrite Hlab. destruct (decide (j ∈ queue)) as [Hj|Hj].
        -- rewrite decide_True; [done|]. apply elem_of_app. by left.
        -- rewrite decide_False; [done|].
           intros [?| ?%list_elem_of_singleton]%elem_of_app; done.
    + intros j. rewrite rd_wr. destruct (decide (j = nIdx)) as [->|Hne].
      * rewrite decide_True by (apply elem_of_app; right; apply list_elem_of_here).
        by rewrite Hun.
      * rewrite Hvis. destruct (decide (j ∈ queue)) as [Hj|Hj].
        -- rewrite decide_True; [done|]. apply elem_of_app. by left.
        -- rewrite decide_False; [done|].
           intros [?| ?%list_elem_of_singleton]%elem_of_app; done.
    + apply elem_of_app. by left.
    + rewrite length_app. lia.
    + intros k q Hk Hlook j Hadj' Hin' Hfg'.
      rewrite lookup_app_l in Hlook by lia.
      apply elem_of_app. left. by eapply Hdone.
  - intros j Hj. apply elem_of_app. by left.
  - intros k Hk. by apply lookup_app_l.
  - intros _ _ _. apply elem_of_app. right. apply list_elem_of_here.
Qed.

Lemma foldl_visitNeighbour_inv ns visited labels queue head q0 :
  binv visited labels queue head → q0 ∈ queue →
  (∀ nb, nb ∈ ns → nb ∈ Mask.neighbors width q0) →
  ∃ visited' labels' queue',
    foldl (Mask.visitNeighbour mask width height L) (visited, labels, queue) ns
    = (visited', labels', queue') ∧
    binv visited' labels' queue' head ∧
    (∀ j, j ∈ queue → j ∈ queue') ∧
    (∀ k, (k < length queue)%nat → queue' !! k = queue !! k) ∧
    (∀ nx ny, (nx, ny) ∈ ns → 0 ≤ nx < width → 0 ≤ ny < height →
              fg mask (Mask.getIdx width nx ny) → Mask.getIdx width nx ny ∈ queue').
Proof.
  revert visited labels queue.
  induction ns as [|[nx ny] ns IH]; intros visited labels queue Hinv Hq0 Hns;
    cbn [foldl].
  - exists visited, labels, queue. repeat split; try done.
    all: try by destruct Hinv.
    + by apply (bi_conn _ _ _ _ _ _ _ _ _ _ _ Hinv).
    + by apply (bi_conn _ _ _ _ _ _ _ _ _ _ _ Hinv).
    + intros nx ny Hnb. by apply elem_of_nil in Hnb.
  - destruct (visitNeighbour_inv visited labels queue head q0 nx ny Hinv Hq0)
      as (v1 & l1 & q1 & -> & Hinv1 & Hsub1 & Hpre1 & Hcov1).
    { apply Hns, list_elem_of_here. }
    destruct (IH v1 l1 q1 Hinv1 (Hsub1 _ Hq0)) as (v2 & l2 & q2 & -> & Hinv2 & Hsub2 & Hpre2 & Hcov2).
    { intros nb Hnb. by apply Hns, list_elem_of_further. }
    exists v2, l2, q2. split; [done|]. split; [done|]. split; [|split].
    + intros j Hj. by apply Hsub2, Hsub1.
    + intros k Hk. rewrite Hpre2, Hpre1; [done|done|].
      assert (is_Some (q1 !! k)) as Hs.
      { rewrite Hpre1 by done. by apply lookup_lt_is_Some. }
      by apply lookup_lt_is_Some.
    + intros nx' ny' [[= -> ->]|Hnb]%elem_of_cons Hnx Hny Hfg.
      * by apply Hsub2, Hcov1.
      * by apply Hcov2.
Qed.

Lemma bfsLoop_inv fuel visited labels queue head count visited' labels' count' :
  binv visited labels queue head →
  Mask.bfsLoop fuel mask width height L visited labels queue head count
  = Some (visited', labels', count') →
  ∃ queue', binv visited' labels' queue' (length queue') ∧
            (length queue ≤ length queue')%nat ∧
            count' = count + Z.of_nat (length queue' - head).
Proof.
  revert visited labels queue head count.
  induction fuel as [|fuel IH]; intros visited labels queue head count Hinv;
    cbn [Mask.bfsLoop].
  - destruct (queue !! head) as [q0|] eqn:E; [done|]. intros [= <- <- <-].
    apply lookup_ge_None in E.
    pose proof (bi_head _ _ _ _ _ _ _ _ _ _ _ Hinv) as Hhead.
    assert (head = length queue) as -> by lia.
    exists queue. split; [done|]. lia.
  - destruct (queue !! head) as [q0|] eqn:E.
    2:{ intros [= <- <- <-]. apply lookup_ge_None in E.
        pose proof (bi_head _ _ _ _ _ _ _ _ _ _ _ Hinv) as Hhead.
        assert (head = length queue) as -> by lia.
        exists queue. split; [done|]. lia. }
    assert (q0 ∈ queue) as Hq0 by (by eapply list_elem_of_lookup_2).
    destruct (foldl_visitNeighbour_inv (Mask.neighbors width q0)
                visited labels queue head q0 Hinv Hq0)
      as (v1 & l1 & q1 & -> & Hinv1 & Hsub1 & Hpre1 & Hcov1); [done|].
    pose proof (lookup_lt_Some _ _ _ E) as Hlt.
    assert (length queue ≤ length q1)%nat as Hgrow.
    { destruct (decide (length queue ≤ length q1)%nat) as [|Hgt]; [done|].
      assert (is_Some (q1 !! (length queue - 1)%nat)) as Hs.
      { rewrite Hpre1 by lia. apply lookup_lt_is_Some. lia. }
      apply lookup_lt_is_Some in Hs. lia. }
    intros Hrun. apply IH in Hrun as (queue' & Hinv' & Hgrow' & ->).
    { exists queue'. split; [done|]. lia. }
    destruct (bi_conn _ _ _ _ _ _ _ _ _ _ _ Hinv q0 Hq0) as [Hconn _].
    destruct (conn_right _ _ Hconn) as [Hq0in _].
    destruct Hinv1 as [Hlv Hll Hnd Hc Hlab Hvis Hseed Hhead Hdone]. split; try done.
    + lia.
    + intros k q Hk Hlook j Hadj Hin Hfg.
      destruct (decide (k = head)) as [->|Hne].
      * rewrite Hpre1, E in Hlook by done. injection Hlook as <-.
        destruct (neighbors_complete q0 j Hq0in Hin Hadj)
          as (nx & ny & Hnb & Hnx & Hny & <-).
        by apply Hcov1.
      * eapply Hdone; [|exact Hlook|done|done|done]. lia.
Qed.

Lemma bfs_final visited labels queue :
  binv visited labels queue (length queue) → ∀ j, j ∈ queue ↔ conn n j.
Proof.
  intros Hinv j. split.
  - intros Hj. by apply (bi_conn _ _ _ _ _ _ _ _ _ _ _ Hinv).
  - induction 1 as [|j k Hj IH Hadj Hin Hfg].
    + by destruct Hinv.
    + apply list_elem_of_lookup in IH as [i Hi].
      eapply (bi_done _ _ _ _ _ _ _ _ _ _ _ Hinv i j); try done.
      by eapply lookup_lt_Some.
Qed.

End BFS.

(** *** The scan of the pixels *)

Lemma scanPixel_inv n st st' :
  scanInv mask width height n st →
  Mask.scanPixel mask width height st n = Some st' →
  scanInv mask width height (n + 1) st'.
Proof.
  intros Hinv. pose proof Hinv as [Hlv Hll Hvis Hcur Hlab Hclass Hsizes Hseed Hdone].
  unfold Mask.scanPixel.
  destruct (Mask.positive (rd mask n)) eqn:Hpos; simpl.
  2:{ intros [= <-]. split; try done.
      - intros l Hl. destruct (Hseed l Hl) as (m & Hm & Hlt & Hmin).
        exists m. split; [done|]. split; [lia|done].
      - intros i Hi Hfg. destruct (decide (i = n)) as [->|Hne].
        + apply fg_positive in Hfg. congruence.
        + apply Hdone; [lia|done]. }
  pose proof (proj2 (fg_positive mask n) Hpos) as Hfgn.
  destruct (Mask.isUnvisited (rd (Mask.visited st) n)) eqn:Hun.
  2:{ intros [= <-]. split; try done.
      - intros l Hl. destruct (Hseed l Hl) as (m & Hm & Hlt & Hmin).
        exists m. split; [done|]. split; [lia|done].
      - intros i Hi Hfg. destruct (decide (i = n)) as [->|Hne].
        + intros Hz. apply Hvis, isUnvisited_true in Hz. congruence.
        + apply Hdone; [lia|done]. }
  apply isUnvisited_true in Hun.
  assert (rd (Mask.labels st) n = Some 0) as Hnew by (by apply Hvis).
  set (L := Mask.currentLabel st) in *.
  destruct (Mask.bfsLoop _ _ _ _ _ _ _ _ _ _) as [[[v' l'] count]|] eqn:Hrun; [|done].
  intros [= <-].
  apply (bfsLoop_inv (Mask.visited st) (Mask.labels st) n L) in Hrun
    as (Q & HQ & _ & Hcount); try done.
  2:{ by apply bfs_init. }
  pose proof (bfs_final (Mask.visited st) (Mask.labels st) n L _ _ _ HQ) as HQconn.
  destruct HQ as [HQlv HQll HQnd HQc HQlab HQvis HQseed _ _].
  assert (1 ≤ L) as HL by lia.
  assert (∀ j, j ∈ Q → n ≤ j) as HQge.
  { intros j Hj. destruct (HQc j Hj) as [Hc Hz].
    destruct (conn_right _ _ Hc) as [[Hj0 _] Hjfg].
    destruct (decide (n ≤ j)) as [|Hlt]; [done|]. exfalso.
    apply (Hdone j); [lia|done|done]. }
  split; simpl.
  - congruence.
  - congruence.
  - intros i. rewrite HQvis, HQlab. case_decide; [|done].
    split; intros [=]. lia.
  - rewrite length_app. simpl. lia.
  - intros i l. rewrite HQlab. case_decide.
    + intros [= <-]. lia.
    + intros Hl%Hlab. lia.
  - intros i j l Hl0. rewrite !HQlab.
    destruct (decide (i ∈ Q)) as [Hi|Hi].
    + intros [= <-]. destruct (decide (j ∈ Q)) as [Hj|Hj].
      * split; [|done]. intros _.
        eapply conn_trans; [apply conn_sym|]; by apply HQconn.
      * split.
        -- intros Hl%Hlab. lia.
        -- intros Hc. exfalso. apply Hj, HQconn.
           eapply conn_trans; [by apply HQconn|done].
    + intros Hil. destruct (decide (j ∈ Q)) as [Hj|Hj].
      * split.
        -- intros [= <-]. apply Hlab in Hil. lia.
        -- intros Hc. apply (Hclass i j l Hl0 Hil) in Hc.
           destruct (HQc j Hj) as [_ Hz]. congruence.
      * by apply Hclass.
  - intros k. rewrite length_app. simpl. intros Hk.
    destruct (decide (k < length (Mask.componentSizes st))%nat) as [Hlt|Hge].
    + rewrite lookup_app_l by done. rewrite Hsizes by done.
      do 4 f_equal. unfold classOf. apply List.filter_ext. intros i.
      apply bool_decide_ext. rewrite HQlab. case_decide as Hi; [|done].
      destruct (HQc i Hi) as [_ Hz]. rewrite Hz. split; intros [=]; lia.
    + assert (k = length (Mask.componentSizes st)) as -> by lia.
      rewrite lookup_app_r by lia. rewrite Nat.sub_diag. simpl.
      replace (Z.of_nat (length (Mask.componentSizes st)) + 1) with L by lia.
      do 2 f_equal. rewrite Hcount.
      replace (0 + Z.of_nat (length Q - 0)) with (Z.of_nat (length Q)) by lia.
      f_equal. apply Permutation_length, NoDup_Permutation; [done| |].
      * apply filter_NoDup, NoDup_seqZ.
      * intros j. unfold classOf. split.
        -- intros Hj. apply list_elem_of_In, filter_In. split.
           ++ apply list_elem_of_In, elem_of_seqZ.
              apply HQconn in Hj. destruct (conn_right _ _ Hj) as [Hin _].
              unfold inMask in Hin. lia.
           ++ apply bool_decide_eq_true. by rewrite HQlab, decide_True.
        -- intros [_ Hj%bool_decide_eq_true]%list_elem_of_In%filter_In.
           rewrite HQlab in Hj. destruct (decide (j ∈ Q)); [done|].
           apply Hlab in Hj. lia.
  - intros l Hl. destruct (decide (l = L)) as [->|Hne].
    + exists n. rewrite HQlab, decide_True by done. split; [done|]. split; [lia|].
      intros j lj. rewrite HQlab. case_decide as Hj; [intros _ _; by apply HQge|].
      intros Hlj%Hlab. lia.
    + destruct (Hseed l) as (m & Hm & Hlt & Hmin); [lia|].
      exists m. split; [|split; [lia|]].
      * rewrite HQlab, decide_False; [done|].
        intros Hq. destruct (HQc m Hq) as [_ Hz]. rewrite Hz in Hm.
        injection Hm as <-. lia.
      * intros j lj. rewrite HQlab. case_decide as Hj.
        -- intros _ _. specialize (HQge j Hj). lia.
        -- apply Hmin.
  - intros i Hi Hfg. rewrite HQlab. case_decide as Hq; [intros [=]; lia|].
    destruct (decide (i = n)) as [->|Hne]; [done|]. apply Hdone; [lia|done].
Qed.

Lemma scan_inv k n st st' :
  scanInv mask width height n st →
  Mask.scan mask width height (seqZ n (Z.of_nat k)) st = Some st' →
  scanInv mask width height (n + Z.of_nat k) st'.
Proof.
  revert n st. induction k as [|k IH]; intros n st Hinv.
  - simpl. intros [= <-]. by rewrite Z.add_0_r.
  - rewrite seqZ_cons by lia. cbn [Mask.scan].
    destruct (Mask.scanPixel mask width height st n) as [st1|] eqn:E; [|done].
    apply (scanPixel_inv n st st1 Hinv) in E.
    replace (Z.pred (Z.of_nat (S k))) with (Z.of_nat k) by lia.
    intros Hrun. apply (IH (Z.succ n) st1) in Hrun.
    + by replace (n + Z.of_nat (S k)) with (Z.succ n + Z.of_nat k) by lia.
    + by replace (Z.succ n) with (n + 1) by lia.
Qed.

Lemma scanInv_init :
  scanInv mask width height 0
    (Mask.mkLabelling (replicate (Z.to_nat size) 0) (replicate (Z.to_nat size) 0) 1 []).
Proof.
  assert (∀ i l, rd (replicate (Z.to_nat size) 0) i = Some l → l = 0) as Hzero.
  { intros i l. unfold rd. destruct (i <? 0); [done|].
    intros [-> _]%lookup_replicate. done. }
  split; simpl.
  - apply length_replicate.
  - apply length_replicate.
  - done.
  - done.
  - intros i l Hl%Hzero. lia.
  - intros i j l Hl0 Hl%Hzero. done.
  - intros k Hk. lia.
  - intros l Hl. lia.
  - intros i Hi. lia.
Qed.

(** *** The raster order and the choice of the largest component *)

Lemma bind_singleton_fmap {A B} (f : A → B) (l : list A) :
  (l ≫= fun x => [f x]) = f <$> l.
Proof.
  induction l as [|x l IH]; [done|]. rewrite bind_cons, IH. done.
Qed.

Lemma raster_seqZ : Mask.raster width height = seqZ 0 size.
Proof.
  unfold Mask.raster. rewrite <- (Z2Nat.id height) at 1 2 by done.
  induction (Z.to_nat height) as [|k IH].
  - rewrite Z.mul_0_r. done.
  - rewrite seqZ_S, bind_app, IH, bind_singleton. simpl.
    rewrite bind_singleton_fmap.
    replace (width * Z.of_nat (S k)) with (width * Z.of_nat k + width) by lia.
    rewrite seqZ_app by lia. f_equal.
    assert ((fun x => Mask.getIdx width x (0 + Z.of_nat k)) <$> seqZ 0 width
            = Z.add (Z.of_nat k * width) <$> seqZ 0 width) as ->.
    { apply list_fmap_ext. intros i x _. unfold Mask.getIdx. lia. }
    rewrite fmap_add_seqZ. f_equal; lia.
Qed.

Lemma pickLargest_spec (cs : list (Z * Z)) :
  (∀ k l s, cs !! k = Some (l, s) → 0 ≤ s) →
  (cs = [] ∧ Mask.pickLargest cs = (-1, -1)) ∨
  (∃ k, cs !! k = Some (Mask.pickLargest cs) ∧
        ∀ k' l' s', cs !! k' = Some (l', s') →
          s' ≤ (Mask.pickLargest cs).2 ∧
          ((k' < k)%nat → s' < (Mask.pickLargest cs).2)).
Proof.
  unfold Mask.pickLargest.
  induction cs as [|[l s] cs IH] using rev_ind; intros Hpos; [by left|].
  right. rewrite foldl_snoc.
  assert (0 ≤ s) as Hs.
  { apply (Hpos (length cs) l). by rewrite lookup_app_r, Nat.sub_diag by lia. }
  destruct IH as [[-> Hnil]|(k & Hk & Hmax)].
  { intros k l0 s0 Hl. apply (Hpos k l0). by apply lookup_app_l_Some. }
  - simpl. destruct (Z.ltb_spec (-1) s) as [_|?]; [|lia].
    exists 0%nat. split; [done|]. intros [|k'] l' s' Hl; [|done].
    injection Hl as <- <-. simpl. split; lia.
  - destruct (foldl _ _ cs) as [ml ms]. simpl in *.
    destruct (Z.ltb_spec ms s) as [Hlt|Hge].
    + exists (length cs). split; [by rewrite lookup_app_r, Nat.sub_diag by lia|].
      intros k' l' s' Hl. simpl.
      destruct (decide (k' < length cs)%nat) as [Hin|Hout].
      * rewrite lookup_app_l in Hl by done.
        destruct (Hmax k' l' s' Hl) as [Hle _]. split; lia.
      * rewrite lookup_app_r in Hl by lia.
        destruct (k' - length cs)%nat as [|d] eqn:Ed; [|done].
        injection Hl as <- <-. split; lia.
    + exists k. split; [by apply lookup_app_l_Some|].
      intros k' l' s' Hl. simpl.
      destruct (decide (k' < length cs)%nat) as [Hin|Hout].
      * rewrite lookup_app_l in Hl by done. by apply (Hmax k' l' s').
      * rewrite lookup_app_r in Hl by lia.
        destruct (k' - length cs)%nat as [|d] eqn:Ed; [|done].
        injection Hl as <- <-. split; [lia|].
        apply lookup_lt_Some in Hk. lia.
Qed.

Lemma elem_of_classOf labels l j :
  length labels = Z.to_nat size →
  j ∈ classOf labels size l ↔ rd labels j = Some l.
Proof.
  intros Hll. unfold classOf.
  rewrite list_elem_of_In, filter_In, <- list_elem_of_In, elem_of_seqZ,
    bool_decide_eq_true.
  split; [tauto|]. intros Hj. split; [|done].
  apply rd_Some_range in Hj. lia.
Qed.

(** Once every pixel is scanned, the pixels of a label list a component,
    and every component is listed by a label. *)
Lemma class_component st l :
  scanInv mask width height size st → 1 ≤ l < Mask.currentLabel st →
  component mask width height (classOf (Mask.labels st) size l).
Proof.
  intros [Hlv Hll Hvis Hcur Hlab Hclass Hsizes Hseed Hdone] Hl.
  destruct (Hseed l Hl) as (m & Hm & _ & _).
  split; [apply filter_NoDup, NoDup_seqZ|]. split.
  - intros Hnil. apply (elem_of_classOf _ l m Hll) in Hm.
    rewrite Hnil in Hm. by apply elem_of_nil in Hm.
  - intros i j Hi%elem_of_classOf; [|done]. rewrite elem_of_classOf by done.
    apply Hclass; [lia|done].
Qed.

Lemma component_class st C :
  scanInv mask width height size st → component mask width height C →
  ∃ l, 1 ≤ l < Mask.currentLabel st ∧
       C ≡ₚ classOf (Mask.labels st) size l.
Proof.
  intros [Hlv Hll Hvis Hcur Hlab Hclass Hsizes Hseed Hdone] (Hnd & Hne & Hcomp).
  destruct C as [|i C]; [done|].
  assert (conn i i) as Hii by (apply (Hcomp i i); apply list_elem_of_here).
  destruct (conn_left _ _ Hii) as [Hin Hfg].
  destruct (rd_in_range (Mask.labels st) i) as [l Hl].
  { unfold inMask in Hin. lia. }
  assert (l ≠ 0) as Hl0.
  { intros ->. by apply (Hdone i Hin Hfg). }
  exists l. split; [apply Hlab in Hl; lia|].
  apply NoDup_Permutation; [done|apply filter_NoDup, NoDup_seqZ|].
  intros j. rewrite elem_of_classOf by done.
  rewrite (Hcomp i j) by apply list_elem_of_here. symmetry. by apply Hclass.
Qed.

Lemma filter_spec :
  ∃ out,
    Mask.filterLargestComponent mask width height = Return out ∧
    filterPost mask width height out.
Proof.
  destruct (filterLargestComponent_returns mask width height) as (st & Hrun & Hll & ->);
    [nia|].
  eexists. split; [done|].
  rewrite raster_seqZ in Hrun.
  pose proof (scan_inv (Z.to_nat size) 0 _ st scanInv_init) as Hscan.
  rewrite Z.add_0_l, Z2Nat.id in Hscan by nia.
  apply Hscan in Hrun. clear Hscan.
  pose proof Hrun as [Hlv _ Hvis Hcur Hlab Hclass Hsizes Hseed Hdone].
  set (cs := Mask.componentSizes st) in *.
  assert (∀ i, inMask width height i →
    rd (Mask.newMaskAt mask (Mask.labels st) (Mask.pickLargest cs).1 <$> seqZ 0 size) i
    = Some (Mask.newMaskAt mask (Mask.labels st) (Mask.pickLargest cs).1 i)) as Hout.
  { intros i Hi. unfold inMask in Hi. unfold rd at 1.
    destruct (Z.ltb_spec i 0) as [?|_]; [lia|].
    rewrite list_lookup_fmap, lookup_seqZ_lt by lia. simpl. f_equal. f_equal. lia. }
  assert (∀ k l s, cs !! k = Some (l, s) → 0 ≤ s) as Hpos.
  { intros k l s Hk. rewrite Hsizes in Hk by (by eapply lookup_lt_Some).
    injection Hk as <- <-. lia. }
  split; [|split].
  - rewrite length_fmap, length_seqZ. lia.
  - intros [i0 Hi0].
    assert (inMask width height i0) as Hi0in by (by apply fg_inMask).
    destruct (rd_in_range (Mask.labels st) i0) as [l0 Hl0].
    { unfold inMask in Hi0in. lia. }
    assert (l0 ≠ 0) as Hl0z by (intros ->; by apply (Hdone i0 Hi0in Hi0)).
    destruct (pickLargest_spec cs Hpos) as [[Hnil _]|(k & Hk & Hmax)].
    { apply Hlab in Hl0. rewrite Hcur in Hl0. fold cs in Hl0. rewrite Hnil in Hl0.
      simpl in Hl0. lia. }
    pose proof (lookup_lt_Some _ _ _ Hk) as Hklt.
    rewrite Hsizes in Hk by done.
    destruct (Mask.pickLargest cs) as [maxLabel maxSize]. simpl in *.
    injection Hk as <- <-.
    set (maxLabel := Z.of_nat k + 1) in *.
    assert (1 ≤ maxLabel < Mask.currentLabel st) as HmaxL by (unfold maxLabel; lia).
    exists (classOf (Mask.labels st) size maxLabel). split; [split|].
    + by apply class_component.
    + intros C' HC'.
      destruct (component_class st C' Hrun HC') as (l' & Hl' & Hperm).
      rewrite (Permutation_length Hperm).
      assert (Z.to_nat (l' - 1) < length cs)%nat as Hl'lt by lia.
      pose proof (Hsizes _ Hl'lt) as Hl'k.
      replace (Z.of_nat (Z.to_nat (l' - 1)) + 1) with l' in Hl'k by lia.
      destruct (Hmax _ _ _ Hl'k) as [Hle Hstrict]. split; [lia|].
      intros Heq m m' [Hm Hmmin] [Hm' _].
      rewrite Hperm in Hm'. apply elem_of_classOf in Hm'; [|done].
      destruct (Hseed maxLabel HmaxL) as (m0 & Hm0 & _ & Hm0min).
      assert (m ≤ m0) by (by apply Hmmin, elem_of_classOf).
      assert (maxLabel ≤ l').
      { destruct (decide (maxLabel ≤ l')) as [|Hgt]; [done|].
        assert (Z.to_nat (l' - 1) < k)%nat as Hlt by (unfold maxLabel in Hgt; lia).
        specialize (Hstrict Hlt). lia. }
      specialize (Hm0min m' l' Hm'). lia.
    + intros i Hi. rewrite Hout by done. f_equal. unfold Mask.newMaskAt.
      destruct (rd_in_range mask i) as [v Hv]; [unfold inMask in Hi; lia|].
      rewrite Hv.
      destruct (bool_decide_reflect (rd (Mask.labels st) i = Some maxLabel)) as [Hl|Hl].
      * rewrite decide_True; [done|]. by apply elem_of_classOf.
      * rewrite decide_False; [done|]. by rewrite elem_of_classOf.
  - intros Hnone i Hi. rewrite Hout by done. f_equal. unfold Mask.newMaskAt.
    rewrite bool_decide_eq_false_2; [done|]. intros Hl.
    destruct (Z.eq_dec (Mask.pickLargest cs).1 0) as [Hz|Hnz].
    + destruct (pickLargest_spec cs Hpos) as [[_ Hp]|(k & Hk & _)].
      * rewrite Hp in Hz. done.
      * pose proof (lookup_lt_Some _ _ _ Hk) as Hklt.
        rewrite Hsizes in Hk by done. injection Hk as Hk.
        rewrite <- Hk in Hz. simpl in Hz. lia.
    + assert (conn i i) as Hc by (by apply (Hclass i i _ Hnz Hl)).
      destruct (conn_left _ _ Hc) as [_ Hfg]. by apply (Hnone i).
Qed.

End MaskSpec.

(** ** Largest component: the result *)

Lemma filter_spec_wf (mask : list Mask.float) (width height : Z) :
  wellFormedMask mask width height →
  ∃ out,
    Mask.filterLargestComponent mask width height = Return out ∧
    filterPost mask width height out.
Proof.
  intros (Hw & Hh & Hlen).
  destruct (decide (width = 0)) as [->|Hne].
  - destruct (filterLargestComponent_returns mask 0 height) as (st & _ & _ & ->);
      [lia|].
    eexists. split; [done|]. simpl in *.
    destruct mask; [|done]. split; [done|]. split.
    + intros [i (q & Hi & _)]. unfold rd in Hi. by destruct (i <? 0).
    + intros _ i Hi. unfold inMask in Hi. lia.
  - apply filter_spec; [lia|done|done].
Qed.

(** C3.  For a mask of [width * height] entries the filter returns a mask of
    the same length.  If some entry is a number greater than 0, there is a
    4-connected component of the entries greater than 0, of maximal size
    and, among those of that size, the one whose first pixel comes first in
    raster order, on which the output keeps the entries of the mask, every
    other entry being the negative sentinel [-10]; if no entry is greater
    than 0, every entry of the output is the sentinel.  The output is a new
    array: its reference is that of no array alive before the call, and
    every array alive before the call, the input among them, is left as it
    was. *)
Theorem filterLargestComponent_keeps_largest (mask : list Mask.float)
    (width height : Z) :
  wellFormedMask mask width height →
  ∃ out,
    Mask.filterLargestComponent mask width height = Return out ∧
    length out = length mask ∧
    ((∃ i, fg mask i) →
     ∃ C, largestFirst mask width height C ∧ keepsOnly mask out width height C) ∧
    ((∀ i, ¬ fg mask i) →
     ∀ i, inMask width height i → rd out i = Some (Mask.Num (-10))) ∧
    (∀ (arrays : Mask.Arrays) (maskData : nat),
       arrays !! maskData = Some mask →
       ∃ arrays' newMask,
         Mask.call arrays maskData width height = Return (arrays', newMask) ∧
         arrays !! newMask = None ∧
         arrays' !! newMask = Some out ∧
         arrays' !! maskData = Some mask ∧
         ∀ ref, ref ≠ newMask → arrays' !! ref = arrays !! ref).
Proof.
  intros Hwf.
  destruct (filter_spec_wf mask width height Hwf) as (out & Hrun & Hlen & Hfg & Hnone).
  exists out. repeat (split; [done|]).
  intros arrays maskData Hmask. unfold Mask.call. rewrite Hmask. simpl.
  rewrite Hrun. eexists _, _. split; [reflexivity|].
  assert (arrays !! fresh (dom arrays) = None) as Hnew
    by apply not_elem_of_dom, is_fresh.
  split; [done|]. split; [apply lookup_insert_eq|]. split.
  - etrans; [apply lookup_insert_ne|exact Hmask].
    intros Heq. rewrite Heq in Hnew. congruence.
  - intros ref Hne. by apply lookup_insert_ne.
Qed.

Lemma filterLargestComponent_keeps_largest_witness :
  ∃ out,
    Mask.filterLargestComponent sampleMask 4 3 = Return out ∧
    length out = length sampleMask ∧
    (∃ C, largestFirst sampleMask 4 3 C ∧ keepsOnly sampleMask out 4 3 C) ∧
    ∃ arrays' newMask,
      Mask.call {[ 1%nat := sampleMask ]} 1%nat 4 3
      = Return (arrays', newMask) ∧
      arrays' !! 1%nat = Some sampleMask ∧ newMask ≠ 1%nat.
Proof.
  destruct (filterLargestComponent_keeps_largest sampleMask 4 3)
    as (out & Hrun & Hlen & Hfg & _ & Hcall).
  - unfold wellFormedMask. simpl. lia.
  - exists out. split; [exact Hrun|]. split; [exact Hlen|].
    split; [apply Hfg; exists 0, 1%Q; split; reflexivity|].
    destruct (Hcall {[ 1%nat := sampleMask ]} 1%nat)
      as (arrays' & newMask & Hrun' & Hnew & _ & _ & Hsame);
      [apply lookup_singleton_eq|].
    assert (newMask ≠ 1%nat) as Hne.
    { intros ->. unfold Mask.Arrays in *.
      rewrite lookup_singleton_eq in Hnew. discriminate Hnew. }
    exists arrays', newMask. split; [exact Hrun'|]. split; [|exact Hne].
    rewrite (Hsame 1%nat); [apply lookup_singleton_eq|].
    intros Heq. apply Hne. symmetry. exact Heq.
Defined.

(** ** Largest component: filtering twice *)

Lemma fg_decide (mask : list Mask.float) :
  (∃ i, fg mask i) ∨ (∀ i, ¬ fg mask i).
Proof.
  destruct (decide (Exists (fun i => Mask.positive (rd mask i) = true)
                           (seqZ 0 (Z.of_nat (length mask))))) as [Hex|Hno].
  - left. apply Exists_exists in Hex as (i & _ & Hi). exists i.
    by apply fg_positive.
  - right. intros i Hi. apply Hno, Exists_exists. exists i.
    split; [|by apply fg_positive].
    apply elem_of_seqZ. destruct Hi as (q & E & _).
    apply rd_Some_range in E. lia.
Qed.

Lemma conn_transfer (mask out : list Mask.float) (width height i j : Z) :
  (∀ k, connected mask width height i k → fg out k) →
  connected mask width height i j → connected out width height i j.
Proof.
  intros Hfg. induction 1 as [Hin Hi|j k Hij IH Hadj Hin Hk].
  - constructor; [done|]. apply Hfg. by constructor.
  - eapply conn_step; [exact IH|done|done|]. apply Hfg. by eapply conn_step.
Qed.

Lemma sentinel_not_positive : Mask.positive (Some Mask.sentinel) = false.
Proof. reflexivity. Qed.

Lemma filter_twice (mask : list Mask.float) (width height : Z) :
  wellFormedMask mask width height →
  ∃ out,
    Mask.filterLargestComponent mask width height = Return out ∧
    Mask.filterLargestComponent out width height = Return out.
Proof.
  intros Hwf. pose proof Hwf as (Hw & Hh & Hlen).
  destruct (filter_spec_wf mask width height Hwf) as (out & Hrun & Hlo & Hsome & Hnone).
  exists out. split; [done|].
  assert (wellFormedMask out width height) as Hwf' by (unfold wellFormedMask; lia).
  destruct (filter_spec_wf out width height Hwf') as (out2 & -> & Hlo2 & Hsome2 & Hnone2).
  f_equal.
  assert (∀ i, inMask width height i → rd out2 i = rd out i) as Hsame.
  2:{ apply list_eq. intros k.
      destruct (decide (k < length out)%nat) as [Hk|Hk].
      - rewrite <- !rd_of_nat. apply Hsame. unfold inMask. lia.
      - rewrite !lookup_ge_None_2; [done|lia|lia]. }
  destruct (fg_decide mask) as [Hex|Hno].
  - destruct (Hsome Hex) as (C & [(HCnd & HCne & HCconn) _] & Hkeep).
    assert (∀ i, i ∈ C → inMask width height i ∧ fg mask i) as HCin.
    { intros i Hi. pose proof (proj1 (HCconn i i Hi) Hi) as Hc.
      inversion Hc; subst; [done|]. done. }
    assert (∀ i, fg out i ↔ i ∈ C) as Hfgout.
    { intros i. split.
      - intros Hi. apply fg_positive in Hi. unfold Mask.positive in Hi.
        destruct (rd out i) as [v|] eqn:E; [|done].
        assert (inMask width height i) as Hin.
        { apply rd_Some_range in E. unfold inMask. lia. }
        rewrite Hkeep in E by done. destruct (decide (i ∈ C)); [done|].
        injection E as <-. done.
      - intros Hi. destruct (HCin i Hi) as [Hin Hfg]. unfold fg.
        by rewrite Hkeep, decide_True. }
    destruct C as [|c0 C0] eqn:EC; [done|]. rewrite <- EC in *.
    assert (c0 ∈ C) as Hc0 by (rewrite EC; apply list_elem_of_here).
    destruct Hsome2 as (C2 & [(HC2nd & HC2ne & HC2conn) _] & Hkeep2).
    { exists c0. by apply Hfgout. }
    assert (∀ i, i ∈ C2 ↔ i ∈ C) as HC2.
    { destruct C2 as [|c2 C2'] eqn:EC2; [done|]. rewrite <- EC2 in *.
      assert (c2 ∈ C2) as Hc2 by (rewrite EC2; apply list_elem_of_here).
      assert (∀ i, i ∈ C2 → i ∈ C) as Hsub.
      { intros i Hi. apply Hfgout.
        pose proof (proj1 (HC2conn i i Hi) Hi) as Hc.
        inversion Hc; subst; done. }
      intros i. split; [apply Hsub|]. intros Hi.
      apply (HC2conn c2 i Hc2). apply (conn_transfer mask out).
      - intros k Hk. apply Hfgout. by apply (HCconn c2 k (Hsub c2 Hc2)).
      - by apply (HCconn c2 i (Hsub c2 Hc2)). }
    intros i Hin. rewrite Hkeep2 by done.
    destruct (decide (i ∈ C2)) as [Hi|Hi]; [done|].
    rewrite Hkeep, decide_False; [done| |done]. by rewrite <- HC2.
  - assert (∀ i, ¬ fg out i) as Hno'.
    { intros i Hi. apply fg_positive in Hi. unfold Mask.positive in Hi.
      destruct (rd out i) as [v|] eqn:E; [|done].
      assert (inMask width height i) as Hin.
      { apply rd_Some_range in E. unfold inMask. lia. }
      rewrite (Hnone Hno i Hin) in E. injection E as <-. done. }
    intros i Hin. by rewrite (Hnone2 Hno' i Hin), (Hnone Hno i Hin).
Qed.

(** C10.  Filtering the output of the filter, with the same width and
    height, returns that output again. *)
Theorem filterLargestComponent_idempotent (mask : list Mask.float)
    (width height : Z) :
  wellFormedMask mask width height →
  ∃ out,
    Mask.filterLargestComponent mask width height = Return out ∧
    Mask.filterLargestComponent out width height = Return out.
Proof. apply filter_twice. Qed.

Lemma filterLargestComponent_idempotent_witness :
  ∃ out,
    Mask.filterLargestComponent sampleMask 4 3 = Return out ∧
    Mask.filterLargestComponent out 4 3 = Return out.
Proof.
  apply filterLargestComponent_idempotent. unfold wellFormedMask. simpl. lia.
Defined.

(** ** Malformed arguments *)

(** On an image of positive width and height whose buffer has at least
    four bytes a pixel, every read of the detector is inside the buffer. *)
Lemma reads_in_range (img : ImageData) (d : SplitDirection) (i j c : Z) :
  0 < width img → 0 < height img →
  width img * height img * 4 ≤ Z.of_nat (length (data img)) →
  0 ≤ i < Seam.limitOf img d → 0 ≤ j < Seam.crossLimitOf img d → 0 ≤ c < 4 →
  is_Some (rd (data img) (Seam.pixelIdx img d i j + c)).
Proof.
  intros Hw Hh Hlen. unfold Seam.limitOf, Seam.crossLimitOf, Seam.pixelIdx.
  destruct (Seam.isHorizontal d); intros Hi Hj Hc; apply rd_in_range; nia.
Qed.

Lemma filterLargestComponent_outcome (mask : list Mask.float) (width height : Z) :
  (width * height < 0 →
   Mask.filterLargestComponent mask width height = Throw RangeError) ∧
  (0 ≤ width * height →
   ∃ out, Mask.filterLargestComponent mask width height = Return out ∧
          Z.of_nat (length out) = width * height).
Proof.
  split.
  - intros Hneg. unfold Mask.filterLargestComponent.
    by destruct (Z.ltb_spec (width * height) 0) as [_|?]; [|lia].
  - intros Hsize.
    destruct (filterLargestComponent_returns mask width height Hsize)
      as (st & _ & _ & ->).
    eexists. split; [done|]. rewrite length_fmap, length_seqZ. lia.
Qed.

Lemma detectAxis_outcome (sqrt : Q → Q) (img : ImageData) (d : SplitDirection) :
  0 ≤ Seam.limitOf img d → ∃ splits, Seam.detectAxis sqrt img d = Return splits.
Proof.
  unfold Seam.detectAxis. intros Hl.
  destruct (Z.ltb_spec (Seam.limitOf img d) 0) as [?|_]; [lia|].
  destruct (detectEdges_terminates sqrt
              (Seam.smooth Seam.smoothWindow (Seam.computeScores img d))
              (Seam.limitOf img d)) as [edges ->].
  by eexists.
Qed.

(** C6 (as amended).  Neither entry point checks its arguments.  The mask
    filter reports the [RangeError] of its first allocation when
    [width * height] is negative; whenever [width * height] is between 0 and
    the length of the mask it returns a mask of [width * height] entries,
    also when a dimension is not positive or the mask is longer than
    [width * height].  The seam detector returns a split list for every
    image of positive width and height whose buffer has at least
    [4 * width * height] bytes, also when it has more, and reads inside the
    buffer only. *)
Theorem entry_points_do_not_validate (sqrt : Q → Q)
    (mask : list Mask.float) (maskWidth maskHeight : Z)
    (img : ImageData) (d : SplitDirection) :
  (maskWidth * maskHeight < 0 →
   Mask.filterLargestComponent mask maskWidth maskHeight = Throw RangeError) ∧
  (0 ≤ maskWidth * maskHeight ≤ Z.of_nat (length mask) →
   ∃ out, Mask.filterLargestComponent mask maskWidth maskHeight = Return out ∧
          Z.of_nat (length out) = maskWidth * maskHeight) ∧
  (0 < width img → 0 < height img →
   width img * height img * 4 ≤ Z.of_nat (length (data img)) →
   (∃ splits, Seam.detectAxis sqrt img d = Return splits) ∧
   ∀ i j c, 0 ≤ i < Seam.limitOf img d → 0 ≤ j < Seam.crossLimitOf img d →
            0 ≤ c < 4 →
            is_Some (rd (data img) (Seam.pixelIdx img d i j + c))).
Proof.
  destruct (filterLargestComponent_outcome mask maskWidth maskHeight) as [H1 H2].
  split; [done|]. split; [intros [Hsize _]; by apply H2|].
  intros Hw Hh Hlen. split.
  - apply detectAxis_outcome. unfold Seam.limitOf.
    destruct (Seam.isHorizontal d); lia.
  - intros i j c. by apply reads_in_range.
Qed.

Lemma entry_points_do_not_validate_witness :
  Mask.filterLargestComponent [Mask.Num 1] (-1) 1 = Throw RangeError ∧
  (∃ out, Mask.filterLargestComponent
            [Mask.Num 1; Mask.Num 1; Mask.Num 1; Mask.Num 1; Mask.Num 1] 2 2
          = Return out ∧ Z.of_nat (length out) = 2 * 2) ∧
  (∃ splits, Seam.detectAxis (fun x => x) paddedImage HORIZONTAL = Return splits).
Proof.
  split; [|split].
  - apply (entry_points_do_not_validate (fun x => x)
             [Mask.Num 1] (-1) 1 paddedImage HORIZONTAL). lia.
  - apply (entry_points_do_not_validate (fun x => x)
             [Mask.Num 1; Mask.Num 1; Mask.Num 1; Mask.Num 1; Mask.Num 1] 2 2
             paddedImage HORIZONTAL).
    simpl. lia.
  - apply (entry_points_do_not_validate (fun x => x)
             [Mask.Num 1] (-1) 1 paddedImage HORIZONTAL); simpl; lia.
Defined.

(** C6 (as stated) fails: a mask shorter than [width * height], a mask
    longer than it, a mask with two negative dimensions and an image whose
    buffer is too long are all processed without an error. *)
Lemma malformed_arguments_accepted :
  malformedMask [] 1 1 ∧
  Mask.filterLargestComponent [] 1 1 = Return [Mask.Num (-10)] ∧
  malformedMask [Mask.Num 1; Mask.Num 1] 1 1 ∧
  Mask.filterLargestComponent [Mask.Num 1; Mask.Num 1] 1 1 = Return [Mask.Num 1] ∧
  malformedMask [Mask.Num 1] (-1) (-1) ∧
  Mask.filterLargestComponent [Mask.Num 1] (-1) (-1) = Return [Mask.Num (-10)] ∧
  malformedImage paddedImage ∧
  Seam.detectAxis (fun x => x) paddedImage HORIZONTAL = Return [1].
Proof.
  split; [right; right; simpl; lia|]. split; [reflexivity|].
  split; [right; right; simpl; lia|]. split; [reflexivity|].
  split; [left; lia|]. split; [reflexivity|].
  split; [right; right; simpl; lia|]. reflexivity.
Qed.

(* ================================================================== *)
(** * Properties of the rest of the engine *)

(** ** The editing history *)

Lemma slice0_take {A} (arr : list A) (stop : Z) :
  0 ≤ stop → History.slice0 arr stop = take (Z.to_nat stop) arr.
Proof.
  intros Hs. unfold History.slice0.
  by destruct (Z.ltb_spec stop 0) as [?|_]; [lia|].
Qed.

Lemma push_state (st : History.State) (newSrc : String.string) :
  historyOk st →
  (History.pushToHistory st newSrc).1
  = History.mkState
      (take (Z.to_nat (History.currentStep st + 1)) (History.history st) ++ [newSrc])
      (History.currentStep st + 1) ∧
  length (take (Z.to_nat (History.currentStep st + 1)) (History.history st))
  = Z.to_nat (History.currentStep st + 1).
Proof.
  intros [H0 H1]. unfold History.pushToHistory. simpl.
  rewrite slice0_take by lia. split; [done|].
  rewrite length_take. lia.
Qed.

Lemma historyOk_step (st : History.State) (op : History.Op) :
  historyOk st → historyOk (History.step st op).
Proof.
  intros Hok. pose proof Hok as [H0 H1].
  destruct op as [s| | |s]; cbn [History.step].
  - destruct (push_state st s Hok) as [-> Hlen].
    unfold historyOk. simpl. rewrite length_app, Hlen. simpl. lia.
  - unfold History.handleUndo.
    destruct (Z.ltb_spec 0 (History.currentStep st)); [|done].
    unfold historyOk. simpl. lia.
  - unfold History.handleRedo.
    destruct (Z.ltb_spec (History.currentStep st)
                (Z.of_nat (length (History.history st)) - 1)); [|done].
    unfold historyOk. simpl. lia.
  - unfold historyOk. simpl. lia.
Qed.

Lemma historyOk_current (st : History.State) :
  historyOk st → is_Some (History.currentSrc st).
Proof. intros Hok. apply rd_in_range. exact Hok. Qed.

Lemma rd_app_l {A} (l k : list A) (i : Z) :
  i < Z.of_nat (length l) → rd (l ++ k) i = rd l i.
Proof.
  intros Hi. unfold rd. destruct (Z.ltb_spec i 0) as [?|?]; [done|].
  apply lookup_app_l. lia.
Qed.

Lemma rd_snoc {A} (l : list A) (x : A) :
  rd (l ++ [x]) (Z.of_nat (length l)) = Some x.
Proof.
  rewrite rd_of_nat, lookup_app_r by lia. by rewrite Nat.sub_diag.
Qed.

Lemma rd_take {A} (l : list A) (n : nat) (i : Z) :
  i < Z.of_nat n → rd (take n l) i = rd l i.
Proof.
  intros Hi. unfold rd. destruct (Z.ltb_spec i 0) as [?|?]; [done|].
  apply lookup_take_lt. lia.
Qed.

Lemma pushToHistory_spec (st : History.State) (newSrc : String.string) :
  historyOk st →
  let st' := (History.pushToHistory st newSrc).1 in
  History.history st'
  = take (Z.to_nat (History.currentStep st + 1)) (History.history st) ++ [newSrc] ∧
  Z.of_nat (length (History.history st')) = History.currentStep st + 2 ∧
  (∀ k, 0 ≤ k ≤ History.currentStep st →
        rd (History.history st') k = rd (History.history st) k) ∧
  History.currentSrc st' = Some newSrc ∧
  History.canRedo st' = false ∧
  History.canUndo st' = true.
Proof.
  intros Hok st'. pose proof Hok as [H0 H1].
  destruct (push_state st newSrc Hok) as [Hst Hlen].
  subst st'. rewrite Hst. simpl.
  split; [done|]. split; [rewrite length_app, Hlen; simpl; lia|].
  split; [|split; [|split]].
  - intros k Hk. rewrite rd_app_l by lia. apply rd_take. lia.
  - unfold History.currentSrc. simpl.
    set (kept := take _ _) in *.
    replace (History.currentStep st + 1) with (Z.of_nat (length kept)) by lia.
    apply rd_snoc.
  - unfold History.canRedo. simpl. rewrite length_app, Hlen. simpl.
    apply Z.ltb_ge. lia.
  - unfold History.canUndo. simpl. apply Z.ltb_lt. lia.
Qed.

(** X2.  A push keeps the history up to the current step, drops what could
    have been redone, and puts the new image last: after it nothing can be
    redone, one step can be undone and the new image is the current one. *)
Theorem push_truncates_redo (st : History.State) (newSrc : String.string) :
  historyOk st →
  let st' := (History.pushToHistory st newSrc).1 in
  History.history st'
  = take (Z.to_nat (History.currentStep st + 1)) (History.history st) ++ [newSrc] ∧
  Z.of_nat (length (History.history st')) = History.currentStep st + 2 ∧
  (∀ k, 0 ≤ k ≤ History.currentStep st →
        rd (History.history st') k = rd (History.history st) k) ∧
  History.currentSrc st' = Some newSrc ∧
  History.canRedo st' = false ∧
  History.canUndo st' = true.
Proof. apply pushToHistory_spec. Qed.

Lemma push_truncates_redo_witness :
  History.history
    (History.pushToHistory sampleHistory Samples.imgD).1
  = [Samples.imgA; Samples.imgB; Samples.imgD].
Proof.
  destruct (push_truncates_redo sampleHistory Samples.imgD)
    as [Hh _].
  - unfold historyOk. simpl. lia.
  - exact Hh.
Defined.

Lemma call_rendered (st : History.State) (op : History.Op) :
  History.live (History.call (History.mkHook st st) op).1 = History.step st op.
Proof.
  destruct op as [s| | |s]; simpl; try done.
  - unfold History.handleUndo. by destruct (0 <? History.currentStep st).
  - unfold History.handleRedo. by destruct (_ <? _).
Qed.

Lemma session_steps (initialSrc : String.string) (ops : list History.Op) :
  History.session initialSrc ops
  = History.mkHook (foldl History.step (History.init initialSrc) ops)
                   (foldl History.step (History.init initialSrc) ops).
Proof.
  unfold History.session, History.mount.
  generalize (History.init initialSrc). intros st. revert st.
  induction ops as [|op ops IH]; intros st; simpl; [done|].
  unfold History.render at 2. rewrite call_rendered. apply IH.
Qed.

(** X1.  In a session in which React renders after each call, as between
    two clicks, the step stays an index of the history whatever the calls,
    so that there is always a current image.  Two pushes made from the same
    render break this: the second one cuts the history with the step of the
    render while the step is increased twice, and no image is current. *)
Theorem history_always_has_current (initialSrc : String.string)
    (ops : list History.Op) :
  historyOk (History.live (History.session initialSrc ops)) ∧
  is_Some (History.currentSrc (History.live (History.session initialSrc ops))) ∧
  ∀ st a b,
    historyOk st →
    let twice :=
      History.live
        (History.call (History.call (History.mkHook st st) (History.Push a)).1
                      (History.Push b)).1 in
    History.history twice
    = take (Z.to_nat (History.currentStep st + 1)) (History.history st) ++ [b] ∧
    History.currentStep twice = History.currentStep st + 2 ∧
    History.currentSrc twice = None.
Proof.
  rewrite session_steps. cbn [History.live].
  assert (historyOk (foldl History.step (History.init initialSrc) ops)) as Hok.
  { assert (historyOk (History.init initialSrc)) as Hinit
      by (unfold historyOk; simpl; lia).
    revert Hinit. generalize (History.init initialSrc).
    induction ops as [|op ops IH]; intros st Hst; simpl; [done|].
    by apply IH, historyOk_step. }
  split; [done|]. split; [by apply historyOk_current|].
  intros st a b [H0 H1]. simpl.
  rewrite !slice0_take by lia.
  set (kept := take (Z.to_nat (History.currentStep st + 1)) (History.history st)).
  assert (length kept = Z.to_nat (History.currentStep st + 1)) as Hlen.
  { unfold kept. rewrite length_take. lia. }
  assert (take (Z.to_nat (History.currentStep st + 1)) (kept ++ [a]) = kept) as ->.
  { rewrite <- Hlen. by rewrite take_app_length. }
  split; [done|]. split; [lia|].
  unfold History.currentSrc. simpl. apply rd_out_of_range.
  rewrite length_app, Hlen. simpl. lia.
Qed.

(** X3.  Undoing a push shows the image that was current before it, and
    redoing shows the pushed image again. *)
Theorem push_undo_redo (st : History.State) (newSrc : String.string) :
  historyOk st →
  let pushed := (History.pushToHistory st newSrc).1 in
  let undone := (History.handleUndo pushed).1 in
  History.currentSrc undone = History.currentSrc st ∧
  History.currentStep undone = History.currentStep st ∧
  (History.handleRedo undone).1 = pushed.
Proof.
  intros Hok pushed undone. pose proof Hok as [H0 H1].
  destruct (push_state st newSrc Hok) as [Hst Hlen].
  subst undone pushed. rewrite Hst. unfold History.handleUndo. simpl.
  destruct (Z.ltb_spec 0 (History.currentStep st + 1)) as [_|?]; [|lia]. simpl.
  replace (History.currentStep st + 1 - 1) with (History.currentStep st) by lia.
  split; [|split; [done|]].
  - unfold History.currentSrc. simpl. rewrite rd_app_l by lia. apply rd_take. lia.
  - unfold History.handleRedo. simpl. rewrite length_app, Hlen. simpl.
    by destruct (Z.ltb_spec (History.currentStep st)
                   (Z.of_nat (Z.to_nat (History.currentStep st + 1) + 1) - 1))
      as [_|?]; [|lia].
Qed.

Lemma push_undo_redo_witness :
  History.currentSrc
    (History.handleUndo
       (History.pushToHistory sampleHistory Samples.imgD).1).1
  = Some Samples.imgB.
Proof.
  destruct (push_undo_redo sampleHistory Samples.imgD)
    as [Hc _].
  - unfold historyOk. simpl. lia.
  - exact Hc.
Defined.

(** X4.  Undo and redo undo each other: where one step can be undone, redo
    after undo gives the state back, and where one can be redone, undo after
    redo does. *)
Theorem undo_redo_inverse (st : History.State) :
  historyOk st →
  (History.canUndo st = true →
   (History.handleRedo (History.handleUndo st).1).1 = st) ∧
  (History.canRedo st = true →
   (History.handleUndo (History.handleRedo st).1).1 = st).
Proof.
  intros [H0 H1]. destruct st as [h c]. simpl in *.
  unfold History.canUndo, History.canRedo, History.handleUndo, History.handleRedo.
  simpl. split; intros Hcan; rewrite Hcan; simpl.
  - apply Z.ltb_lt in Hcan.
    destruct (Z.ltb_spec (c - 1) (Z.of_nat (length h) - 1)) as [_|?]; [|lia].
    simpl. f_equal. lia.
  - apply Z.ltb_lt in Hcan.
    destruct (Z.ltb_spec 0 (c + 1)) as [_|?]; [|lia].
    simpl. f_equal. lia.
Qed.

Lemma undo_redo_inverse_witness :
  (History.handleRedo
     (History.handleUndo sampleHistory).1).1
  = sampleHistory.
Proof.
  destruct (undo_redo_inverse sampleHistory)
    as [Hu _].
  - unfold historyOk. simpl. lia.
  - apply Hu. reflexivity.
Defined.

(** X5.  Whenever the hook calls [onHistoryChange], it passes the image and
    the step that are current after the call.  It makes no call exactly on
    an undo at step 0 and on a redo at the last step, which leave the state
    as it is. *)
Theorem notice_is_current (st : History.State) (op : History.Op) :
  historyOk st →
  let result :=
    match op with
    | History.Push newSrc => History.pushToHistory st newSrc
    | History.Undo => History.handleUndo st
    | History.Redo => History.handleRedo st
    | History.Reset newSrc => History.resetHistory newSrc
    end in
  (∀ src stepNo, result.2 = Some (src, stepNo) →
     src = History.currentSrc result.1 ∧ stepNo = History.currentStep result.1) ∧
  (result.2 = None
   ↔ (op = History.Undo ∧ History.currentStep st = 0)
     ∨ (op = History.Redo
        ∧ History.currentStep st = Z.of_nat (length (History.history st)) - 1)) ∧
  (result.2 = None → result.1 = st).
Proof.
  intros Hok result. subst result. pose proof Hok as [H0 H1].
  destruct op as [s| | |s].
  - pose proof (pushToHistory_spec st s Hok) as (_ & _ & _ & Hcur & _).
    simpl in Hcur. simpl. split; [|split; [|done]].
    + intros src stepNo [= <- <-]. by rewrite Hcur.
    + split; [done|]. by intros [[? _]|[? _]].
  - unfold History.handleUndo.
    destruct (Z.ltb_spec 0 (History.currentStep st)) as [Hpos|Hzero]; simpl.
    + split; [by intros src stepNo [= <- <-]|]. split; [|done].
      split; [done|]. intros [[_ ?]|[? _]]; [lia|done].
    + split; [done|]. split; [|done].
      split; [|done]. intros _. left. split; [done|lia].
  - unfold History.handleRedo.
    destruct (Z.ltb_spec (History.currentStep st)
                (Z.of_nat (length (History.history st)) - 1)) as [Hlt|Hlast]; simpl.
    + split; [by intros src stepNo [= <- <-]|]. split; [|done].
      split; [done|]. intros [[? _]|[_ ?]]; [done|lia].
    + split; [done|]. split; [|done].
      split; [|done]. intros _. right. split; [done|lia].
  - simpl. split; [by intros src stepNo [= <- <-]|]. split; [|done].
    split; [done|]. by intros [[? _]|[? _]].
Qed.

Lemma notice_is_current_witness :
  Some Samples.imgB
  = History.currentSrc (History.handleUndo (History.mkState [Samples.imgA; Samples.imgB; Samples.imgC] 2)).1.
Proof.
  destruct (notice_is_current (History.mkState [Samples.imgA; Samples.imgB; Samples.imgC] 2) History.Undo)
    as [Hnotice _].
  - unfold historyOk. simpl. lia.
  - destruct (Hnotice (Some Samples.imgB) 1) as [Hs _]; [reflexivity|exact Hs].
Defined.

(** X6.  On a state whose step is an index of the history, the helpers
    written out in ImageEditor.tsx do what the hook does. *)
Theorem editor_history_agrees (st : History.State) (newSrc : String.string) :
  historyOk st →
  History.editorPush st newSrc = (History.pushToHistory st newSrc).1 ∧
  History.editorUndo st = (History.handleUndo st).1.
Proof.
  intros Hok. destruct (push_state st newSrc Hok) as [Hst Hlen]. split.
  - rewrite Hst. unfold History.editorPush.
    pose proof Hok as [H0 H1]. rewrite slice0_take by lia.
    f_equal. rewrite length_app, Hlen. simpl. lia.
  - unfold History.editorUndo, History.handleUndo.
    by destruct (0 <? History.currentStep st).
Qed.

Lemma editor_history_agrees_witness :
  History.editorPush sampleHistory Samples.imgD
  = (History.pushToHistory sampleHistory Samples.imgD).1.
Proof.
  destruct (editor_history_agrees sampleHistory Samples.imgD)
    as [Hp _].
  - unfold historyOk. simpl. lia.
  - exact Hp.
Defined.

(** ** Zooming *)

Lemma zoom_step_in_range (minZoom maxZoom zoomStep z : Q) (op : Zoom.Op) :
  (minZoom <= maxZoom)%Q → (0 <= zoomStep)%Q →
  zoomInRange minZoom maxZoom z →
  zoomInRange minZoom maxZoom (Zoom.step minZoom maxZoom zoomStep z op).
Proof.
  intros Hmm Hstep [Hlo Hhi]. unfold zoomInRange.
  destruct op as [| |deltaY]; simpl.
  - unfold Zoom.zoomIn. split; [|apply Q.le_min_l].
    apply Q.min_glb; [done|].
    eapply Qle_trans; [exact Hlo|].
    rewrite <- (Qplus_0_r z) at 1. by apply Qplus_le_r.
  - unfold Zoom.zoomOut. split; [apply Q.le_max_l|].
    apply Q.max_lub; [done|].
    eapply Qle_trans; [|exact Hhi].
    rewrite <- (Qplus_0_r z) at 2. unfold Qminus. apply Qplus_le_r.
    apply (Qopp_le_compat 0). done.
  - unfold Zoom.wheelZoom. split; [apply Q.le_max_l|].
    apply Q.max_lub; [done|apply Q.le_min_l].
Qed.

(** X7.  With [minZoom <= maxZoom] and a step that is not negative, a zoom
    inside the bounds stays inside them through every sequence of zoom-in,
    zoom-out and wheel events; a wheel event brings any zoom inside. *)
Theorem zoom_stays_in_range (minZoom maxZoom zoomStep z : Q) (ops : list Zoom.Op) :
  (minZoom <= maxZoom)%Q → (0 <= zoomStep)%Q →
  (zoomInRange minZoom maxZoom z →
   zoomInRange minZoom maxZoom (foldl (Zoom.step minZoom maxZoom zoomStep) z ops)) ∧
  (∀ deltaY,
     zoomInRange minZoom maxZoom (Zoom.wheelZoom minZoom maxZoom zoomStep deltaY z)).
Proof.
  intros Hmm Hstep. split.
  - revert z. induction ops as [|op ops IH]; intros z Hz; simpl; [done|].
    by apply IH, zoom_step_in_range.
  - intros deltaY. unfold zoomInRange, Zoom.wheelZoom.
    split; [apply Q.le_max_l|].
    apply Q.max_lub; [done|apply Q.le_min_l].
Qed.

Lemma zoom_stays_in_range_witness :
  zoomInRange (1 # 10) (10 # 1)
    (foldl (Zoom.step (1 # 10) (10 # 1) (1 # 10)) (1 # 1)
           [Zoom.ZoomIn; Zoom.Wheel (3 # 1); Zoom.ZoomOut; Zoom.ZoomOut]).
Proof.
  apply (zoom_stays_in_range (1 # 10) (10 # 1) (1 # 10) (1 # 1)).
  - unfold Qle. simpl. lia.
  - unfold Qle. simpl. lia.
  - unfold zoomInRange, Qle. simpl. lia.
Defined.

(** ** Cleaning transparent pixels *)

Lemma rd_ext {A} (a b : list A) : (∀ j, rd a j = rd b j) → a = b.
Proof.
  intros H. apply list_eq. intros k. rewrite <- !rd_of_nat. apply H.
Qed.

Lemma length_cleanStep data i : length (Clean.cleanStep data i) = length data.
Proof.
  unfold Clean.cleanStep. destruct (Flood.isZero _); [|done].
  by rewrite !length_wr.
Qed.

Lemma isZero_Some_0 a : Flood.isZero a = true ↔ a = Some 0.
Proof. split; [by destruct a as [[| |]|]|by intros ->]. Qed.

Lemma rd_cleanStep data i j :
  i mod 4 = 0 →
  rd (Clean.cleanStep data i) j
  = if decide (j mod 4 ≠ 3 ∧ j - j mod 4 = i ∧ rd data (i + 3) = Some 0)
    then (fun _ => 0) <$> rd data j else rd data j.
Proof.
  intros Hi. unfold Clean.cleanStep.
  destruct (Flood.isZero (rd data (i + 3))) eqn:Hz.
  - apply isZero_Some_0 in Hz. rewrite !rd_wr.
    assert ((i + 1) mod 4 = 1) as H1m by (by rewrite Z.add_mod, Hi by lia).
    assert ((i + 2) mod 4 = 2) as H2m by (by rewrite Z.add_mod, Hi by lia).
    pose proof (Z.mod_pos_bound j 4 ltac:(lia)) as Hbj.
    destruct (decide (j mod 4 ≠ 3 ∧ j - j mod 4 = i ∧ rd data (i + 3) = Some 0))
      as [(Hm & Heq & _)|Hno].
    + repeat case_decide; try lia; by destruct (rd data j).
    + repeat case_decide; try done; exfalso; apply Hno; subst j;
        rewrite ?H1m, ?H2m, ?Hi; (split; [lia|split; [lia|done]]).
  - rewrite decide_False; [done|]. intros (_ & _ & Ha).
    by rewrite Ha in Hz.
Qed.

Lemma rd_foldl_cleanStep ks data j :
  (∀ i, i ∈ ks → i mod 4 = 0) →
  rd (foldl Clean.cleanStep data ks) j
  = if decide (j mod 4 ≠ 3 ∧ j - j mod 4 ∈ ks ∧ rd data (j - j mod 4 + 3) = Some 0)
    then (fun _ => 0) <$> rd data j else rd data j.
Proof.
  revert data. induction ks as [|i ks IH]; intros data Hks.
  - simpl. rewrite decide_False; [done|]. intros (_ & H%elem_of_nil & _). done.
  - cbn [foldl].
    assert (i mod 4 = 0) as Hi by (apply Hks, list_elem_of_here).
    rewrite IH by (intros ??; by apply Hks, list_elem_of_further).
    assert (rd (Clean.cleanStep data i) (j - j mod 4 + 3) = rd data (j - j mod 4 + 3))
      as Halpha.
    { rewrite rd_cleanStep by done. rewrite decide_False; [done|].
      intros (Hm & _). apply Hm.
      pose proof (Z.mod_pos_bound j 4 ltac:(lia)).
      replace (j - j mod 4 + 3) with (3 + (j / 4) * 4)
        by (pose proof (Z.div_mod j 4 ltac:(lia)); lia).
      by rewrite Z.mod_add by lia. }
    rewrite Halpha, rd_cleanStep by done.
    destruct (decide (j mod 4 ≠ 3 ∧ j - j mod 4 ∈ ks
                      ∧ rd data (j - j mod 4 + 3) = Some 0)) as [(Hm & Hin & Ha)|Hno].
    + rewrite (decide_True (P := j mod 4 ≠ 3 ∧ j - j mod 4 ∈ i :: ks
                                  ∧ rd data (j - j mod 4 + 3) = Some 0)).
      2:{ split; [done|]. split; [by apply list_elem_of_further|done]. }
      destruct (decide _); by destruct (rd data j).
    + destruct (decide (j mod 4 ≠ 3 ∧ j - j mod 4 = i ∧ rd data (i + 3) = Some 0))
        as [(Hm & Heq & Ha)|Hno'].
      * rewrite decide_True; [done|]. subst i. split; [done|]. split; [apply list_elem_of_here|done].
      * rewrite decide_False; [done|]. intros (Hm & [Heq|Hin]%elem_of_cons & Ha).
        -- apply Hno'. by subst i.
        -- by apply Hno.
Qed.

Lemma cleanTransparentPixels_spec (data : list Z) (j : Z) :
  length (Clean.cleanTransparentPixels data) = length data ∧
  rd (Clean.cleanTransparentPixels data) j
  = if decide (j mod 4 ≠ 3 ∧ rd data (j - j mod 4 + 3) = Some 0)
    then Some 0 else rd data j.
Proof.
  unfold Clean.cleanTransparentPixels. split.
  - generalize (stepRange (Z.of_nat (length data)) 4). intros ks.
    revert data. induction ks as [|i ks IH]; intros data; simpl; [done|].
    by rewrite IH, length_cleanStep.
  - rewrite rd_foldl_cleanStep.
    2:{ unfold stepRange. intros i (k & -> & _)%list_elem_of_fmap.
        by rewrite Z.mod_mul by lia. }
    pose proof (Z.mod_pos_bound j 4 ltac:(lia)) as Hb.
    pose proof (Z.div_mod j 4 ltac:(lia)) as Hd.
    destruct (decide (j mod 4 ≠ 3 ∧ rd data (j - j mod 4 + 3) = Some 0))
      as [(Hm & Ha)|Hno].
    + pose proof (rd_Some_range _ _ _ Ha) as Hr.
      rewrite decide_True.
      * destruct (rd_in_range data j) as [v ->]; [lia|done].
      * split; [done|]. split; [|done].
        unfold stepRange. apply list_elem_of_fmap. exists (j / 4).
        split; [lia|]. apply elem_of_seqZ.
        split; [lia|]. rewrite Z.add_0_l.
        apply Z.div_lt_upper_bound; [lia|].
        assert (4 * ((Z.of_nat (length data) + 4 - 1) / 4)
                > Z.of_nat (length data) + 4 - 1 - 4); [|lia].
        pose proof (Z.div_mod (Z.of_nat (length data) + 4 - 1) 4 ltac:(lia)).
        pose proof (Z.mod_pos_bound (Z.of_nat (length data) + 4 - 1) 4 ltac:(lia)).
        lia.
    + rewrite decide_False; [done|]. intros (Hm & _ & Ha). by apply Hno.
Qed.

(** X8.  [cleanTransparentPixels] keeps the length of the buffer and every
    alpha byte; it sets to 0 the R, G and B bytes of exactly the pixels whose
    alpha byte is 0, and leaves every other byte as it was. *)
Theorem clean_zeroes_transparent_rgb (data : list Z) (j : Z) :
  length (Clean.cleanTransparentPixels data) = length data ∧
  rd (Clean.cleanTransparentPixels data) j
  = if decide (j mod 4 ≠ 3 ∧ rd data (j - j mod 4 + 3) = Some 0)
    then Some 0 else rd data j.
Proof. apply cleanTransparentPixels_spec. Qed.

(** X9.  Cleaning a cleaned buffer changes nothing. *)
Theorem clean_idempotent (data : list Z) :
  Clean.cleanTransparentPixels (Clean.cleanTransparentPixels data)
  = Clean.cleanTransparentPixels data.
Proof.
  apply rd_ext. intros j.
  destruct (cleanTransparentPixels_spec (Clean.cleanTransparentPixels data) j)
    as [_ ->].
  assert (rd (Clean.cleanTransparentPixels data) (j - j mod 4 + 3)
          = rd data (j - j mod 4 + 3)) as Halpha.
  { destruct (cleanTransparentPixels_spec data (j - j mod 4 + 3)) as [_ ->].
    rewrite decide_False; [done|]. intros (Hm & _). apply Hm.
    replace (j - j mod 4 + 3) with (3 + (j / 4) * 4)
      by (pose proof (Z.div_mod j 4 ltac:(lia)); lia).
    by rewrite Z.mod_add by lia. }
  rewrite Halpha.
  destruct (cleanTransparentPixels_spec data j) as [_ ->].
  by case_decide.
Qed.

(** ** Flood fill: more of its behaviour *)

(** X10.  After [floodFill] and then [cleanTransparentPixels], the four
    bytes of every pixel that the fill reached are 0. *)
Theorem floodFill_then_clean (width height : Z) (data : list Z)
    (startX startY tolerance : Z) :
  wellFormedCanvas width height data →
  inCanvas width height (startX, startY) →
  ∃ data',
    Flood.floodFill width height data startX startY tolerance = Some data' ∧
    ∀ p c, reachable width height data startX startY tolerance p →
           0 ≤ c < 4 →
           rd (Clean.cleanTransparentPixels data')
              (Flood.getPixelIndex width p.1 p.2 + c) = Some 0.
Proof.
  intros Hcanvas Hseed.
  destruct (floodFill_spec width height data startX startY tolerance Hcanvas Hseed)
    as (data' & Hrun & (Hlen & Hreach & _) & _).
  exists data'. split; [done|]. intros p c Hp Hc.
  specialize (Hreach p Hp).
  destruct (cleanTransparentPixels_spec data' (Flood.getPixelIndex width p.1 p.2 + c))
    as [_ ->].
  rewrite getPixelIndex_mod by done.
  replace (Flood.getPixelIndex width p.1 p.2 + c - c + 3)
    with (Flood.getPixelIndex width p.1 p.2 + 3) by lia.
  destruct (decide (c ≠ 3 ∧ _)) as [_|Hno]; [done|].
  destruct (decide (c = 3)) as [->|Hc3]; [done|].
  exfalso. by apply Hno.
Qed.

Lemma floodFill_then_clean_witness :
  ∃ data',
    Flood.floodFill 3 2 sampleCanvas 0 0 0 = Some data' ∧
    rd (Clean.cleanTransparentPixels data') (Flood.getPixelIndex 3 1 0 + 1) = Some 0.
Proof.
  destruct (floodFill_then_clean 3 2 sampleCanvas 0 0 0) as (data' & Hrun & Hzero).
  - unfold wellFormedCanvas. simpl. lia.
  - unfold inCanvas. simpl. lia.
  - exists data'. split; [exact Hrun|].
    apply (Hzero (1, 0) 1); [|lia].
    apply (reach_step 3 2 sampleCanvas 0 0 0 (0, 0) (1, 0)).
    + apply reach_seed; [unfold inCanvas; simpl; lia | reflexivity].
    + reflexivity.
    + unfold inCanvas. simpl. lia.
    + reflexivity.
Defined.

(** Any two pixels of the canvas are joined by a 4-connected path inside
    it. *)
Lemma all_reachable width height orig startX startY tolerance :
  inCanvas width height (startX, startY) →
  (∀ p, inCanvas width height p →
        matchesSeed width orig startX startY tolerance p = true) →
  ∀ p, inCanvas width height p →
       reachable width height orig startX startY tolerance p.
Proof.
  intros Hseed Hall.
  assert (∀ (n : nat) p, inCanvas width height p →
            Z.abs (p.1 - startX) + Z.abs (p.2 - startY) = Z.of_nat n →
            reachable width height orig startX startY tolerance p) as Hn.
  { induction n as [|n IH]; intros [x y] Hin Hd; simpl in *.
    - assert (x = startX) as -> by lia. assert (y = startY) as -> by lia.
      apply reach_seed; [done|by apply Hall].
    - destruct Hin as [Hx Hy]. destruct Hseed as [Hsx Hsy]. simpl in *.
      destruct (decide (x = startX)) as [->|Hne].
      + destruct (Z.lt_ge_cases y startY) as [Hlt|Hge].
        * apply (reach_step _ _ _ _ _ _ (startX, y + 1)).
          -- apply IH; [split; simpl; lia|simpl; lia].
          -- unfold adjacent. simpl. lia.
          -- split; simpl; lia.
          -- apply Hall. split; simpl; lia.
        * apply (reach_step _ _ _ _ _ _ (startX, y - 1)).
          -- apply IH; [split; simpl; lia|simpl; lia].
          -- unfold adjacent. simpl. lia.
          -- split; simpl; lia.
          -- apply Hall. split; simpl; lia.
      + destruct (Z.lt_ge_cases x startX) as [Hlt|Hge].
        * apply (reach_step _ _ _ _ _ _ (x + 1, y)).
          -- apply IH; [split; simpl; lia|simpl; lia].
          -- unfold adjacent. simpl. lia.
          -- split; simpl; lia.
          -- apply Hall. split; simpl; lia.
        * apply (reach_step _ _ _ _ _ _ (x - 1, y)).
          -- apply IH; [split; simpl; lia|simpl; lia].
          -- unfold adjacent. simpl. lia.
          -- split; simpl; lia.
          -- apply Hall. split; simpl; lia. }
  intros p Hp.
  apply (Hn (Z.to_nat (Z.abs (p.1 - startX) + Z.abs (p.2 - startY))) p Hp). lia.
Qed.

(** X11.  When every pixel of the canvas matches the seed, [floodFill]
    makes the whole canvas transparent. *)
Theorem floodFill_erases_canvas_of_matches (width height : Z) (data : list Z)
    (startX startY tolerance : Z) :
  wellFormedCanvas width height data →
  inCanvas width height (startX, startY) →
  (∀ p, inCanvas width height p →
        matchesSeed width data startX startY tolerance p = true) →
  ∃ data',
    Flood.floodFill width height data startX startY tolerance = Some data' ∧
    ∀ p, inCanvas width height p →
         rd data' (Flood.getPixelIndex width p.1 p.2 + 3) = Some 0.
Proof.
  intros Hcanvas Hseed Hall.
  destruct (floodFill_spec width height data startX startY tolerance Hcanvas Hseed)
    as (data' & Hrun & (Hlen & Hreach & _) & _).
  exists data'. split; [done|]. intros p Hp.
  by apply Hreach, all_reachable.
Qed.

Lemma floodFill_erases_canvas_of_matches_witness :
  ∃ data',
    Flood.floodFill 2 2 plainCanvas 1 0 0 = Some data' ∧
    rd data' (Flood.getPixelIndex 2 0 1 + 3) = Some 0.
Proof.
  destruct (floodFill_erases_canvas_of_matches 2 2 plainCanvas 1 0 0)
    as (data' & Hrun & Hall).
  - unfold wellFormedCanvas. simpl. lia.
  - unfold inCanvas. simpl. lia.
  - intros [x y] [Hx Hy]. simpl in Hx, Hy.
    assert (x = 0 ∨ x = 1) as [-> | ->] by lia;
      (assert (y = 0 ∨ y = 1) as [-> | ->] by lia); reflexivity.
  - exists data'. split; [exact Hrun|].
    apply (Hall (0, 1)). unfold inCanvas. simpl. lia.
Defined.

Lemma within_mono t t' c s :
  t ≤ t' → Flood.within t c s = true → Flood.within t' c s = true.
Proof.
  intros Ht. unfold Flood.within. destruct c, s; try done.
  rewrite !Z.leb_le. lia.
Qed.

Lemma matchesSeed_mono width orig startX startY t t' p :
  t ≤ t' →
  matchesSeed width orig startX startY t p = true →
  matchesSeed width orig startX startY t' p = true.
Proof.
  intros Ht. unfold matchesSeed, Flood.colorMatch.
  destruct (Flood.isZero _); [done|].
  rewrite !andb_true_iff. intros [[Hr Hg] Hb].
  split; [split|]; by eapply within_mono.
Qed.

Lemma reachable_mono width height orig startX startY t t' p :
  t ≤ t' →
  reachable width height orig startX startY t p →
  reachable width height orig startX startY t' p.
Proof.
  intros Ht. induction 1 as [Hin Hm|q q' Hq IH Hadj Hin Hm].
  - apply reach_seed; [done|by eapply matchesSeed_mono].
  - eapply reach_step; [exact IH|done|done|by eapply matchesSeed_mono].
Qed.

(** X12.  A larger tolerance erases at least as much: every pixel that is
    transparent after a fill is transparent after the fill from the same
    seed with a tolerance that is not smaller. *)
Theorem floodFill_monotone_in_tolerance (width height : Z) (data : list Z)
    (startX startY t t' : Z) :
  wellFormedCanvas width height data →
  inCanvas width height (startX, startY) →
  t ≤ t' →
  ∃ d d',
    Flood.floodFill width height data startX startY t = Some d ∧
    Flood.floodFill width height data startX startY t' = Some d' ∧
    ∀ p, inCanvas width height p →
         rd d (Flood.getPixelIndex width p.1 p.2 + 3) = Some 0 →
         rd d' (Flood.getPixelIndex width p.1 p.2 + 3) = Some 0.
Proof.
  intros Hcanvas Hseed Ht.
  destruct (floodFill_spec width height data startX startY t Hcanvas Hseed)
    as (d & Hrun & (_ & Hreach & Hrest & _) & _).
  destruct (floodFill_spec width height data startX startY t' Hcanvas Hseed)
    as (d' & Hrun' & (_ & Hreach' & Hrest' & _) & _).
  exists d, d'. split; [done|]. split; [done|]. intros p Hp Hzero.
  destruct (reach_decidable width height data startX startY t' Hcanvas Hseed p)
    as [Hr'|Hn']; [by apply Hreach'|].
  rewrite Hrest' by done. rewrite <- Hrest; [done|done|].
  intros Hr. by apply Hn', (reachable_mono _ _ _ _ _ t).
Qed.

Lemma floodFill_monotone_in_tolerance_witness :
  ∃ d d',
    Flood.floodFill 3 2 sampleCanvas 0 0 0 = Some d ∧
    Flood.floodFill 3 2 sampleCanvas 0 0 4 = Some d' ∧
    (rd d (Flood.getPixelIndex 3 1 0 + 3) = Some 0 →
     rd d' (Flood.getPixelIndex 3 1 0 + 3) = Some 0).
Proof.
  destruct (floodFill_monotone_in_tolerance 3 2 sampleCanvas 0 0 0 4)
    as (d & d' & Hrun & Hrun' & Hmono).
  - unfold wellFormedCanvas. simpl. lia.
  - unfold inCanvas. simpl. lia.
  - lia.
  - exists d, d'. split; [exact Hrun|]. split; [exact Hrun'|].
    apply (Hmono (1, 0)). unfold inCanvas. simpl. lia.
Defined.

Lemma fillLoop_never_matches fuel width height sR sG sB tolerance
    data stack visited data' :
  (∀ d idx, Flood.colorMatch d sR sG sB tolerance idx = false) →
  Flood.fillLoop fuel width height sR sG sB tolerance data stack visited = Some data' →
  data' = data.
Proof.
  intros Hno. revert stack visited.
  induction fuel as [|fuel IH]; intros [|[x y] rest] visited Hrun;
    simpl in Hrun; try done; try congruence.
  destruct (decide ((x, y) ∈ visited)); [by eapply IH|].
  rewrite Hno in Hrun. by eapply IH.
Qed.

(** X13.  With a negative tolerance, or a seed whose index falls outside
    the buffer, [floodFill] returns and changes nothing, whatever the size
    of the canvas and of the buffer. *)
Theorem floodFill_matches_nothing (width height : Z) (data : list Z)
    (startX startY tolerance : Z) :
  tolerance < 0 ∨ rd data (Flood.getPixelIndex width startX startY) = None →
  Flood.floodFill width height data startX startY tolerance = Some data.
Proof.
  intros Hcase.
  destruct (floodFill_terminates width height data startX startY tolerance)
    as [data' Hrun].
  rewrite Hrun. f_equal. unfold Flood.floodFill in Hrun.
  destruct (Flood.isZero _); [congruence|].
  eapply fillLoop_never_matches; [|exact Hrun].
  intros d idx. unfold Flood.colorMatch.
  destruct (Flood.isZero _); [done|].
  destruct Hcase as [Hneg| ->].
  - unfold Flood.within at 1. destruct (rd d idx) as [r|]; [|done].
    destruct (rd data _) as [s|]; [|done].
    destruct (Z.leb_spec (Z.abs (r - s)) tolerance); [lia|done].
  - unfold Flood.within at 1. by destruct (rd d idx).
Qed.

Lemma floodFill_matches_nothing_witness :
  Flood.floodFill 3 2 sampleCanvas 0 0 (-1) = Some sampleCanvas ∧
  Flood.floodFill 3 2 sampleCanvas 0 5 0 = Some sampleCanvas.
Proof.
  split.
  - apply (floodFill_matches_nothing 3 2 sampleCanvas 0 0 (-1)). left. lia.
  - apply (floodFill_matches_nothing 3 2 sampleCanvas 0 5 0). right. reflexivity.
Defined.

(** X14.  The seed is not checked against the canvas: whenever its index
    [(startY * width + startX) * 4] falls on a pixel of the buffer that is
    not transparent, the alpha byte at that index is erased, also for a seed
    outside the canvas (a seed in column [width] is the first pixel of the
    next row). *)
Theorem floodFill_erases_at_seed_index (width height : Z) (data : list Z)
    (startX startY tolerance : Z) :
  0 ≤ tolerance →
  0 ≤ Flood.getPixelIndex width startX startY →
  Flood.getPixelIndex width startX startY + 3 < Z.of_nat (length data) →
  rd data (Flood.getPixelIndex width startX startY + 3) ≠ Some 0 →
  ∃ data',
    Flood.floodFill width height data startX startY tolerance = Some data' ∧
    rd data' (Flood.getPixelIndex width startX startY + 3) = Some 0.
Proof.
  intros Htol Hlo Hhi Halpha.
  destruct (floodFill_terminates width height data startX startY tolerance)
    as [data' Hrun].
  exists data'. split; [done|]. unfold Flood.floodFill in Hrun.
  set (idx := Flood.getPixelIndex width startX startY) in *.
  assert (Flood.isZero (rd data (idx + 3)) = false) as Hz.
  { destruct (Flood.isZero _) eqn:E; [|done]. by apply isZero_Some_0 in E. }
  rewrite Hz in Hrun.
  replace (Flood.fuelFor width height startX startY)
    with (S (4 * length (Flood.box width height startX startY) + 1))
    in Hrun by (unfold Flood.fuelFor; lia).
  cbn [Flood.fillLoop] in Hrun.
  destruct (decide ((startX, startY) ∈ (∅ : gset (Z * Z)))) as [Hin|_];
    [set_solver|].
  fold idx in Hrun.
  assert (Flood.colorMatch data (rd data idx) (rd data (idx + 1)) (rd data (idx + 2))
                           tolerance idx = true) as Hm.
  { unfold Flood.colorMatch. rewrite Hz.
    destruct (rd_in_range data idx) as [r ->]; [lia|].
    destruct (rd_in_range data (idx + 1)) as [g ->]; [lia|].
    destruct (rd_in_range data (idx + 2)) as [b ->]; [lia|].
    unfold Flood.within. rewrite !Z.sub_diag.
    change (Z.abs 0) with 0.
    destruct (Z.leb_spec 0 tolerance); [done|lia]. }
  rewrite Hm in Hrun.
  eapply fillLoop_keeps_zero; [exact Hrun|].
  rewrite rd_wr, decide_True by done.
  by destruct (rd_in_range data (idx + 3)) as [a ->]; [lia|].
Qed.

Lemma floodFill_erases_at_seed_index_witness :
  ∃ data',
    Flood.floodFill 2 2 smallCanvas 2 0 0 = Some data' ∧
    rd data' (Flood.getPixelIndex 2 0 1 + 3) = Some 0.
Proof.
  destruct (floodFill_erases_at_seed_index 2 2 smallCanvas 2 0 0)
    as (data' & Hrun & Hzero).
  - lia.
  - unfold Flood.getPixelIndex. lia.
  - unfold Flood.getPixelIndex. simpl. lia.
  - unfold Flood.getPixelIndex. simpl. discriminate.
  - exists data'. split; [exact Hrun|exact Hzero].
Defined.

(** ** Applying the segmentation mask *)

Lemma foldl_eraseStep filtered js data c :
  foldl (Segment.eraseStep filtered) (data, c) js
  = (foldl (fun sm k => wr sm k ((fun _ => 0) k)) data
       ((fun i => i * 4 + 3)
          <$> filter (fun i => Segment.notForeground (rd filtered i) = true) js),
     c + Z.of_nat
           (length (filter (fun i => Segment.notForeground (rd filtered i) = true) js))).
Proof.
  revert data c. induction js as [|i js IH]; intros data c.
  - simpl. f_equal. lia.
  - cbn [foldl]. unfold Segment.eraseStep at 2.
    destruct (Segment.notForeground (rd filtered i)) eqn:E.
    + rewrite IH, filter_cons_True by done. simpl. f_equal. lia.
    + rewrite IH, filter_cons_False by congruence. done.
Qed.

Lemma connected_inMask_fg mask width height i j :
  connected mask width height i j → inMask width height j ∧ fg mask j.
Proof. by destruct 1. Qed.

Lemma component_members mask width height C i :
  component mask width height C → i ∈ C → inMask width height i ∧ fg mask i.
Proof.
  intros (_ & _ & Hconn) Hi.
  apply (connected_inMask_fg mask width height i i). by apply (Hconn i i Hi).
Qed.

Lemma fg_foreground mask i : fg mask i → Segment.notForeground (rd mask i) = false.
Proof.
  intros (q & -> & Hq). unfold Segment.notForeground. by apply Qleb_gt.
Qed.

(** The pixels erased by the loop, when the filtered mask keeps [C]. *)
Lemma erased_iff mask out width height C i :
  keepsOnly mask out width height C →
  (∀ k, k ∈ C → inMask width height k ∧ fg mask k) →
  inMask width height i →
  Segment.notForeground (rd out i) = true ↔ i ∉ C.
Proof.
  intros Hkeep HC Hi. rewrite (Hkeep i Hi).
  destruct (decide (i ∈ C)) as [Hin|Hout].
  - rewrite fg_foreground by by apply HC. split; [done|by intros []].
  - done.
Qed.

Lemma count_outside (C : list Z) (n : Z) :
  0 ≤ n → NoDup C → (∀ k, k ∈ C → 0 ≤ k < n) →
  Z.of_nat (length (filter (fun i => i ∉ C) (seqZ 0 n))) = n - Z.of_nat (length C).
Proof.
  intros Hn Hnd HC.
  pose proof (filter_app_complement (fun i => i ∈ C) (seqZ 0 n)) as Hperm.
  apply Permutation_length in Hperm. rewrite length_app, length_seqZ in Hperm.
  assert (filter (fun i => i ∈ C) (seqZ 0 n) ≡ₚ C) as HpC.
  { apply NoDup_Permutation; [apply NoDup_filter, NoDup_seqZ|done|].
    intros x. rewrite list_elem_of_filter, elem_of_seqZ. split; [tauto|].
    intros Hx. split; [done|]. specialize (HC x Hx). lia. }
  apply Permutation_length in HpC. lia.
Qed.

Lemma filter_ext_in {A} (P Q : A → Prop) `{∀ x, Decision (P x)}
    `{∀ x, Decision (Q x)} (l : list A) :
  (∀ x, x ∈ l → P x ↔ Q x) → filter P l = filter Q l.
Proof.
  induction l as [|x l IH]; intros Hl; [done|].
  assert (filter P l = filter Q l) as IH'.
  { apply IH. intros k Hk. by apply Hl, list_elem_of_further. }
  destruct (decide (P x)) as [HP|HP].
  - rewrite !filter_cons_True; [by rewrite IH'|by apply Hl; [left|]|done].
  - rewrite !filter_cons_False; [done| |done].
    intros HQ. apply HP. by apply Hl; [left|].
Qed.

Lemma applySamMask_with mask out width height C data :
  0 ≤ width * height →
  Mask.filterLargestComponent mask width height = Return out →
  Z.of_nat (length out) = width * height →
  Z.of_nat (length data) = width * height * 4 →
  keepsOnly mask out width height C →
  NoDup C →
  (∀ k, k ∈ C → inMask width height k ∧ fg mask k) →
  ∃ data' count,
    Segment.applySamMask data mask width height = Return (Segment.Written data' count) ∧
    length data' = length data ∧
    (∀ j, j mod 4 ≠ 3 → rd data' j = rd data j) ∧
    (∀ i, inMask width height i →
          rd data' (i * 4 + 3)
          = if decide (i ∈ C) then rd data (i * 4 + 3) else Some 0) ∧
    count = width * height - Z.of_nat (length C).
Proof.
  intros Hsize Hrun Hlen Hdata Hkeep Hnd HC.
  unfold Segment.applySamMask. rewrite Hrun.
  rewrite bool_decide_eq_true_2 by lia.
  rewrite foldl_eraseStep, Hlen.
  set (nf := fun i => Segment.notForeground (rd out i) = true).
  assert (filter nf (seqZ 0 (width * height))
          = filter (fun i => i ∉ C) (seqZ 0 (width * height))) as Hfilter.
  { apply filter_ext_in. intros x Hx%elem_of_seqZ.
    apply (erased_iff mask out width height); [done|done|].
    unfold inMask. lia. }
  eexists _, _. split; [reflexivity|]. split; [apply length_foldl_wr|].
  split; [|split].
  - intros j Hj. rewrite rd_foldl_wr, decide_False; [done|].
    intros (i & -> & _)%list_elem_of_fmap. apply Hj.
    by rewrite Z.add_comm, Z.mod_add by lia.
  - intros i Hi. rewrite rd_foldl_wr. fold nf. rewrite Hfilter.
    destruct (decide (i ∈ C)) as [Hin|Hout].
    + rewrite decide_False; [done|].
      intros (k & Hk & [Hnk _]%list_elem_of_filter)%list_elem_of_fmap.
      assert (k = i) as -> by lia. done.
    + rewrite decide_True.
      * unfold inMask in Hi.
        by destruct (rd_in_range data (i * 4 + 3)) as [a ->]; [lia|].
      * apply list_elem_of_fmap. exists i. split; [done|].
        apply list_elem_of_filter. split; [done|]. apply elem_of_seqZ.
        unfold inMask in Hi. lia.
  - fold nf. rewrite Hfilter, count_outside; [lia|done|done|].
    intros k Hk. by apply HC.
Qed.

(** X15.  On an image of [width * height] pixels and a mask of as many
    entries, the buffer that [applySamMask] gives to [putImageData] is the
    one read from the canvas with the alpha byte set to 0 at every pixel
    outside of the largest 4-connected component [C] of the mask (at every
    pixel when the mask has no foreground): the alpha byte of the pixels of
    [C] and every R, G and B byte are as they were read, and the count
    logged is [width * height - |C|]. *)
Theorem applySamMask_keeps_largest_component (data : list Z)
    (mask : list Mask.float) (width height : Z) :
  wellFormedMask mask width height →
  Z.of_nat (length data) = width * height * 4 →
  ∃ data' count C,
    Segment.applySamMask data mask width height
    = Return (Segment.Written data' count) ∧
    ((∃ i, fg mask i) → largestFirst mask width height C) ∧
    ((∀ i, ¬ fg mask i) → C = []) ∧
    length data' = length data ∧
    (∀ j, j mod 4 ≠ 3 → rd data' j = rd data j) ∧
    (∀ i, inMask width height i →
          rd data' (i * 4 + 3)
          = if decide (i ∈ C) then rd data (i * 4 + 3) else Some 0) ∧
    count = width * height - Z.of_nat (length C).
Proof.
  intros Hwf Hdata. pose proof Hwf as (Hw & Hh & Hlen).
  destruct (filter_spec_wf mask width height Hwf)
    as (out & Hrun & Hlen' & Hfg & Hnone).
  destruct (fg_decide mask) as [Hsome|Hno].
  - destruct (Hfg Hsome) as (C & Hlargest & Hkeep).
    destruct (applySamMask_with mask out width height C data)
      as (data' & count & Happ & Hrest); try done; try lia.
    + by destruct Hlargest as [(Hnd & _) _].
    + intros k Hk. destruct Hlargest as [Hcomp _].
      by eapply component_members.
    + exists data', count, C. split; [done|]. split; [done|].
      split; [|done]. intros Hnofg. destruct Hsome as [i Hi]. by apply Hnofg in Hi.
  - destruct (applySamMask_with mask out width height [] data)
      as (data' & count & Happ & Hrest); try done; try lia.
    + intros i Hi. rewrite decide_False by apply not_elem_of_nil. by apply Hnone.
    + constructor.
    + intros k Hk. by apply elem_of_nil in Hk.
    + exists data', count, []. split; [done|]. split; [|done].
      intros [i Hi]. by apply Hno in Hi.
Qed.

Lemma applySamMask_keeps_largest_component_witness :
  ∃ data' count (C : list Z),
    Segment.applySamMask smallCanvas smallMask 2 2
    = Return (Segment.Written data' count) ∧
    length data' = length smallCanvas ∧
    count = 2 * 2 - Z.of_nat (length C).
Proof.
  destruct (applySamMask_keeps_largest_component smallCanvas smallMask 2 2)
    as (data' & count & C & Hrun & _ & _ & Hlen & _ & _ & Hcount).
  - unfold wellFormedMask. simpl. lia.
  - simpl. lia.
  - exists data', count, C. split; [exact Hrun|]. split; [exact Hlen|exact Hcount].
Defined.

(** X16.  For a mask of [width * height] entries, [applySamMask] stops on
    "Mask dimensions mismatch!", with nothing pushed to the history, exactly
    when the image does not have [width * height] pixels. *)
Theorem applySamMask_mismatch (data : list Z) (mask : list Mask.float)
    (width height : Z) :
  wellFormedMask mask width height →
  Segment.applySamMask data mask width height = Return Segment.Mismatch
  ↔ Z.of_nat (length data) ≠ width * height * 4.
Proof.
  intros Hwf. pose proof Hwf as (Hw & Hh & Hlen).
  destruct (filter_spec_wf mask width height Hwf) as (out & Hrun & Hlen' & _).
  unfold Segment.applySamMask. rewrite Hrun.
  destruct (bool_decide_reflect (Z.of_nat (length out) * 4 = Z.of_nat (length data)))
    as [Heq|Hne].
  - destruct (foldl _ _ _) as [data' count]. split; [done|lia].
  - split; [lia|done].
Qed.

Lemma applySamMask_mismatch_witness :
  Segment.applySamMask plainCanvas sampleMask 4 3 = Return Segment.Mismatch.
Proof.
  apply (applySamMask_mismatch plainCanvas sampleMask 4 3).
  - unfold wellFormedMask. simpl. lia.
  - simpl. lia.
Defined.

(** ** The gap channel finds the wide runs of flat lines *)

Lemma lowAt_range all i : lowAt all i → 0 ≤ i < Z.of_nat (length all).
Proof. intros (v & Hv & _). by eapply rd_Some_range. Qed.

Lemma lowAt_here all i v :
  all !! Z.to_nat i = Some v → 0 ≤ i →
  lowAt all i ↔ Qltb v Seam.gapThreshold = true.
Proof.
  intros Hv Hi. unfold lowAt, rd.
  destruct (Z.ltb_spec i 0) as [?|_]; [lia|]. rewrite Hv, Qltb_lt.
  unfold Seam.gapThreshold. split.
  - by intros (? & [= <-] & ?).
  - intros ?. by exists v.
Qed.

Lemma run_unique all s e s' e' k :
  maximalLowRun all s e → maximalLowRun all s' e' →
  s ≤ k ≤ e → s' ≤ k ≤ e' → s = s' ∧ e = e'.
Proof.
  intros (H1 & L1 & NS1 & NE1) (H2 & L2 & NS2 & NE2) Hk Hk'. split.
  - destruct (Z.lt_trichotomy s s') as [Hlt|[->|Hgt]]; [|done|].
    + exfalso. apply NS2, L1. lia.
    + exfalso. apply NS1, L2. lia.
  - destruct (Z.lt_trichotomy e e') as [Hlt|[->|Hgt]]; [|done|].
    + exfalso. apply NE1, L2. lia.
    + exfalso. apply NE2, L1. lia.
Qed.

Lemma elem_of_pushGap gaps gapStart gapEnd g :
  g ∈ Seam.pushGap gaps gapStart gapEnd
  ↔ g ∈ gaps ∨ (2 ≤ gapEnd - gapStart ∧ g = (gapStart + gapEnd) / 2).
Proof.
  unfold Seam.pushGap. destruct (Z.leb_spec 2 (gapEnd - gapStart)) as [Hw|Hn].
  - rewrite elem_of_app, list_elem_of_singleton. intuition.
  - intuition lia.
Qed.

(** Closing the open gap at line [i]: the gaps found are those of the runs
    that end before [i + 1]. *)
Lemma gapInv_close all i gapStart gaps :
  gapInv all i true gapStart gaps → ¬ lowAt all i →
  ∀ g, g ∈ Seam.pushGap gaps gapStart (i - 1)
       ↔ ∃ s e, maximalLowRun all s e ∧ 2 ≤ e - s ∧ g = (s + e) / 2 ∧ e < i + 1.
Proof.
  intros (Hb & Hin & Hbefore & Hgaps) Hstop g. simpl in *.
  destruct (Hin eq_refl) as [Hlt Hlow].
  assert (maximalLowRun all gapStart (i - 1)) as Hrun.
  { split; [lia|]. split; [intros k Hk; apply Hlow; lia|].
    split; [done|]. by replace (i - 1 + 1) with i by lia. }
  rewrite elem_of_pushGap, Hgaps. split.
  - intros [(s & e & Hr & Hw & -> & He)|[Hw ->]].
    + exists s, e. repeat (split; [done|]). lia.
    + exists gapStart, (i - 1). repeat (split; [done|]). lia.
  - intros (s & e & Hr & Hw & -> & He).
    destruct (Z.lt_ge_cases e gapStart) as [Hlo|Hhi].
    + left. by exists s, e.
    + right. assert (e ≠ i) as Hne.
      { intros ->. apply Hstop. destruct Hr as (Hse & Hl & _). apply Hl. lia. }
      destruct (run_unique all s e gapStart (i - 1) e Hr Hrun) as [-> ->];
        [destruct Hr; lia|lia|done].
Qed.

Lemma gapLoop_spec all variances i inGap gapStart gaps :
  variances = drop (Z.to_nat i) all →
  0 ≤ i ≤ Z.of_nat (length all) →
  gapInv all i inGap gapStart gaps →
  ∀ g, g ∈ Seam.gapLoop variances i inGap gapStart gaps
       ↔ ∃ s e, maximalLowRun all s e ∧ 2 ≤ e - s ∧ g = (s + e) / 2.
Proof.
  revert i inGap gapStart gaps.
  induction variances as [|v rest IH]; intros i inGap gapStart gaps Hdrop Hi Hinv g.
  - assert (i = Z.of_nat (length all)) as Hend.
    { symmetry in Hdrop. apply drop_nil_inv in Hdrop. lia. }
    assert (¬ lowAt all i) as Hstop.
    { intros Hl%lowAt_range. lia. }
    assert (∀ s e, maximalLowRun all s e → e < i + 1) as Hbound.
    { intros s e (Hse & Hl & _). specialize (Hl e ltac:(lia)).
      apply lowAt_range in Hl. lia. }
    cbn [Seam.gapLoop]. destruct inGap.
    + rewrite (gapInv_close all i gapStart gaps Hinv Hstop). split.
      * intros (s & e & Hr & Hw & Hg & _). by exists s, e.
      * intros (s & e & Hr & Hw & Hg). exists s, e. repeat (split; [done|]).
        by eapply Hbound.
    + destruct Hinv as (Hb & _ & _ & Hgaps). simpl in *. rewrite Hgaps. split.
      * intros (s & e & Hr & Hw & Hg & _). by exists s, e.
      * intros (s & e & Hr & Hw & Hg). exists s, e. repeat (split; [done|]).
        destruct Hr as (Hse & Hl & _). specialize (Hl e ltac:(lia)).
        apply lowAt_range in Hl. lia.
  - assert (all !! Z.to_nat i = Some v) as Hv.
    { rewrite <- (Nat.add_0_r (Z.to_nat i)), <- lookup_drop, <- Hdrop. done. }
    assert (rest = drop (Z.to_nat (i + 1)) all) as Hrest.
    { replace (Z.to_nat (i + 1)) with (S (Z.to_nat i)) by lia.
      replace (S (Z.to_nat i)) with (Z.to_nat i + 1)%nat by lia.
      rewrite <- drop_drop, <- Hdrop. done. }
    assert (i < Z.of_nat (length all)) as Hlt.
    { apply lookup_lt_Some in Hv. lia. }
    pose proof (lowAt_here all i v Hv ltac:(lia)) as Hlow.
    cbn [Seam.gapLoop].
    destruct (Qltb v Seam.gapThreshold) eqn:E, inGap.
    + apply IH; [done|lia|].
      destruct Hinv as (Hb & Hin & Hbefore & Hgaps). simpl in *.
      destruct (Hin eq_refl) as [Hgs Hall].
      split; [lia|]. split; [|done].
      intros _. split; [lia|]. intros k Hk.
      destruct (decide (k = i)) as [->|Hne]; [by apply Hlow|apply Hall; lia].
    + apply IH; [done|lia|].
      destruct Hinv as (Hb & _ & Hbefore & Hgaps). simpl in *.
      split; [lia|]. split; [|done].
      intros _. split; [lia|]. intros k Hk.
      assert (k = i) as -> by lia. by apply Hlow.
    + assert (¬ lowAt all i) as Hstop.
      { intros Hl%Hlow. congruence. }
      apply IH; [done|lia|].
      pose proof (gapInv_close all i gapStart gaps Hinv Hstop) as Hclose.
      split; [simpl; lia|]. split; [done|]. simpl.
      split; [by replace (i + 1 - 1) with i by lia|done].
    + assert (¬ lowAt all i) as Hstop.
      { intros Hl%Hlow. congruence. }
      apply IH; [done|lia|].
      destruct Hinv as (Hb & _ & Hbefore & Hgaps). simpl in *.
      split; [lia|]. split; [done|].
      split; [by replace (i + 1 - 1) with i by lia|].
      intros g'. rewrite Hgaps. split.
      * intros (s & e & Hr & Hw & Hg & He). exists s, e.
        repeat (split; [done|]). lia.
      * intros (s & e & Hr & Hw & Hg & He). exists s, e.
        repeat (split; [done|]).
        assert (e ≠ i); [|lia]. intros ->. apply Hstop.
        destruct Hr as (Hse & Hl & _). apply Hl. lia.
Qed.

(** X17.  The gap channel returns, in increasing order, the midpoints
    [floor((s + e) / 2)] of exactly the maximal runs [s..e] of lines whose
    variance is below the threshold and that are at least three lines
    long. *)
Theorem findGaps_midpoints_of_wide_runs (variances : list Q) :
  StronglySorted Z.lt (Seam.findGaps variances) ∧
  ∀ g, g ∈ Seam.findGaps variances
       ↔ ∃ s e, maximalLowRun variances s e ∧ 2 ≤ e - s ∧ g = (s + e) / 2.
Proof.
  split; [apply findGaps_sorted|].
  apply gapLoop_spec; [done|lia|].
  split; [simpl; lia|]. split; [done|]. simpl. split.
  - intros Hl%lowAt_range. lia.
  - intros g. split; [by intros ?%elem_of_nil|].
    intros (s & e & (Hse & Hl & _) & _ & _ & He).
    specialize (Hl e ltac:(lia)). apply lowAt_range in Hl. lia.
Qed.

(** ** Combining the channels: what is kept *)

Lemma Qabs_lt_20 z : Qltb (Qabs (inject_Z z)) 20 = true ↔ Z.abs z < 20.
Proof.
  rewrite Qltb_lt. change (Qabs (inject_Z z)) with (inject_Z (Z.abs z)).
  change 20%Q with (inject_Z 20). by rewrite Zlt_Qlt.
Qed.

Lemma isDuplicate_true finalSplits edge :
  Seam.isDuplicate finalSplits edge = true
  ↔ ∃ s, s ∈ finalSplits ∧ Z.abs (s - edge) < 20.
Proof.
  unfold Seam.isDuplicate. rewrite existsb_exists. split.
  - intros (s & Hs & Hd). exists s. split; [by apply list_elem_of_In|].
    by apply Qabs_lt_20.
  - intros (s & Hs & Hd). exists s. split; [by apply list_elem_of_In|].
    by apply Qabs_lt_20.
Qed.

Lemma addEdge_skips limit finalSplits edge :
  ¬ strictlyInside limit edge → Seam.addEdge limit finalSplits edge = finalSplits.
Proof.
  intros Hout. unfold Seam.addEdge.
  destruct (Qleb (inject_Z edge) (Seam.marginOf limit)) eqn:E1; [done|].
  destruct (Qleb (inject_Z limit - Seam.marginOf limit) (inject_Z edge)) eqn:E2; [done|].
  exfalso. apply Hout. apply Qleb_gt in E1, E2. by split.
Qed.

Lemma addEdge_inside limit finalSplits edge :
  strictlyInside limit edge →
  Seam.addEdge limit finalSplits edge
  = if Seam.isDuplicate finalSplits edge then finalSplits else finalSplits ++ [edge].
Proof.
  intros [H1 H2]. unfold Seam.addEdge.
  destruct (Qleb (inject_Z edge) (Seam.marginOf limit)) eqn:E1.
  { apply Qleb_le in E1. exfalso. exact (Qlt_not_le _ _ H1 E1). }
  destruct (Qleb (inject_Z limit - Seam.marginOf limit) (inject_Z edge)) eqn:E2.
  { apply Qleb_le in E2. exfalso. exact (Qlt_not_le _ _ H2 E2). }
  done.
Qed.

Lemma strictlyInside_dec limit x : strictlyInside limit x ∨ ¬ strictlyInside limit x.
Proof.
  destruct (Seam.insideMargin limit x) eqn:E.
  - left. by apply insideMargin_true.
  - right. intros H%insideMargin_true. congruence.
Qed.

Lemma gapsOrApart_sym gaps a b : gapsOrApart gaps a b → gapsOrApart gaps b a.
Proof. unfold gapsOrApart. intros [[? ?]|?]; [by left|right; lia]. Qed.

Lemma FOP_elem_of {A} (R : A → A → Prop) l x y :
  (∀ a b, R a b → R b a) → ForallOrdPairs R l →
  x ∈ l → y ∈ l → x ≠ y → R x y.
Proof.
  intros Hsym. induction 1 as [|a l Ha Hl IH]; intros Hx Hy Hne.
  - by apply elem_of_nil in Hx.
  - rewrite Forall_forall in Ha.
    apply elem_of_cons in Hx as [->|Hx], Hy as [->|Hy]; [done| | |].
    + by apply Ha.
    + by apply Hsym, Ha.
    + by apply IH.
Qed.

Lemma foldl_addEdge_spec limit gaps edges acc :
  (∀ x, x ∈ acc → x ∈ foldl (Seam.addEdge limit) acc edges) ∧
  (∀ x, x ∈ foldl (Seam.addEdge limit) acc edges →
        x ∈ acc ∨ (x ∈ edges ∧ strictlyInside limit x)) ∧
  (∀ x, x ∈ edges → strictlyInside limit x →
        ∃ s, s ∈ foldl (Seam.addEdge limit) acc edges ∧ Z.abs (s - x) < 20) ∧
  (ForallOrdPairs (gapsOrApart gaps) acc →
   ForallOrdPairs (gapsOrApart gaps) (foldl (Seam.addEdge limit) acc edges)).
Proof.
  revert acc. induction edges as [|e edges IH]; intros acc; cbn [foldl].
  - split; [done|]. split; [by left|]. split; [|done].
    intros x Hx. by apply elem_of_nil in Hx.
  - destruct (IH (Seam.addEdge limit acc e)) as (Hgrow & Hfrom & Hnear & Hfop).
    assert (∀ x, x ∈ acc → x ∈ Seam.addEdge limit acc e) as Hstep.
    { intros x Hx. destruct (strictlyInside_dec limit e) as [Hin|Hout].
      - rewrite addEdge_inside by done.
        destruct (Seam.isDuplicate acc e); [done|].
        apply elem_of_app. by left.
      - by rewrite addEdge_skips. }
    assert (∀ x, x ∈ Seam.addEdge limit acc e →
                 x ∈ acc ∨ (x = e ∧ strictlyInside limit e)) as Hback.
    { intros x. destruct (strictlyInside_dec limit e) as [Hin|Hout].
      - rewrite addEdge_inside by done.
        destruct (Seam.isDuplicate acc e); [by left|].
        rewrite elem_of_app, list_elem_of_singleton. tauto.
      - rewrite addEdge_skips by done. by left. }
    split; [|split; [|split]].
    + intros x Hx. by apply Hgrow, Hstep.
    + intros x Hx. apply Hfrom in Hx as [Hx|Hx].
      * apply Hback in Hx as [Hx|[-> Hin]]; [by left|].
        right. split; [apply list_elem_of_here|done].
      * right. destruct Hx as [Hx Hin]. split; [by apply list_elem_of_further|done].
    + intros x [->|Hx]%elem_of_cons Hin; [|by apply Hnear].
      destruct (Seam.isDuplicate acc e) eqn:Hdup.
      * apply isDuplicate_true in Hdup as (s & Hs & Hd).
        exists s. split; [by apply Hgrow, Hstep|done].
      * exists e. split; [|lia].
        apply Hgrow. rewrite addEdge_inside, Hdup by done.
        apply elem_of_app. right. apply list_elem_of_here.
    + intros Hacc. apply Hfop.
      destruct (strictlyInside_dec limit e) as [Hin|Hout];
        [|by rewrite addEdge_skips].
      rewrite addEdge_inside by done.
      destruct (Seam.isDuplicate acc e) eqn:Hdup; [done|].
      apply FOP_snoc; [done|]. apply Forall_forall. intros s Hs. right.
      destruct (Z.lt_ge_cases (Z.abs (s - e)) 20) as [Hlt|Hge]; [|done].
      assert (Seam.isDuplicate acc e = true); [|congruence].
      apply isDuplicate_true. by exists s.
Qed.

(** X18.  The final split list keeps every gap that lies inside the
    margins; it consists of gaps and edges inside the margins; every edge
    inside the margins is kept or is less than 20 lines away from a split
    that is kept; and two distinct splits less than 20 lines apart are both
    gaps. *)
Theorem combine_prefers_gaps (limit : Z) (gaps edges : list Z) :
  (∀ x, x ∈ gaps → strictlyInside limit x → x ∈ Seam.combine limit gaps edges) ∧
  (∀ x, x ∈ Seam.combine limit gaps edges →
        strictlyInside limit x ∧ (x ∈ gaps ∨ x ∈ edges)) ∧
  (∀ x, x ∈ edges → strictlyInside limit x →
        ∃ s, s ∈ Seam.combine limit gaps edges ∧ Z.abs (s - x) < 20) ∧
  (∀ x y, x ∈ Seam.combine limit gaps edges → y ∈ Seam.combine limit gaps edges →
          x ≠ y → Z.abs (x - y) < 20 → x ∈ gaps ∧ y ∈ gaps).
Proof.
  unfold Seam.combine.
  set (kept := List.filter (Seam.insideMargin limit) gaps).
  assert (∀ x, x ∈ kept ↔ x ∈ gaps ∧ strictlyInside limit x) as Hkept.
  { intros x. unfold kept.
    rewrite list_elem_of_In, filter_In, <- list_elem_of_In, insideMargin_true. done. }
  destruct (foldl_addEdge_spec limit gaps edges kept) as (Hgrow & Hfrom & Hnear & Hfop).
  split; [|split; [|split]].
  - intros x Hx Hin. rewrite sortAsc_perm. apply Hgrow, Hkept. done.
  - intros x Hx. rewrite sortAsc_perm in Hx.
    apply Hfrom in Hx as [Hx|[Hx Hin]].
    + apply Hkept in Hx as [Hx Hin]. split; [done|by left].
    + split; [done|by right].
  - intros x Hx Hin. destruct (Hnear x Hx Hin) as (s & Hs & Hd).
    exists s. split; [by rewrite sortAsc_perm|done].
  - intros x y Hx Hy Hne Hd. rewrite sortAsc_perm in Hx, Hy.
    assert (ForallOrdPairs (gapsOrApart gaps) kept) as Hk.
    { assert (Forall (fun x => x ∈ gaps) kept) as Hall.
      { apply Forall_forall. intros z Hz. by apply Hkept. }
      clear -Hall. induction kept as [|a l IH]; [constructor|].
      apply Forall_cons in Hall as [Ha Hl]. constructor; [|by apply IH].
      eapply Forall_impl; [exact Hl|]. intros b Hb. by left. }
    destruct (FOP_elem_of (gapsOrApart gaps) _ x y (gapsOrApart_sym gaps)
                (Hfop Hk) Hx Hy Hne) as [?|?]; [done|lia].
Qed.

(** ** The spacing filter drops only dominated peaks *)

Lemma selectLoop_extends fuel minDistance candidates selected accepted :
  Seam.selectLoop fuel minDistance candidates selected = Some accepted →
  ∀ x, x ∈ selected → x ∈ accepted.
Proof.
  revert candidates selected.
  induction fuel as [|fuel IH]; intros [|best rest] selected Hrun x Hx;
    cbn [Seam.selectLoop] in Hrun; try done; try congruence.
  eapply IH; [exact Hrun|]. apply elem_of_app. by left.
Qed.

Lemma filter_sorted {A} (R : A → A → Prop) (f : A → bool) l :
  StronglySorted R l → StronglySorted R (List.filter f l).
Proof.
  induction 1 as [|x l Hs IH Hx]; simpl; [constructor|].
  destruct (f x); [|done]. constructor; [done|].
  apply Forall_forall. intros y Hy%list_elem_of_In%filter_In.
  rewrite Forall_forall in Hx. apply Hx, list_elem_of_In. tauto.
Qed.

Lemma selectLoop_dominates fuel minDistance candidates selected accepted :
  Seam.selectLoop fuel minDistance candidates selected = Some accepted →
  StronglySorted notBelow candidates →
  ∀ c, c ∈ candidates →
       ∃ b, b ∈ candidates ∧ Seam.idx b ∈ accepted ∧
            (Seam.score c <= Seam.score b)%Q ∧
            Seam.farFrom minDistance b c = false.
Proof.
  revert candidates selected.
  induction fuel as [|fuel IH]; intros [|best rest] selected Hrun Hsorted c Hc;
    cbn [Seam.selectLoop] in Hrun; try done.
  - by apply elem_of_nil in Hc.
  - by apply elem_of_nil in Hc.
  - destruct (Seam.farFrom minDistance best c) eqn:Hfar.
    + destruct (IH _ _ Hrun (filter_sorted _ _ _ Hsorted) c)
        as (b & Hb & Hacc & Hscore & Hclose).
      { apply list_elem_of_In, filter_In. split; [by apply list_elem_of_In|done]. }
      exists b. split; [|done].
      apply list_elem_of_In, filter_In in Hb as [Hb _]. by apply list_elem_of_In.
    + exists best. split; [apply list_elem_of_here|]. split; [|split; [|done]].
      * eapply selectLoop_extends; [exact Hrun|].
        apply elem_of_app. right. apply list_elem_of_here.
      * inversion Hsorted as [|? ? _ Hall]; subst.
        apply elem_of_cons in Hc as [->|Hc]; [apply Qle_refl|].
        rewrite Forall_forall in Hall. by apply Hall.
Qed.

(** X19.  The strongest-first filter drops a peak only in favour of a
    stronger one nearby: every candidate is less than [minDistance] away
    from a kept candidate (itself, if it is kept) whose smoothed score is at
    least its own. *)
Theorem filterEdges_drops_only_dominated (smoothed : list Q) (minDistance : Q)
    (edges accepted : list Z) :
  Seam.filterEdges smoothed minDistance edges = Some accepted →
  ∀ e, e ∈ edges →
       ∃ s, s ∈ accepted ∧ s ∈ edges ∧
            (Seam.numAt smoothed e <= Seam.numAt smoothed s)%Q ∧
            (inject_Z (Z.abs (s - e)) < minDistance)%Q.
Proof.
  unfold Seam.filterEdges.
  set (mk := fun i => Seam.mkCandidate i (Seam.numAt smoothed i)).
  destruct (Seam.selectLoop (length (mk <$> edges)) minDistance
              (Seam.sortDesc (mk <$> edges)) []) as [chosen|] eqn:Hrun; [|done].
  simpl. intros [= <-] e He.
  destruct (selectLoop_dominates _ _ _ _ _ Hrun (sortDesc_sorted _) (mk e))
    as (b & Hb & Hacc & Hscore & Hclose).
  { rewrite sortDesc_perm. apply list_elem_of_fmap. by exists e. }
  rewrite sortDesc_perm in Hb. apply list_elem_of_fmap in Hb as (i & -> & Hi).
  simpl in *. exists i. split; [by rewrite sortAsc_perm|]. split; [done|].
  split; [done|].
  unfold Seam.farFrom in Hclose. apply Qleb_gt in Hclose. simpl in Hclose.
  change (Qabs (inject_Z (e - i))) with (inject_Z (Z.abs (e - i))) in Hclose.
  by replace (Z.abs (i - e)) with (Z.abs (e - i)) by lia.
Qed.

Lemma filterEdges_drops_only_dominated_witness :
  ∃ s, s ∈ [2; 5] ∧ s ∈ [1; 2; 3; 5] ∧
       (Seam.numAt [0; 3; 9; 4; 0; 8; 0]%Q 3 <= Seam.numAt [0; 3; 9; 4; 0; 8; 0]%Q s)%Q ∧
       (inject_Z (Z.abs (s - 3)) < 2)%Q.
Proof.
  apply (filterEdges_drops_only_dominated [0; 3; 9; 4; 0; 8; 0]%Q 2 [1; 2; 3; 5] [2; 5]).
  - reflexivity.
  - apply list_elem_of_further, list_elem_of_further, list_elem_of_here.
Defined.

(** ** The earlier detector: spacing of its splits *)

Lemma spaced_snoc minDistance l x :
  spaced minDistance l →
  (∀ p, last l = Some p → (minDistance <= inject_Z (x - p))%Q) →
  spaced minDistance (l ++ [x]).
Proof.
  intros Hs Hlast k a b Ha Hb.
  destruct (decide (S k < length l)%nat) as [Hlt|Hge].
  - rewrite lookup_app_l in Ha by lia. rewrite lookup_app_l in Hb by lia.
    by eapply Hs.
  - assert (S k = length l) as Hk.
    { apply lookup_lt_Some in Hb. rewrite length_app in Hb. simpl in Hb. lia. }
    rewrite lookup_app_l in Ha by lia.
    rewrite lookup_app_r, Hk, Nat.sub_diag in Hb by lia.
    injection Hb as <-. apply Hlast.
    rewrite last_lookup. by replace (pred (length l)) with k by lia.
Qed.

Lemma spaced_snoc_inv minDistance l x :
  spaced minDistance (l ++ [x]) →
  spaced minDistance l ∧
  ∀ p, last l = Some p → (minDistance <= inject_Z (x - p))%Q.
Proof.
  intros Hs. split.
  - intros k a b Ha Hb. apply (Hs k a b).
    + apply lookup_app_l_Some. done.
    + apply lookup_app_l_Some. done.
  - intros p Hp. rewrite last_lookup in Hp.
    assert (length l ≠ 0)%nat as Hne.
    { intros H0. rewrite H0 in Hp. simpl in Hp.
      destruct l; [done|done]. }
    apply (Hs (pred (length l)) p x).
    + by apply lookup_app_l_Some.
    + replace (S (pred (length l))) with (length l + 0)%nat by lia.
      by rewrite lookup_app_r, Nat.add_comm, Nat.add_sub by lia.
Qed.

Lemma legacyPeaks_weaken smoothed thr minDistance limit i candidates :
  legacyPeaks smoothed thr minDistance limit i candidates →
  legacyPeaks smoothed thr minDistance limit (i + 1) candidates.
Proof.
  intros (Hs & Hall & Hsp). split; [done|]. split; [|done].
  eapply Forall_impl; [exact Hall|]. intros c (Hc & Hrest). simpl in *.
  split; [lia|done].
Qed.

Lemma peakStep_inv smoothed thr minDistance limit candidates i :
  1 ≤ i →
  legacyPeaks smoothed thr minDistance limit i candidates →
  legacyPeaks smoothed thr minDistance limit (i + 1)
    (SeamLegacy.peakStep smoothed thr minDistance limit candidates i).
Proof.
  intros Hi Hinv. unfold SeamLegacy.peakStep.
  destruct (Qltb thr (Seam.numAt smoothed i) && Seam.isLocalMax 5 smoothed limit i)
    eqn:Hpeak; [|by apply legacyPeaks_weaken].
  apply andb_true_iff in Hpeak as [Hthr%Qltb_lt Hmax].
  assert (1 ≤ i < i + 1 ∧ (thr < Seam.numAt smoothed i)%Q ∧
          Seam.isLocalMax 5 smoothed limit i = true) as Hnew by (split; [lia|done]).
  destruct candidates as [|x l _] using rev_ind.
  - simpl. split; [repeat constructor|].
    split; [constructor; [exact Hnew|constructor]|].
    intros k a b Ha Hb. by destruct k.
  - rewrite last_snoc.
    pose proof Hinv as (Hs & Hall & Hsp).
    apply Forall_app in Hall as [Hl Hx]. apply Forall_cons in Hx as [(Hx & _) _].
    apply spaced_snoc_inv in Hsp as [Hspl Hlast].
    assert (StronglySorted Z.lt l ∧ Forall (fun y => y < x) l) as [Hsl Hlx].
    { clear -Hs. induction l as [|y l IH]; [by split; constructor|].
      simpl in Hs. inversion Hs as [|? ? Hs' Hy]; subst.
      destruct (IH Hs') as [IH1 IH2].
      apply Forall_app in Hy as [Hyl Hyx]. apply Forall_cons in Hyx as [Hyx _].
      split; constructor; done. }
    destruct (Qltb (inject_Z (i - x)) minDistance) eqn:Hclose.
    + destruct (Qltb (Seam.numAt smoothed x) (Seam.numAt smoothed i)) eqn:Hbetter;
        [|by apply legacyPeaks_weaken].
      rewrite removelast_last. split; [|split].
      * apply sorted_snoc; [done|].
        eapply Forall_impl; [exact Hlx|]. intros y Hy. simpl in Hy. lia.
      * apply Forall_app. split; [|constructor; [exact Hnew|constructor]].
        eapply Forall_impl; [exact Hl|]. intros c (Hc & Hrest). simpl in *.
        split; [lia|done].
      * apply spaced_snoc; [done|]. intros p Hp.
        eapply Qle_trans; [by apply Hlast|].
        rewrite <- Zle_Qle. lia.
    + apply Qltb_ge in Hclose. split; [|split].
      * apply sorted_snoc; [done|]. apply Forall_app. split.
        -- eapply Forall_impl; [exact Hlx|]. intros y Hy. simpl in Hy. lia.
        -- constructor; [lia|constructor].
      * apply Forall_app. split; [|constructor; [exact Hnew|constructor]].
        destruct (legacyPeaks_weaken _ _ _ _ _ _ Hinv) as (_ & Hall' & _). done.
      * apply spaced_snoc; [by destruct Hinv as (_ & _ & ?)|].
        intros p Hp. rewrite last_snoc in Hp. by injection Hp as <-.
Qed.

Lemma foldl_peakStep_inv smoothed thr minDistance limit (n : nat) :
  legacyPeaks smoothed thr minDistance limit (1 + Z.of_nat n)
    (foldl (SeamLegacy.peakStep smoothed thr minDistance limit) []
           (seqZ 1 (Z.of_nat n))).
Proof.
  induction n as [|n IH].
  - simpl. split; [constructor|]. split; [constructor|].
    intros k a b Ha Hb. done.
  - rewrite seqZ_S, foldl_app. cbn [foldl].
    replace (1 + Z.of_nat (S n)) with (1 + Z.of_nat n + 1) by lia.
    apply peakStep_inv; [lia|done].
Qed.

(** X20.  The earlier, gradient-only detector returns its splits in
    strictly increasing order, each one a line of [1 .. limit - 2] whose
    smoothed score is above the threshold and maximal in its 5-line
    neighbourhood, with adjacent splits at least [minDistance] apart. *)
Theorem legacy_detectAxis_spaced (sqrt : Q → Q) (img : ImageData)
    (d : SplitDirection) :
  0 ≤ Seam.limitOf img d →
  let limit := Seam.limitOf img d in
  let smoothed :=
    SeamLegacy.smooth SeamLegacy.smoothWindow (SeamLegacy.computeScores img d) in
  ∃ splits,
    SeamLegacy.detectAxis sqrt img d = Return splits ∧
    StronglySorted Z.lt splits ∧
    spaced (SeamLegacy.minDistanceOf limit) splits ∧
    Forall (fun c =>
              1 ≤ c ≤ limit - 2 ∧
              (SeamLegacy.threshold sqrt (Seam.nonZero smoothed)
               < Seam.numAt smoothed c)%Q ∧
              Seam.isLocalMax 5 smoothed limit c = true) splits.
Proof.
  intros Hlimit limit smoothed. unfold SeamLegacy.detectAxis.
  destruct (Z.ltb_spec (Seam.limitOf img d) 0) as [Hneg|_]; [lia|].
  fold limit smoothed.
  destruct (Seam.nonZero smoothed) as [|q qs] eqn:Hnz.
  - exists []. split; [done|]. split; [constructor|]. split; [|constructor].
    intros k a b Ha Hb. done.
  - eexists. split; [reflexivity|].
    destruct (Z.le_gt_cases 0 (limit - 2)) as [Hpos|Hsmall].
    + pose proof (foldl_peakStep_inv smoothed
                    (SeamLegacy.threshold sqrt (q :: qs))
                    (SeamLegacy.minDistanceOf limit) limit (Z.to_nat (limit - 2)))
        as (Hs & Hall & Hsp).
      rewrite Z2Nat.id in Hs, Hall, Hsp by done.
      split; [done|]. split; [done|].
      eapply Forall_impl; [exact Hall|]. intros c (Hc & Hrest). simpl in *.
      split; [lia|done].
    + replace (seqZ 1 (limit - 2)) with (@nil Z).
      2:{ symmetry. apply length_zero_iff_nil. rewrite length_seqZ. lia. }
      simpl. split; [constructor|]. split; [|constructor].
      intros k a b Ha Hb. done.
Qed.

Lemma legacy_detectAxis_spaced_witness :
  ∃ splits,
    SeamLegacy.detectAxis (fun x => x) bandedImage HORIZONTAL = Return splits ∧
    StronglySorted Z.lt splits ∧
    spaced (SeamLegacy.minDistanceOf 40) splits.
Proof.
  destruct (legacy_detectAxis_spaced (fun x => x) bandedImage HORIZONTAL)
    as (splits & Hrun & Hsorted & Hspaced & _).
  - unfold Seam.limitOf. simpl. lia.
  - exists splits. split; [exact Hrun|]. split; [exact Hsorted|exact Hspaced].
Defined.

(** ** Axes of fewer than three lines *)

Lemma findGaps_short (variances : list Q) :
  (length variances ≤ 2)%nat → Seam.findGaps variances = [].
Proof.
  intros Hlen. unfold Seam.findGaps.
  destruct variances as [|a [|b [|c rest]]]; [done| | |simpl in Hlen; lia].
  - cbn [Seam.gapLoop]. by destruct (Qltb a Seam.gapThreshold).
  - cbn [Seam.gapLoop].
    by destruct (Qltb a Seam.gapThreshold), (Qltb b Seam.gapThreshold).
Qed.

Lemma seqZ_nonpos m n : n ≤ 0 → seqZ m n = [].
Proof. intros Hn. apply length_zero_iff_nil. rewrite length_seqZ. lia. Qed.

(** X21.  An axis of fewer than three lines is never split, by the current
    detector or by the earlier one, whatever the pixels. *)
Theorem short_axis_is_never_split (sqrt : Q → Q) (img : ImageData)
    (d : SplitDirection) :
  0 ≤ Seam.limitOf img d ≤ 2 →
  Seam.detectAxis sqrt img d = Return [] ∧
  SeamLegacy.detectAxis sqrt img d = Return [].
Proof.
  intros Hlimit. split.
  - unfold Seam.detectAxis.
    destruct (Z.ltb_spec (Seam.limitOf img d) 0) as [Hneg|_]; [lia|].
    rewrite findGaps_short.
    2:{ unfold Seam.computeVariances. rewrite length_fmap, length_seqZ. lia. }
    unfold Seam.detectEdges.
    destruct (Seam.nonZero _) as [|q qs]; [done|].
    unfold Seam.findPeaks. by rewrite seqZ_nonpos by lia.
  - unfold SeamLegacy.detectAxis.
    destruct (Z.ltb_spec (Seam.limitOf img d) 0) as [Hneg|_]; [lia|].
    destruct (Seam.nonZero _) as [|q qs]; [done|].
    by rewrite seqZ_nonpos by lia.
Qed.

Lemma short_axis_is_never_split_witness :
  Seam.detectAxis (fun x => x) stripeImage VERTICAL = Return [] ∧
  SeamLegacy.detectAxis (fun x => x) stripeImage VERTICAL = Return [].
Proof.
  apply (short_axis_is_never_split (fun x => x) stripeImage VERTICAL).
  unfold Seam.limitOf. simpl. lia.
Defined.
